(** * ksystemstats: registry, per-client subscriptions and the frame tick

    A shallow embedding of [src/src/daemon.cpp] and [src/src/client.cpp].
    The daemon owns a list of sensor plugins, an index of their containers
    and one [Client] per D-Bus peer.  Every 500 ms [Daemon::sendFrame] asks
    each plugin to update and then lets every client flush what its
    listeners queued since the previous frame.

    Heap objects that the C++ code shares through pointers
    ([KSysGuard::SensorProperty *], [KSysGuard::SensorContainer *]) live in
    explicit stores indexed by address; Qt signal connections live in one
    ordered connection table, as [QObject::connect] keeps them. *)

From Stdlib Require Import ZArith Ascii String ZifyBool.
From stdpp Require Import gmap strings list fin_maps.

Local Open Scope string_scope.
Local Open Scope list_scope.
Local Open Scope Z_scope.

(** ** QString: the operations [Daemon::findSensor] uses

    Identifiers are ASCII (the path grammar of the daemon), so a [QString]
    is a [string]; positions are [Z] because Qt reports "not found" as
    [-1] and accepts negative lengths. *)
Module QString.

Definition size (s : string) : Z := Z.of_nat (String.length s).

Fixpoint indexOf_from (ch : ascii) (s : string) (i : Z) : Z :=
  match s with
  | EmptyString => -1
  | String a rest => if Ascii.eqb a ch then i else indexOf_from ch rest (i + 1)
  end.

(** [QString::indexOf(ch)]: position of the first [ch], [-1] if none. *)
Definition indexOf (ch : ascii) (s : string) : Z := indexOf_from ch s 0.

Fixpoint lastIndexOf_from (ch : ascii) (s : string) (i acc : Z) : Z :=
  match s with
  | EmptyString => acc
  | String a rest =>
      lastIndexOf_from ch rest (i + 1) (if Ascii.eqb a ch then i else acc)
  end.

(** [QString::lastIndexOf(ch)]: position of the last [ch], [-1] if none. *)
Definition lastIndexOf (ch : ascii) (s : string) : Z :=
  lastIndexOf_from ch s 0 (-1).

(** [QString::left(n)]: the whole string when [n] is negative or not
    smaller than the size. *)
Definition left (n : Z) (s : string) : string :=
  if (n <? 0) || (size s <=? n) then s
  else String.substring 0 (Z.to_nat n) s.

(** [QString::mid(position, n)], after [QContainerImplHelper::mid]: a
    position past the end gives the null string, a negative position is
    clamped to 0 with the length shortened accordingly, and a length that
    is negative or runs past the end means "up to the end". *)
Definition mid (position n : Z) (s : string) : string :=
  let len := size s in
  if len <? position then ""
  else if position <? 0 then
    if (n <? 0) || (len <=? n + position) then s
    else if n + position <=? 0 then ""
    else String.substring 0 (Z.to_nat (n + position)) s
  else if (n <? 0) || (len - position <? n) then
    String.substring (Z.to_nat position) (Z.to_nat (len - position)) s
  else String.substring (Z.to_nat position) (Z.to_nat n) s.

(** [mid(position)] with the default length [-1]. *)
Definition mid_end (position : Z) (s : string) : string := mid position (-1) s.

End QString.

(** ** Values and metadata carried by a sensor *)

(** [QVariant]: the default-constructed variant is invalid. *)
Inductive QVariant :=
  | Invalid
  | VInt (n : Z)
  | VBool (b : bool)
  | VString (s : string).

#[global] Instance QVariant_eq_dec : EqDecision QVariant.
Proof. solve_decision. Defined.

Definition isValid (v : QVariant) : bool :=
  match v with Invalid => false | _ => true end.

(** [KSysGuard::SensorInfo]; numeric fields are kept as integers. *)
Record SensorInfo := mkSensorInfo {
  si_name : string;
  si_shortName : string;
  si_description : string;
  si_unit : Z;
  si_min : Z;
  si_max : Z
}.

#[global] Instance SensorInfo_eq_dec : EqDecision SensorInfo.
Proof. solve_decision. Defined.

(** [KSysGuard::SensorInfo{}] with only its name assigned, as [allSensors]
    builds it for containers and objects. *)
Definition namedInfo (n : string) : SensorInfo :=
  mkSensorInfo n "" "" 0 0 0.

(** [KSysGuard::SensorData(path, value)]. *)
Record SensorData := mkSensorData {
  sensorProperty : string;
  payload : QVariant
}.

#[global] Instance SensorData_eq_dec : EqDecision SensorData.
Proof. solve_decision. Defined.

(** Addresses of heap objects. *)
Abbreviation SensorPtr := nat.
Abbreviation ContainerPtr := nat.

(** ** The sensor tree (libksysguard) *)

(** Modelled from the spec: [KSysGuard::SensorProperty] is declared in
    libksysguard, outside [src/]; the fields are those of the spec's
    Property: the derived path, the current value, the metadata and the
    subscription reference count (a C++ [int]). *)
Record SensorProperty := mkSensorProperty {
  sp_path : string;
  sp_value : QVariant;
  sp_info : SensorInfo;
  sp_subscribers : Z
}.

(** Modelled from the spec: [KSysGuard::SensorObject], a named group of
    properties keyed by local name; [so_path] is what [object->path()]
    returns. *)
Record SensorObject := mkSensorObject {
  so_name : string;
  so_path : string;
  so_sensors : gmap string SensorPtr
}.

(** Modelled from the spec: [KSysGuard::SensorContainer], a top-level
    namespace holding objects keyed by id. *)
Record SensorContainer := mkSensorContainer {
  sc_id : string;
  sc_name : string;
  sc_objects : gmap string SensorObject
}.

(** ** Signals, connections and messages *)

Inductive Signal :=
  | SigValueChanged
  | SigSensorInfoChanged
  | SigDestroyed.

#[global] Instance Signal_eq_dec : EqDecision Signal.
Proof. solve_decision. Defined.

(** One entry of Qt's connection table: the handle [connect] returned, the
    emitting sensor, the signal, and the receiving client (clients are
    identified by their D-Bus service name, the key of [m_clients]).  The
    slot is determined by the signal: each of the three lambdas of
    [Client::subscribeSensors] is connected to exactly one signal and
    captures the sender. *)
Record Connection := mkConnection {
  conn_handle : nat;
  conn_sender : SensorPtr;
  conn_signal : Signal;
  conn_receiver : string
}.

(** The [Connections] triple [Client::subscribeSensors] stores in
    [m_connections] under the sensor.  client.cpp inserts and takes one
    triple per sensor, so [m_connections] is a hash from sensor to triple:
    inserting for a sensor that has one replaces it. *)
Record Connections := mkConnections {
  valueChanged : nat;
  infoChanged : nat;
  destroyed : nat
}.

(** A targeted D-Bus signal sent by a client's flush. *)
Inductive Message :=
  | SensorMetaDataChanged (service : string) (sensors : gmap string SensorInfo)
  | NewSensorData (service : string) (entries : list SensorData).

(** What a plugin does to the sensor tree, one step at a time. *)
Inductive Action :=
  | SetValue (s : SensorPtr) (v : QVariant)
  | SetInfo (s : SensorPtr) (i : SensorInfo)
  | RemoveObject (c : ContainerPtr) (objectId : string)
  | Throw.

(** [KSysGuard::SensorPlugin] as the daemon sees it: [providerName()],
    [containers()] and [update()].  [update] is plugin code; it is given as
    the steps it performs in the tick under consideration, [Throw] standing
    for a C++ exception leaving [update()]. *)
Record SensorPlugin := mkSensorPlugin {
  providerName : string;
  containers : list ContainerPtr;
  update : list Action
}.

(** Calls recorded for reasoning about what a tick invoked. *)
Inductive Call :=
  | CallUpdate (provider : string)
  | CallSendFrame (service : string).

(** ** Client and daemon state *)

Record Client := mkClient {
  m_serviceName : string;
  m_subscribedSensors : gmap string SensorPtr;
  m_connections : gmap SensorPtr Connections;
  m_pendingUpdates : list SensorData;
  m_pendingMetaDataChanges : gmap string SensorInfo
}.

(** The daemon's members ([m_providers], [m_containers], [m_clients])
    together with the stores they point into, the connection table, the
    containers whose [objectAdded]/[objectRemoved] signals the daemon is
    connected to, the session bus and the call log. *)
Record World := mkWorld {
  m_providers : list SensorPlugin;
  m_containers : gmap string ContainerPtr;
  m_clients : gmap string Client;
  sensorHeap : gmap SensorPtr SensorProperty;
  containerHeap : gmap ContainerPtr SensorContainer;
  connections : list Connection;
  nextHandle : nat;
  containerSlots : list ContainerPtr;
  sessionBus : list Message;
  callLog : list Call
}.

(** Field updates. *)
Definition set_providers (f : list SensorPlugin → list SensorPlugin) (w : World) : World :=
  mkWorld (f (m_providers w)) (m_containers w) (m_clients w) (sensorHeap w)
    (containerHeap w) (connections w) (nextHandle w) (containerSlots w)
    (sessionBus w) (callLog w).

Definition set_containers (f : gmap string ContainerPtr → gmap string ContainerPtr)
    (w : World) : World :=
  mkWorld (m_providers w) (f (m_containers w)) (m_clients w) (sensorHeap w)
    (containerHeap w) (connections w) (nextHandle w) (containerSlots w)
    (sessionBus w) (callLog w).

Definition set_clients (f : gmap string Client → gmap string Client) (w : World) : World :=
  mkWorld (m_providers w) (m_containers w) (f (m_clients w)) (sensorHeap w)
    (containerHeap w) (connections w) (nextHandle w) (containerSlots w)
    (sessionBus w) (callLog w).

Definition set_sensorHeap (f : gmap SensorPtr SensorProperty → gmap SensorPtr SensorProperty)
    (w : World) : World :=
  mkWorld (m_providers w) (m_containers w) (m_clients w) (f (sensorHeap w))
    (containerHeap w) (connections w) (nextHandle w) (containerSlots w)
    (sessionBus w) (callLog w).

Definition set_containerHeap
    (f : gmap ContainerPtr SensorContainer → gmap ContainerPtr SensorContainer)
    (w : World) : World :=
  mkWorld (m_providers w) (m_containers w) (m_clients w) (sensorHeap w)
    (f (containerHeap w)) (connections w) (nextHandle w) (containerSlots w)
    (sessionBus w) (callLog w).

Definition set_connections (f : list Connection → list Connection) (w : World) : World :=
  mkWorld (m_providers w) (m_containers w) (m_clients w) (sensorHeap w)
    (containerHeap w) (f (connections w)) (nextHandle w) (containerSlots w)
    (sessionBus w) (callLog w).

Definition set_nextHandle (f : nat → nat) (w : World) : World :=
  mkWorld (m_providers w) (m_containers w) (m_clients w) (sensorHeap w)
    (containerHeap w) (connections w) (f (nextHandle w)) (containerSlots w)
    (sessionBus w) (callLog w).

Definition set_containerSlots (f : list ContainerPtr → list ContainerPtr) (w : World) : World :=
  mkWorld (m_providers w) (m_containers w) (m_clients w) (sensorHeap w)
    (containerHeap w) (connections w) (nextHandle w) (f (containerSlots w))
    (sessionBus w) (callLog w).

Definition set_sessionBus (f : list Message → list Message) (w : World) : World :=
  mkWorld (m_providers w) (m_containers w) (m_clients w) (sensorHeap w)
    (containerHeap w) (connections w) (nextHandle w) (containerSlots w)
    (f (sessionBus w)) (callLog w).

Definition set_callLog (f : list Call → list Call) (w : World) : World :=
  mkWorld (m_providers w) (m_containers w) (m_clients w) (sensorHeap w)
    (containerHeap w) (connections w) (nextHandle w) (containerSlots w)
    (sessionBus w) (f (callLog w)).

Definition set_subscribedSensors (f : gmap string SensorPtr → gmap string SensorPtr)
    (c : Client) : Client :=
  mkClient (m_serviceName c) (f (m_subscribedSensors c)) (m_connections c)
    (m_pendingUpdates c) (m_pendingMetaDataChanges c).

Definition set_clientConnections
    (f : gmap SensorPtr Connections → gmap SensorPtr Connections) (c : Client) : Client :=
  mkClient (m_serviceName c) (m_subscribedSensors c) (f (m_connections c))
    (m_pendingUpdates c) (m_pendingMetaDataChanges c).

Definition set_pendingUpdates (f : list SensorData → list SensorData) (c : Client) : Client :=
  mkClient (m_serviceName c) (m_subscribedSensors c) (m_connections c)
    (f (m_pendingUpdates c)) (m_pendingMetaDataChanges c).

Definition set_pendingMetaDataChanges
    (f : gmap string SensorInfo → gmap string SensorInfo) (c : Client) : Client :=
  mkClient (m_serviceName c) (m_subscribedSensors c) (m_connections c)
    (m_pendingUpdates c) (f (m_pendingMetaDataChanges c)).

(** The daemon right after construction: no plugin, no client. *)
Definition emptyWorld : World :=
  mkWorld [] ∅ ∅ ∅ ∅ [] 0%nat [] [] [].

(** ** Qt primitives *)

(** [QObject::connect(sensor, signal, this, slot)]: appends to the table
    and returns a fresh handle. *)
Definition connect (sender : SensorPtr) (sig : Signal) (receiver : string)
    (w : World) : nat * World :=
  let h := nextHandle w in
  (h, set_nextHandle S
        (set_connections (λ t, t ++ [mkConnection h sender sig receiver]) w)).

(** [QObject::disconnect(handle)]. *)
Definition disconnect (h : nat) (w : World) : World :=
  set_connections (filter (λ c, conn_handle c ≠ h)) w.

(** [QHash::key(value)]: the first key mapped to [value], the
    default-constructed key if there is none. *)
Definition QHash_key (m : gmap string SensorPtr) (v : SensorPtr) : string :=
  match filter (λ kv, kv.2 = v) (map_to_list m) with
  | (k, _) :: _ => k
  | [] => ""
  end.

(** ** The three listeners of [Client::subscribeSensors]

    Each lambda captures [this] and [sensor]; [sp] is the state of the
    captured sensor when the slot runs. *)

(** [valueChanged] listener (client.cpp 45-51). *)
Definition onValueChanged (sp : SensorProperty) (c : Client) : Client :=
  let value := sp_value sp in
  if negb (isValid value) then c
  else set_pendingUpdates (λ l, l ++ [mkSensorData (sp_path sp) value]) c.

(** [sensorInfoChanged] listener (client.cpp 52-54). *)
Definition onInfoChanged (sp : SensorProperty) (c : Client) : Client :=
  set_pendingMetaDataChanges (<[sp_path sp := sp_info sp]>) c.

(** [destroyed] listener (client.cpp 55-58). *)
Definition onDestroyed (sensor : SensorPtr) (c : Client) : Client :=
  set_clientConnections (delete sensor)
    (set_subscribedSensors (delete (QHash_key (m_subscribedSensors c) sensor)) c).

Definition slot (sig : Signal) (sensor : SensorPtr) (sp : SensorProperty)
    (c : Client) : Client :=
  match sig with
  | SigValueChanged => onValueChanged sp c
  | SigSensorInfoChanged => onInfoChanged sp c
  | SigDestroyed => onDestroyed sensor c
  end.

(** Whether a table entry is a listener of [sig] on [sensor]. *)
Definition listens (sig : Signal) (sensor : SensorPtr) (k : Connection) : bool :=
  bool_decide (conn_sender k = sensor) && bool_decide (conn_signal k = sig).

(** Runs the slot of one connection on its receiver. *)
Definition invoke (sig : Signal) (sensor : SensorPtr) (sp : SensorProperty)
    (cs : gmap string Client) (k : Connection) : gmap string Client :=
  alter (slot sig sensor sp) (conn_receiver k) cs.

(** [Q_EMIT sig()] on [sensor]: the connected slots run synchronously in
    connection order.  None of the slots touches the sensor store or the
    connection table, so the sensor is read once. *)
Definition emit (sig : Signal) (sensor : SensorPtr) (w : World) : World :=
  match sensorHeap w !! sensor with
  | Some sp =>
      set_clients (λ cs,
        foldl (invoke sig sensor sp) cs
          (List.filter (listens sig sensor) (connections w))) w
  | None => w
  end.

(** ** libksysguard operations the daemon relies on *)

Definition set_subscribers (f : Z → Z) (sp : SensorProperty) : SensorProperty :=
  mkSensorProperty (sp_path sp) (sp_value sp) (sp_info sp) (f (sp_subscribers sp)).

(** Modelled from the spec: [SensorProperty::subscribe()] of libksysguard,
    reference counted. *)
Definition SensorProperty_subscribe (sensor : SensorPtr) (w : World) : World :=
  set_sensorHeap (alter (set_subscribers (λ n, n + 1)) sensor) w.

(** Modelled from the spec: [SensorProperty::unsubscribe()] of libksysguard,
    reference counted. *)
Definition SensorProperty_unsubscribe (sensor : SensorPtr) (w : World) : World :=
  set_sensorHeap (alter (set_subscribers (λ n, n - 1)) sensor) w.

(** Modelled from the spec: [SensorProperty::setValue(v)] of libksysguard;
    a value equal to the current one is a no-op, any other value is stored
    and a value-changed event is emitted to the current listeners. *)
Definition SensorProperty_setValue (sensor : SensorPtr) (v : QVariant) (w : World) : World :=
  match sensorHeap w !! sensor with
  | Some sp =>
      if decide (sp_value sp = v) then w
      else
        emit SigValueChanged sensor
          (set_sensorHeap
             (<[sensor := mkSensorProperty (sp_path sp) v (sp_info sp) (sp_subscribers sp)]>) w)
  | None => w
  end.

(** Modelled from the spec: the metadata setters of libksysguard's
    [SensorProperty]; the new metadata is stored and a metadata-changed
    event is emitted. *)
Definition SensorProperty_setInfo (sensor : SensorPtr) (i : SensorInfo) (w : World) : World :=
  match sensorHeap w !! sensor with
  | Some sp =>
      emit SigSensorInfoChanged sensor
        (set_sensorHeap
           (<[sensor := mkSensorProperty (sp_path sp) (sp_value sp) i (sp_subscribers sp)]>) w)
  | None => w
  end.

(** [obj->sensors()] and [c->objects()]: the values of the hashes. *)
Definition sensorsOf (obj : SensorObject) : list SensorPtr :=
  (map_to_list (so_sensors obj)).*2.

Definition objectsOf (c : SensorContainer) : list SensorObject :=
  (map_to_list (sc_objects c)).*2.

(** ** Daemon::findSensor (daemon.cpp 202-220) *)

Definition slash : ascii := "/"%char.

Definition subsystemOf (path : string) : string :=
  QString.left (QString.indexOf slash path) path.

Definition objectOf (path : string) : string :=
  let subsystemIndex := QString.indexOf slash path in
  let propertyIndex := QString.lastIndexOf slash path in
  QString.mid (subsystemIndex + 1) (propertyIndex - (subsystemIndex + 1)) path.

Definition propertyOf (path : string) : string :=
  QString.mid_end (QString.lastIndexOf slash path + 1) path.

(** A null result is [None]. *)
Definition findSensor (w : World) (path : string) : option SensorPtr :=
  let subsystem := subsystemOf path in
  let object := objectOf path in
  let property := propertyOf path in
  match m_containers w !! subsystem with
  | None => None
  | Some cp =>
      match containerHeap w !! cp with
      | None => None
      | Some c =>
          match sc_objects c !! object with
          | None => None
          | Some o => so_sensors o !! property
          end
      end
  end.

(** ** Client (client.cpp) *)

(** Body of the loop of [Client::subscribeSensors] for one path; [cn] is
    the service name of [this]. *)
Definition subscribeSensor (cn : string) (w : World) (sensorPath : string) : World :=
  match findSensor w sensorPath with
  | Some sensor =>
      let '(hv, w) := connect sensor SigValueChanged cn w in
      let '(hi, w) := connect sensor SigSensorInfoChanged cn w in
      let '(hd, w) := connect sensor SigDestroyed cn w in
      let w := set_clients
                 (alter (set_clientConnections (<[sensor := mkConnections hv hi hd]>)) cn) w in
      let w := SensorProperty_subscribe sensor w in
      set_clients (alter (set_subscribedSensors (<[sensorPath := sensor]>)) cn) w
  | None => w
  end.

Definition subscribeSensors (cn : string) (sensorPaths : list string) (w : World) : World :=
  foldl (subscribeSensor cn) w sensorPaths.

(** Body of the loop of [Client::unsubscribeSensors] for one path.
    [m_subscribedSensors.take] yields null for an absent key;
    [m_connections.take] of an absent key yields default-constructed
    handles, whose [disconnect] does nothing. *)
Definition unsubscribeSensor (cn : string) (w : World) (sensorPath : string) : World :=
  match m_clients w !! cn with
  | None => w
  | Some c =>
      match m_subscribedSensors c !! sensorPath with
      | None => w
      | Some sensor =>
          let w := set_clients (alter (set_subscribedSensors (delete sensorPath)) cn) w in
          let w := set_clients (alter (set_clientConnections (delete sensor)) cn) w in
          let w :=
            match m_connections c !! sensor with
            | Some k =>
                disconnect (destroyed k) (disconnect (infoChanged k) (disconnect (valueChanged k) w))
            | None => w
            end in
          SensorProperty_unsubscribe sensor w
      end
  end.

Definition unsubscribeSensors (cn : string) (sensorPaths : list string) (w : World) : World :=
  foldl (unsubscribeSensor cn) w sensorPaths.

(** [QDBusConnection::sessionBus().send(msg)]. *)
Definition send (msg : Message) (w : World) : World :=
  set_sessionBus (λ bus, bus ++ [msg]) w.

Definition sendValues (service : string) (entries : list SensorData) (w : World) : World :=
  match entries with
  | [] => w
  | _ => send (NewSensorData service entries) w
  end.

Definition sendMetaDataChanged (service : string) (sensors : gmap string SensorInfo)
    (w : World) : World :=
  if decide (sensors = ∅) then w
  else send (SensorMetaDataChanged service sensors) w.

Definition clearPending (c : Client) : Client :=
  set_pendingMetaDataChanges (λ _, ∅) (set_pendingUpdates (λ _, []) c).

(** [Client::sendFrame] of the client registered under [cn]. *)
Definition Client_sendFrame (cn : string) (w : World) : World :=
  match m_clients w !! cn with
  | None => w
  | Some c =>
      let w := set_callLog (λ l, l ++ [CallSendFrame cn]) w in
      let w := sendMetaDataChanged (m_serviceName c) (m_pendingMetaDataChanges c) w in
      let w := sendValues (m_serviceName c) (m_pendingUpdates c) w in
      set_clients (alter clearPending cn) w
  end.

(** The slot the [Client] constructor connects to [Daemon::sensorRemoved];
    every client of [m_clients] has it, so the signal reaches them all. *)
Definition emit_sensorRemoved (sensor : string) (w : World) : World :=
  set_clients (fmap (set_subscribedSensors (delete sensor))) w.

(** [Client::~Client] followed by the [QObject] destructor, which drops
    the connections the client received on. *)
Definition destroyClient (cn : string) (w : World) : World :=
  match m_clients w !! cn with
  | None => w
  | Some c =>
      let w := foldl (λ w sensor, SensorProperty_unsubscribe sensor w) w
                 (map_to_list (m_subscribedSensors c)).*2 in
      set_connections (filter (λ k, conn_receiver k ≠ cn)) w
  end.

(** ** Daemon (daemon.cpp) *)

(** The handler connected to [SensorContainer::objectRemoved] in
    [registerProvider] (daemon.cpp 123-127). *)
Definition onObjectRemoved (obj : SensorObject) (w : World) : World :=
  foldl (λ w sensor,
           match sensorHeap w !! sensor with
           | Some sp => emit_sensorRemoved (sp_path sp) w
           | None => w
           end) w (sensorsOf obj).

(** [Daemon::registerProvider] (daemon.cpp 106-129). *)
Definition alreadyHasProvider (w : World) (provider : SensorPlugin) : bool :=
  existsb (λ provider2, String.eqb (providerName provider2) (providerName provider))
    (m_providers w).

(** Body of the loop over [provider->containers()]: the container is
    indexed under its id and its [objectAdded] and [objectRemoved] signals
    are connected.  The [objectAdded] handler only re-emits
    [Daemon::sensorAdded], which nothing in the daemon listens to. *)
Definition registerContainer (w : World) (container : ContainerPtr) : World :=
  match containerHeap w !! container with
  | Some c =>
      set_containerSlots (λ l, l ++ [container])
        (set_containers (<[sc_id c := container]>) w)
  | None => w
  end.

Definition registerProvider (provider : SensorPlugin) (w : World) : World :=
  if alreadyHasProvider w provider then w
  else
    let w := set_providers (λ l, l ++ [provider]) w in
    foldl registerContainer w (containers provider).

(** [Daemon::allSensors] (daemon.cpp 131-152). *)
Definition addSensorInfo (w : World) (infoMap : gmap string SensorInfo)
    (sensor : SensorPtr) : gmap string SensorInfo :=
  match sensorHeap w !! sensor with
  | Some sp => <[sp_path sp := sp_info sp]> infoMap
  | None => infoMap
  end.

Definition addObjectInfo (w : World) (infoMap : gmap string SensorInfo)
    (object : SensorObject) : gmap string SensorInfo :=
  foldl (addSensorInfo w)
    (<[so_path object := namedInfo (so_name object)]> infoMap) (sensorsOf object).

Definition addContainerInfo (w : World) (infoMap : gmap string SensorInfo)
    (cp : ContainerPtr) : gmap string SensorInfo :=
  match containerHeap w !! cp with
  | Some c =>
      foldl (addObjectInfo w) (<[sc_id c := namedInfo (sc_name c)]> infoMap) (objectsOf c)
  | None => infoMap
  end.

Definition allSensors (w : World) : gmap string SensorInfo :=
  foldl (addContainerInfo w) ∅ (map_to_list (m_containers w)).*2.

(** [Daemon::sensors] (daemon.cpp 154-163). *)
Definition sensors (w : World) (sensorPaths : list string) : gmap string SensorInfo :=
  foldl (λ si path,
           match findSensor w path with
           | Some sensor =>
               match sensorHeap w !! sensor with
               | Some sp => <[path := sp_info sp]> si
               | None => si
               end
           | None => si
           end) ∅ sensorPaths.

(** [Daemon::sensorData] (daemon.cpp 188-200). *)
Definition sensorDataStep (w : World) (acc : list SensorData) (sensorId : string)
    : list SensorData :=
  match findSensor w sensorId with
  | Some sensorProperty =>
      match sensorHeap w !! sensorProperty with
      | Some sp =>
          let value := sp_value sp in
          if isValid value then acc ++ [mkSensorData sensorId value] else acc
      | None => acc
      end
  | None => acc
  end.

Definition sensorData (w : World) (sensorIds : list string) : list SensorData :=
  foldl (sensorDataStep w) [] sensorIds.

(** [Daemon::subscribe] (daemon.cpp 165-176); [sender] is the service the
    D-Bus call came from. *)
Definition subscribe (sender : string) (sensorIds : list string) (w : World) : World :=
  let w :=
    match m_clients w !! sender with
    | Some _ => w
    | None => set_clients (<[sender := mkClient sender ∅ ∅ [] ∅]>) w
    end in
  subscribeSensors sender sensorIds w.

(** [Daemon::unsubscribe] (daemon.cpp 178-186). *)
Definition unsubscribe (sender : string) (sensorIds : list string) (w : World) : World :=
  match m_clients w !! sender with
  | None => w
  | Some _ => unsubscribeSensors sender sensorIds w
  end.

(** [Daemon::onServiceDisconnected] (daemon.cpp 222-228), without the
    application quit. *)
Definition onServiceDisconnected (service : string) (w : World) : World :=
  set_clients (delete service) (destroyClient service w).

(** ** Plugin activity *)

(** Destruction of one sensor: [destroyed] is emitted, then Qt drops the
    connections of the dead sender and the storage is released. *)
Definition destroySensor (w : World) (sensor : SensorPtr) : World :=
  set_sensorHeap (delete sensor)
    (set_connections (filter (λ k, conn_sender k ≠ sensor))
       (emit SigDestroyed sensor w)).

(** Modelled from the spec: destruction of a [SensorObject] by its plugin
    (libksysguard's [SensorContainer::removeObject] and the object's
    destructor): the object leaves its container, [objectRemoved] reaches
    the daemon once per connection made in [registerProvider], and the
    object's properties are destroyed with it. *)
Definition SensorContainer_removeObject (cp : ContainerPtr) (objectId : string)
    (w : World) : World :=
  match containerHeap w !! cp with
  | None => w
  | Some c =>
      match sc_objects c !! objectId with
      | None => w
      | Some obj =>
          let w := set_containerHeap
                     (<[cp := mkSensorContainer (sc_id c) (sc_name c)
                                (delete objectId (sc_objects c))]>) w in
          let w := foldl (λ w _, onObjectRemoved obj w) w
                     (List.filter (Nat.eqb cp) (containerSlots w)) in
          foldl destroySensor w (sensorsOf obj)
      end
  end.

(** How a call ends: normally, or by an exception; the state reached is
    kept in both cases. *)
Inductive Outcome :=
  | Returned (w : World)
  | Raised (w : World).

Definition stateOf (o : Outcome) : World :=
  match o with Returned w | Raised w => w end.

Definition perform (a : Action) (w : World) : Outcome :=
  match a with
  | SetValue s v => Returned (SensorProperty_setValue s v w)
  | SetInfo s i => Returned (SensorProperty_setInfo s i w)
  | RemoveObject c o => Returned (SensorContainer_removeObject c o w)
  | Throw => Raised w
  end.

Fixpoint performAll (acts : list Action) (w : World) : Outcome :=
  match acts with
  | [] => Returned w
  | a :: rest =>
      match perform a w with
      | Returned w' => performAll rest w'
      | Raised w' => Raised w'
      end
  end.

(** [provider->update()]. *)
Definition SensorPlugin_update (provider : SensorPlugin) (w : World) : Outcome :=
  performAll (update provider) (set_callLog (λ l, l ++ [CallUpdate (providerName provider)]) w).

(** First loop of [Daemon::sendFrame]: there is no handler around the
    call, so an exception leaves the loop and the function. *)
Fixpoint updateProviders (providers : list SensorPlugin) (w : World) : Outcome :=
  match providers with
  | [] => Returned w
  | provider :: rest =>
      match SensorPlugin_update provider w with
      | Returned w' => updateProviders rest w'
      | Raised w' => Raised w'
      end
  end.

(** Second loop of [Daemon::sendFrame]. *)
Definition flushClients (w : World) : World :=
  foldl (λ w cn, Client_sendFrame cn w) w (map_to_list (m_clients w)).*1.

(** [Daemon::sendFrame] (daemon.cpp 230-239). *)
Definition Daemon_sendFrame (w : World) : Outcome :=
  match updateProviders (m_providers w) w with
  | Returned w' => Returned (flushClients w')
  | Raised w' => Raised w'
  end.

(** * Properties *)

(** ** A running example

    One plugin ["cpu"] with a container holding the object ["cpu0"] and its
    two sensors; [usage] has no value yet. *)
Module Example.

Definition usage : SensorProperty :=
  mkSensorProperty "cpu/cpu0/usage" Invalid (mkSensorInfo "Usage" "use" "" 1 0 100) 0.

Definition frequency : SensorProperty :=
  mkSensorProperty "cpu/cpu0/frequency" (VInt 800)
    (mkSensorInfo "Frequency" "freq" "" 2 0 5000) 0.

Definition cpu0 : SensorObject :=
  mkSensorObject "CPU 0" "cpu/cpu0" (<["usage" := 1%nat]> (<["frequency" := 2%nat]> ∅)).

Definition cpu : SensorContainer :=
  mkSensorContainer "cpu" "CPUs" (<["cpu0" := cpu0]> ∅).

Definition cpuPlugin : SensorPlugin :=
  mkSensorPlugin "cpu" [10%nat] [SetValue 1%nat (VInt 5); SetValue 2%nat (VInt 900)].

(** The stores before any plugin is registered. *)
Definition boot : World :=
  mkWorld [] ∅ ∅ (<[1%nat := usage]> (<[2%nat := frequency]> ∅)) (<[10%nat := cpu]> ∅)
    [] 0%nat [] [] [].

Definition registered : World := registerProvider cpuPlugin boot.

(** A peer [":1.7"] subscribed to both sensors. *)
Definition subscribed : World :=
  subscribe ":1.7" ["cpu/cpu0/usage"; "cpu/cpu0/frequency"] registered.

(** A second plugin, registered first, whose [update()] throws. *)
Definition brokenPlugin : SensorPlugin := mkSensorPlugin "broken" [] [Throw].

(** Both plugins registered, the peer subscribed, and a frequency change
    queued for it since the last frame. *)
Definition beforeTick : World :=
  SensorProperty_setValue 2%nat (VInt 850)
    (subscribe ":1.7" ["cpu/cpu0/usage"; "cpu/cpu0/frequency"]
       (registerProvider cpuPlugin (registerProvider brokenPlugin boot))).

(** The state of that peer's [Client]. *)
Definition peer : Client :=
  mkClient ":1.7"
    (<["cpu/cpu0/usage" := 1%nat]> (<["cpu/cpu0/frequency" := 2%nat]> ∅))
    (<[1%nat := mkConnections 0 1 2]> (<[2%nat := mkConnections 3 4 5]> ∅))
    [] ∅.

End Example.

(** A registry in which a sensor carries the id of its object: the fan
    sensor [lmsensors/fan1/fan1]. *)
Module ShortPath.

Definition fan : SensorProperty :=
  mkSensorProperty "lmsensors/fan1/fan1" (VInt 1200)
    (mkSensorInfo "Fan 1" "fan1" "" 3 0 5000) 0.

Definition fan1 : SensorObject :=
  mkSensorObject "Fan 1" "lmsensors/fan1" (<["fan1" := 1%nat]> ∅).

Definition lmsensors : SensorContainer :=
  mkSensorContainer "lmsensors" "Hardware Sensors" (<["fan1" := fan1]> ∅).

Definition plugin : SensorPlugin := mkSensorPlugin "lmsensors" [10%nat] [].

(** The plugin registered, and a peer [":1.7"] that has not subscribed to
    anything yet. *)
Definition registered : World :=
  subscribe ":1.7" []
    (registerProvider plugin
       (mkWorld [] ∅ ∅ (<[1%nat := fan]> ∅) (<[10%nat := lmsensors]> ∅) [] 0%nat [] [] [])).

End ShortPath.

(** ** Vocabulary of the statements *)

(** Number of slots of client [cn] connected to [sig] of [sensor]. *)
Definition listenerCount (sig : Signal) (sensor : SensorPtr) (cn : string) (w : World) : nat :=
  length (List.filter
            (λ k, listens sig sensor k && bool_decide (conn_receiver k = cn))
            (connections w)).

Definition validData (d : SensorData) : Prop := isValid (payload d) = true.

(** The value frames on the bus, in sending order. *)
Definition valueFrames (bus : list Message) : list (string * list SensorData) :=
  omap (λ m, match m with
             | NewSensorData service entries => Some (service, entries)
             | SensorMetaDataChanged _ _ => None
             end) bus.

(** The metadata frames on the bus, in sending order. *)
Definition metaDataFrames (bus : list Message) : list (string * gmap string SensorInfo) :=
  omap (λ m, match m with
             | SensorMetaDataChanged service infos => Some (service, infos)
             | NewSensorData _ _ => None
             end) bus.

Definition withValue (v : QVariant) (sp : SensorProperty) : SensorProperty :=
  mkSensorProperty (sp_path sp) v (sp_info sp) (sp_subscribers sp).

Definition withInfo (i : SensorInfo) (sp : SensorProperty) : SensorProperty :=
  mkSensorProperty (sp_path sp) (sp_value sp) i (sp_subscribers sp).

(** What the next flush of a client would put on the bus depends on its
    service name and its two accumulators only. *)
Definition flushView (c : Client) : string * list SensorData * gmap string SensorInfo :=
  (m_serviceName c, m_pendingUpdates c, m_pendingMetaDataChanges c).

(** The three table entries one successful subscription appends. *)
Definition newConnections (h : nat) (sensor : SensorPtr) (cn : string) : list Connection :=
  [mkConnection h sensor SigValueChanged cn;
   mkConnection (S h) sensor SigSensorInfoChanged cn;
   mkConnection (S (S h)) sensor SigDestroyed cn].

(** A three-segment address [container/object/property] misses the
    registry when the container id is not indexed, or the container has no
    object under the object id, or that object has no sensor under the
    property name. *)
Inductive Missing (w : World) (containerId objectId propertyName : string) : Prop :=
  | NoContainer :
      m_containers w !! containerId = None →
      Missing w containerId objectId propertyName
  | NoObject (cp : ContainerPtr) (c : SensorContainer) :
      m_containers w !! containerId = Some cp →
      containerHeap w !! cp = Some c →
      sc_objects c !! objectId = None →
      Missing w containerId objectId propertyName
  | NoProperty (cp : ContainerPtr) (c : SensorContainer) (o : SensorObject) :
      m_containers w !! containerId = Some cp →
      containerHeap w !! cp = Some c →
      sc_objects c !! objectId = Some o →
      so_sensors o !! propertyName = None →
      Missing w containerId objectId propertyName.

(** What [listeners] value listeners of one client queue when a property
    takes the value [v]: one update each, and nothing when [v] is invalid. *)
Definition queued (listeners : nat) (path : string) (v : QVariant) : list SensorData :=
  if isValid v then replicate listeners (mkSensorData path v) else [].

Fixpoint hasSlash (s : string) : bool :=
  match s with
  | EmptyString => false
  | String x rest => Ascii.eqb x slash || hasSlash rest
  end.

(** The canonical spelling of a sensor address. *)
Definition sensorPathOf (containerId objectId propertyName : string) : string :=
  containerId +:+ "/" +:+ objectId +:+ "/" +:+ propertyName.

(** Requests and events the daemon reacts to. *)
Inductive Request :=
  | Register (provider : SensorPlugin)
  | Subscribe (sender : string) (sensorIds : list string)
  | Unsubscribe (sender : string) (sensorIds : list string)
  | Disconnected (service : string)
  | PluginActs (a : Action)
  | Tick.

Definition handle (w : World) (r : Request) : World :=
  match r with
  | Register provider => registerProvider provider w
  | Subscribe sender sensorIds => subscribe sender sensorIds w
  | Unsubscribe sender sensorIds => unsubscribe sender sensorIds w
  | Disconnected service => onServiceDisconnected service w
  | PluginActs a => stateOf (perform a w)
  | Tick => stateOf (Daemon_sendFrame w)
  end.

(** The daemon started on given sensor and container stores. *)
Definition started (sensorStore : gmap SensorPtr SensorProperty)
    (containerStore : gmap ContainerPtr SensorContainer) : World :=
  mkWorld [] ∅ ∅ sensorStore containerStore [] 0%nat [] [] [].

Definition run (rs : list Request) (w : World) : World := foldl handle w rs.

Definition pendingValid (cs : gmap string Client) : Prop :=
  map_Forall (λ _ c, Forall validData (m_pendingUpdates c)) cs.

Definition busValid (bus : list Message) : Prop :=
  ∀ service entries, NewSensorData service entries ∈ bus → Forall validData entries.

(** Every queued and every sent value entry is valid. *)
Definition deliversValid (w : World) : Prop :=
  pendingValid (m_clients w) ∧ busValid (sessionBus w).

Definition keepsValid (f : Client → Client) : Prop :=
  ∀ c, Forall validData (m_pendingUpdates c) → Forall validData (m_pendingUpdates (f c)).

(** What plugin activity leaves alone: the provider list, the call log,
    the bus, and which clients exist. *)
Definition quiet (w w' : World) : Prop :=
  m_providers w' = m_providers w
  ∧ callLog w' = callLog w
  ∧ sessionBus w' = sessionBus w
  ∧ dom (m_clients w') = dom (m_clients w).

Definition updateCalls (providers : list SensorPlugin) : list Call :=
  (λ p, CallUpdate (providerName p)) <$> providers.

(** Where the keys of [allSensors] come from. *)
Inductive Listed (w : World) (k : string) : Prop :=
  | ListedContainer (cid : string) (cp : ContainerPtr) (c : SensorContainer) :
      m_containers w !! cid = Some cp →
      containerHeap w !! cp = Some c →
      k = sc_id c →
      Listed w k
  | ListedObject (cid : string) (cp : ContainerPtr) (c : SensorContainer)
      (oid : string) (obj : SensorObject) :
      m_containers w !! cid = Some cp →
      containerHeap w !! cp = Some c →
      sc_objects c !! oid = Some obj →
      k = so_path obj →
      Listed w k
  | ListedSensor (cid : string) (cp : ContainerPtr) (c : SensorContainer)
      (oid : string) (obj : SensorObject) (sid : string) (s : SensorPtr)
      (sp : SensorProperty) :
      m_containers w !! cid = Some cp →
      containerHeap w !! cp = Some c →
      sc_objects c !! oid = Some obj →
      so_sensors obj !! sid = Some s →
      sensorHeap w !! s = Some sp →
      k = sp_path sp →
      Listed w k.

(** The path invariant of the sensor tree: an indexed container is live
    and indexed under its id; an object's path is [container/object]; a
    sensor is live and its path is [container/object/name]; no id holds a
    slash. *)
Record RegistryWF (w : World) : Prop := mkRegistryWF {
  wf_container :
    ∀ cid cp, m_containers w !! cid = Some cp →
      hasSlash cid = false
      ∧ ∃ c, containerHeap w !! cp = Some c ∧ sc_id c = cid;
  wf_object :
    ∀ cid cp c oid obj,
      m_containers w !! cid = Some cp → containerHeap w !! cp = Some c →
      sc_objects c !! oid = Some obj →
      hasSlash oid = false ∧ so_path obj = cid +:+ "/" +:+ oid;
  wf_sensor :
    ∀ cid cp c oid obj sid s,
      m_containers w !! cid = Some cp → containerHeap w !! cp = Some c →
      sc_objects c !! oid = Some obj → so_sensors obj !! sid = Some s →
      hasSlash sid = false
      ∧ ∃ sp, sensorHeap w !! s = Some sp ∧ sp_path sp = sensorPathOf cid oid sid
}.

(** No client has [path] in its subscribed set. *)
Definition unsubscribedFrom (path : string) (w : World) : Prop :=
  map_Forall (λ _ cl, m_subscribedSensors cl !! path = None) (m_clients w).

(** Steps that leave the registry alone and at most release sensors. *)
Definition shrinks (w w' : World) : Prop :=
  m_containers w' = m_containers w
  ∧ containerHeap w' = containerHeap w
  ∧ sensorHeap w' ⊆ sensorHeap w.

(** ** Vocabulary of further statements *)

(** The metadata a path resolves to: that of the live sensor [findSensor]
    returns for it. *)
Definition infoAt (w : World) (path : string) : option SensorInfo :=
  match findSensor w path with
  | Some sensor => sp_info <$> sensorHeap w !! sensor
  | None => None
  end.

(** The entry a path contributes to a value query: the valid current
    value of the live sensor it resolves to, if any. *)
Definition currentValue (w : World) (path : string) : option SensorData :=
  match findSensor w path with
  | Some sensor =>
      match sensorHeap w !! sensor with
      | Some sp => if isValid (sp_value sp) then Some (mkSensorData path (sp_value sp)) else None
      | None => None
      end
  | None => None
  end.

(** The entries [allSensors] writes: a container under its id, an object
    under its path, both with only their name as metadata, and a live
    sensor under its path with its metadata. *)
Inductive ListedAs (w : World) (k : string) (v : SensorInfo) : Prop :=
  | ContainerEntry (cid : string) (cp : ContainerPtr) (c : SensorContainer) :
      m_containers w !! cid = Some cp →
      containerHeap w !! cp = Some c →
      k = sc_id c → v = namedInfo (sc_name c) →
      ListedAs w k v
  | ObjectEntry (cid : string) (cp : ContainerPtr) (c : SensorContainer)
      (oid : string) (obj : SensorObject) :
      m_containers w !! cid = Some cp →
      containerHeap w !! cp = Some c →
      sc_objects c !! oid = Some obj →
      k = so_path obj → v = namedInfo (so_name obj) →
      ListedAs w k v
  | SensorEntry (cid : string) (cp : ContainerPtr) (c : SensorContainer)
      (oid : string) (obj : SensorObject) (sid : string) (s : SensorPtr)
      (sp : SensorProperty) :
      m_containers w !! cid = Some cp →
      containerHeap w !! cp = Some c →
      sc_objects c !! oid = Some obj →
      so_sensors obj !! sid = Some s →
      sensorHeap w !! s = Some sp →
      k = sp_path sp → v = sp_info sp →
      ListedAs w k v.

(** Client [cn], if it exists, has nothing queued. *)
Definition drained (cn : string) (w : World) : Prop :=
  ∀ c, m_clients w !! cn = Some c →
       m_pendingUpdates c = [] ∧ m_pendingMetaDataChanges c = ∅.

(** A frame that carries something. *)
Definition nonEmptyFrame (m : Message) : Prop :=
  match m with
  | SensorMetaDataChanged _ infos => infos ≠ ∅
  | NewSensorData _ entries => entries ≠ []
  end.

(** Steps that add no provider, no connection and no message. *)
Definition settles (w w' : World) : Prop :=
  m_providers w' = m_providers w
  ∧ sessionBus w' = sessionBus w
  ∧ nextHandle w' = nextHandle w
  ∧ connections w' `sublist_of` connections w.

(** Provider names are pairwise distinct; connection handles are pairwise
    distinct and older than the next handle; no frame on the bus is
    empty. *)
Definition wellKept (w : World) : Prop :=
  NoDup (providerName <$> m_providers w)
  ∧ NoDup (conn_handle <$> connections w)
  ∧ Forall (λ k, (conn_handle k < nextHandle w)%nat) (connections w)
  ∧ Forall nonEmptyFrame (sessionBus w).

(** Client [cn], if it exists, stores no connection handles for
    [sensor]. *)
Definition forgets (sensor : SensorPtr) (cn : string) (w : World) : Prop :=
  ∀ cl, m_clients w !! cn = Some cl → m_connections cl !! sensor = None.

(** [sensor] is released: it is out of the store and no connection of the
    table has it as sender. *)
Definition released (sensor : SensorPtr) (w : World) : Prop :=
  sensorHeap w !! sensor = None
  ∧ Forall (λ k, conn_sender k ≠ sensor) (connections w).

(** ** CPU usage from tick counters (plugins/cpu/usagecomputer.cpp) *)
Module UsageComputer.

(** Arithmetic on [unsigned long long] wraps modulo 2^64. *)
Definition u64 (z : Z) : Z := z mod 2 ^ 64.

(** A usage figure: [0.0], or the double [100.0 * tickDiff / totalDiff],
    which is kept as its two integer operands. *)
Inductive Usage :=
  | Zero
  | Percent (tickDiff totalDiff : Z).

Record State := mkState {
  totalUsage : Usage;
  systemUsage : Usage;
  userUsage : Usage;
  waitUsage : Usage;
  m_totalTicks : Z;
  m_systemTicks : Z;
  m_userTicks : Z;
  m_waitTicks : Z
}.

(** The lambda [percentage], which captures [totalDiff]. *)
Definition percentage (totalDiff tickDiff : Z) : Usage :=
  if (0 <? tickDiff) && (0 <? totalDiff) then Percent tickDiff totalDiff else Zero.

(** [system + user + wait + idle], each addition wrapping. *)
Definition totalOf (system user wait idle : Z) : Z :=
  u64 (u64 (u64 (system + user) + wait) + idle).

(** [UsageComputer::setTicks]; [std::max] of two [unsigned long long]. *)
Definition setTicks (system user wait idle : Z) (st : State) : State :=
  let systemDiff := Z.max (u64 (system - m_systemTicks st)) 0 in
  let userDiff := Z.max (u64 (user - m_userTicks st)) 0 in
  let waitDiff := Z.max (u64 (wait - m_waitTicks st)) 0 in
  let totalTicks := totalOf system user wait idle in
  let totalDiff := Z.max (u64 (totalTicks - m_totalTicks st)) 0 in
  mkState
    (percentage totalDiff (u64 (u64 (systemDiff + userDiff) + waitDiff)))
    (percentage totalDiff systemDiff)
    (percentage totalDiff userDiff)
    (percentage totalDiff waitDiff)
    totalTicks system user wait.

(** The integer operands of a figure that is not zero: the tick difference
    is positive and at most the difference of the totals. *)
Definition withinTotal (u : Usage) : Prop :=
  match u with
  | Zero => True
  | Percent tickDiff totalDiff => 0 < tickDiff ≤ totalDiff
  end.

End UsageComputer.

(** ** Intel GPU counters (plugins/gpu/LinuxIntelGpu.cpp) *)
Module LinuxIntelGpu.

(** [quint64] arithmetic wraps modulo 2^64. *)
Definition u64 (z : Z) : Z := z mod 2 ^ 64.

(** [QString::split(sep)] for a one-character separator, keeping empty
    parts: a string without separator gives one part. *)
Fixpoint split_from (sep : ascii) (s : string) (current : string) : list string :=
  match s with
  | EmptyString => [current]
  | String a rest =>
      if Ascii.eqb a sep then current :: split_from sep rest ""
      else split_from sep rest (current +:+ String a "")
  end.

Definition split (sep : ascii) (s : string) : list string := split_from sep s "".

Definition bar : ascii := "|"%char.

(** The members [lastTimeStamp], [lastUsages] and [lastFrequencyCount]. *)
Record State := mkState {
  lastTimeStamp : Z;
  lastUsages : Z;
  lastFrequencyCount : Z
}.

(** What a line makes the device publish: the core frequency, the double
    [(frequencyCount - lastFrequencyCount) / (timediff / 1e9)] kept as its
    integer operands, and the usage, an integer. *)
Inductive Published :=
  | CoreFrequency (countDiff timediff : Z)
  | Usage (percent : Z).

Definition isEngine (label : string) : bool :=
  String.eqb label "Render" || String.eqb label "Copy"
  || String.eqb label "Video" || String.eqb label "Enhance".

(** The [for] loop over the label/value pairs [parts[i]], [parts[i + 1]];
    it carries [usage], [lastFrequencyCount] and what was published.
    [toULong] is [QString::toULong]. *)
Fixpoint scan (toULong : string → Z) (timediff : Z) (fields : list string)
    (usage lastFrequency : Z) (out : list Published) : Z * Z * list Published :=
  match fields with
  | label :: value :: rest =>
      if String.eqb label "Frequency" then
        let frequencyCount := u64 (toULong value) in
        scan toULong timediff rest usage frequencyCount
          (out ++ [CoreFrequency (u64 (frequencyCount - lastFrequency)) timediff])
      else if isEngine label then
        scan toULong timediff rest (u64 (usage + u64 (toULong value))) lastFrequency out
      else scan toULong timediff rest usage lastFrequency out
  | _ => (usage, lastFrequency, out)
  end.

(** Body of the [while] loop of [readPerfData] for one line.  [None]
    stands for the integer division by a zero [timediff], which C++ leaves
    undefined. *)
Definition readLine (toULong : string → Z) (line : string) (st : State)
    : option (State * list Published) :=
  let parts := split bar line in
  let size := Z.of_nat (length parts) in
  if (size <=? 1) || (size mod 2 =? 0) then Some (st, [])
  else
    match parts with
    | first :: fields =>
        let timestamp := u64 (toULong first) in
        let timediff := u64 (timestamp - lastTimeStamp st) in
        let '(usage, frequency, out) :=
          scan toULong timediff fields 0 (lastFrequencyCount st) [] in
        if timediff =? 0 then None
        else
          Some (mkState timestamp usage frequency,
                out ++ [Usage (u64 (u64 (usage - lastUsages st) * 100) / timediff)])
    | [] => Some (st, [])
    end.

(** [readPerfData] over the lines the helper has written. *)
Fixpoint readPerfData (toULong : string → Z) (lines : list string) (st : State)
    : option (State * list Published) :=
  match lines with
  | [] => Some (st, [])
  | line :: rest =>
      match readLine toULong line st with
      | Some (st', out) =>
          match readPerfData toULong rest st' with
          | Some (st'', out') => Some (st'', out ++ out')
          | None => None
          end
      | None => None
      end
  end.

(** Sum of the values given for the four engines. *)
Fixpoint engineTotal (toULong : string → Z) (fields : list string) : Z :=
  match fields with
  | label :: value :: rest =>
      (if isEngine label then u64 (toULong value) else 0) + engineTotal toULong rest
  | _ => 0
  end.

(** Number of separators in a line. *)
Fixpoint bars (s : string) : nat :=
  match s with
  | EmptyString => 0
  | String a rest => (if Ascii.eqb a bar then 1 else 0) + bars rest
  end.

End LinuxIntelGpu.

Definition isCoreFrequency (p : LinuxIntelGpu.Published) : Prop :=
  match p with LinuxIntelGpu.CoreFrequency _ _ => True | LinuxIntelGpu.Usage _ => False end.

(** ** [VolumeObject::setBytes] of the disks plugin *)

Module VolumeObject.

(** [quint64] arithmetic wraps modulo 2^64. *)
Definition u64 (z : Z) : Z := z mod 2 ^ 64.

(** The members [m_bytesRead] and [m_bytesWritten]. *)
Record State := mkState {
  m_bytesRead : Z;
  m_bytesWritten : Z
}.

(** What a call publishes on [m_readRate] and [m_writeRate]: the double
    [(read - m_bytesRead) / (elapsed / 1000.0)] kept as its integer
    operands. *)
Inductive Published :=
  | ReadRate (byteDiff elapsed : Z)
  | WriteRate (byteDiff elapsed : Z).



(** Bytes accounted for by the published read rates. *)
Fixpoint bytesReadPublished (out : list Published) : Z :=
  match out with
  | [] => 0
  | ReadRate byteDiff _ :: rest => byteDiff + bytesReadPublished rest
  | WriteRate _ _ :: rest => bytesReadPublished rest
  end.


End VolumeObject.

(** ** Registration *)

Lemma alreadyHasProvider_spec (w : World) (provider : SensorPlugin) :
  alreadyHasProvider w provider = true ↔
  ∃ provider2, provider2 ∈ m_providers w ∧ providerName provider2 = providerName provider.
Proof.
  unfold alreadyHasProvider. rewrite existsb_exists. split.
  - intros (p2 & Hin & Heq). exists p2. split.
    + by apply list_elem_of_In.
    + by apply String.eqb_eq.
  - intros (p2 & Hin & Heq). exists p2. split.
    + by apply list_elem_of_In.
    + by apply String.eqb_eq.
Qed.

(** C5. Registering a provider whose name equals that of a provider already
    in [m_providers] returns without any effect: the whole daemon state, in
    particular the provider list and the container index, is as before. *)
Theorem registerProvider_duplicate_rejected (w : World) (provider provider2 : SensorPlugin) :
  provider2 ∈ m_providers w →
  providerName provider2 = providerName provider →
  registerProvider provider w = w
  ∧ m_providers (registerProvider provider w) = m_providers w
  ∧ m_containers (registerProvider provider w) = m_containers w.
Proof.
  intros Hin Hname.
  assert (Hdup : alreadyHasProvider w provider = true).
  { apply alreadyHasProvider_spec. eauto. }
  unfold registerProvider. rewrite Hdup. done.
Qed.

Lemma registerProvider_duplicate_rejected_witness :
  let again := mkSensorPlugin "cpu" [11%nat] [] in
  registerProvider again Example.registered = Example.registered
  ∧ m_providers (registerProvider again Example.registered) = [Example.cpuPlugin]
  ∧ m_containers (registerProvider again Example.registered) = {["cpu" := 10%nat]}.
Proof.
  intros again.
  destruct (registerProvider_duplicate_rejected Example.registered again Example.cpuPlugin)
    as (H1 & H2 & H3).
  - vm_compute. left.
  - reflexivity.
  - split; [exact H1 |]. split.
    + rewrite H2. reflexivity.
    + rewrite H3. vm_compute. reflexivity.
Defined.

(** A fresh name is accepted: the provider is appended. *)
Lemma registerProvider_fresh (w : World) (provider : SensorPlugin) :
  alreadyHasProvider w provider = false →
  m_providers (registerProvider provider w) = m_providers w ++ [provider].
Proof.
  intros Hfresh. unfold registerProvider. rewrite Hfresh.
  generalize (containers provider). intros cs.
  set (w1 := set_providers _ w).
  change (m_providers w ++ [provider]) with (m_providers w1).
  generalize w1. clear. induction cs as [| c cs IH]; intros w1; simpl; [done |].
  rewrite IH. unfold registerContainer. by destruct (containerHeap w1 !! c).
Qed.

(** ** Flushing *)

(** C6. A client whose pending value delta and pending metadata delta are
    both empty when it flushes sends nothing: the session bus is unchanged,
    so neither an empty value message nor an empty metadata message is
    emitted. *)
Theorem sendFrame_empty_sends_nothing (w : World) (cn : string) (c : Client) :
  m_clients w !! cn = Some c →
  m_pendingUpdates c = [] →
  m_pendingMetaDataChanges c = ∅ →
  sessionBus (Client_sendFrame cn w) = sessionBus w.
Proof.
  intros Hc Hv Hm. unfold Client_sendFrame. rewrite Hc, Hv, Hm.
  unfold sendMetaDataChanged, sendValues. by rewrite decide_True.
Qed.

Lemma sendFrame_empty_sends_nothing_witness :
  m_clients Example.subscribed !! ":1.7" = Some Example.peer
  ∧ sessionBus (Client_sendFrame ":1.7" Example.subscribed) = [].
Proof.
  assert (Hc : m_clients Example.subscribed !! ":1.7" = Some Example.peer)
    by (vm_compute; reflexivity).
  split; [exact Hc |].
  rewrite (sendFrame_empty_sends_nothing _ _ _ Hc); reflexivity.
Defined.

(** ** Signal emission *)

Lemma iter_shift {A : Type} (f : A → A) (n : nat) (x : A) :
  Nat.iter n f (f x) = f (Nat.iter n f x).
Proof. induction n as [| n IH]; simpl; [done | by rewrite IH]. Qed.

Lemma foldl_invoke_lookup (sig : Signal) (sensor : SensorPtr) (sp : SensorProperty)
    (p : Connection → bool) (cn : string) (l : list Connection) (cs : gmap string Client) :
  foldl (invoke sig sensor sp) cs (List.filter p l) !! cn
  = Nat.iter (length (List.filter (λ k, p k && bool_decide (conn_receiver k = cn)) l))
      (slot sig sensor sp) <$> cs !! cn.
Proof.
  revert cs. induction l as [| k l IH]; intros cs; simpl.
  - by destruct (cs !! cn).
  - destruct (p k); simpl; [| apply IH].
    rewrite IH. unfold invoke at 1. rewrite lookup_alter.
    case_bool_decide as Hr; case_decide as Hd; try congruence; simpl.
    rewrite Hr. destruct (cs !! cn); simpl; [| done]. by rewrite iter_shift.
Qed.

(** What an emission does to one client: its slot runs once per
    connection it holds on that signal of that sensor. *)
Lemma emit_client (sig : Signal) (sensor : SensorPtr) (sp : SensorProperty)
    (cn : string) (w : World) :
  sensorHeap w !! sensor = Some sp →
  m_clients (emit sig sensor w) !! cn
  = Nat.iter (listenerCount sig sensor cn w) (slot sig sensor sp) <$> m_clients w !! cn.
Proof.
  intros Hs. unfold emit. rewrite Hs. simpl. apply foldl_invoke_lookup.
Qed.

Lemma emit_dangling (sig : Signal) (sensor : SensorPtr) (w : World) :
  sensorHeap w !! sensor = None → emit sig sensor w = w.
Proof. intros Hs. unfold emit. by rewrite Hs. Qed.

(** Emission changes clients only. *)
Lemma emit_frame (sig : Signal) (sensor : SensorPtr) (w : World) :
  m_providers (emit sig sensor w) = m_providers w
  ∧ m_containers (emit sig sensor w) = m_containers w
  ∧ sensorHeap (emit sig sensor w) = sensorHeap w
  ∧ containerHeap (emit sig sensor w) = containerHeap w
  ∧ connections (emit sig sensor w) = connections w
  ∧ nextHandle (emit sig sensor w) = nextHandle w
  ∧ containerSlots (emit sig sensor w) = containerSlots w
  ∧ sessionBus (emit sig sensor w) = sessionBus w
  ∧ callLog (emit sig sensor w) = callLog w.
Proof. unfold emit. by destruct (sensorHeap w !! sensor). Qed.

(** ** Invalid values *)

(** The value-changed listener queues nothing for an invalid value. *)
Lemma onValueChanged_invalid (sp : SensorProperty) (c : Client) :
  isValid (sp_value sp) = false → onValueChanged sp c = c.
Proof. intros H. unfold onValueChanged. by rewrite H. Qed.

Lemma onValueChanged_valid (sp : SensorProperty) (c : Client) :
  isValid (sp_value sp) = true →
  m_pendingUpdates (onValueChanged sp c)
  = m_pendingUpdates c ++ [mkSensorData (sp_path sp) (sp_value sp)].
Proof. intros H. unfold onValueChanged. by rewrite H. Qed.

Lemma iter_id {A : Type} (f : A → A) (n : nat) (x : A) :
  f x = x → Nat.iter n f x = x.
Proof. intros H. induction n as [| n IH]; simpl; [done | by rewrite IH]. Qed.

(** A value-changed event of a sensor whose current value is invalid
    leaves the daemon, hence every pending delta, as it was. *)
Lemma emit_valueChanged_invalid (sensor : SensorPtr) (sp : SensorProperty) (w : World) :
  sensorHeap w !! sensor = Some sp →
  isValid (sp_value sp) = false →
  emit SigValueChanged sensor w = w.
Proof.
  intros Hs Hv.
  assert (Hcl : m_clients (emit SigValueChanged sensor w) = m_clients w).
  { apply map_eq. intros cn. rewrite (emit_client _ _ sp) by done.
    destruct (m_clients w !! cn) as [c |]; simpl; [| done].
    f_equal. apply iter_id. simpl. by apply onValueChanged_invalid. }
  destruct (emit_frame SigValueChanged sensor w) as (?&?&?&?&?&?&?&?&?).
  destruct w, (emit SigValueChanged sensor _). simpl in *. congruence.
Qed.

(** Every entry of [sensorData] comes from a requested path that resolves
    to a live sensor and carries that sensor's current, valid value. *)
Lemma sensorData_sound (w : World) (sensorIds : list string) (d : SensorData) :
  d ∈ sensorData w sensorIds →
  sensorProperty d ∈ sensorIds
  ∧ ∃ sensor sp,
      findSensor w (sensorProperty d) = Some sensor
      ∧ sensorHeap w !! sensor = Some sp
      ∧ payload d = sp_value sp
      ∧ validData d.
Proof.
  unfold sensorData.
  assert (Hgen : ∀ acc,
    d ∈ foldl (sensorDataStep w) acc sensorIds →
    d ∈ acc ∨
    (sensorProperty d ∈ sensorIds
     ∧ ∃ sensor sp,
         findSensor w (sensorProperty d) = Some sensor
         ∧ sensorHeap w !! sensor = Some sp
         ∧ payload d = sp_value sp
         ∧ validData d)).
  { induction sensorIds as [| p ps IH]; intros acc Hin; simpl in *; [by left |].
    apply IH in Hin as [Hin | (Hp & Hrest)].
    - unfold sensorDataStep in Hin.
      destruct (findSensor w p) as [s |] eqn:Hf; [| by left].
      destruct (sensorHeap w !! s) as [sp |] eqn:Hs; [| by left].
      destruct (isValid (sp_value sp)) eqn:Hv; [| by left].
      apply elem_of_app in Hin as [Hin | Hin]; [by left |].
      apply list_elem_of_singleton in Hin as ->. right. simpl. split; [left |].
      exists s, sp. by rewrite Hf, Hs.
    - right. split; [by right | done]. }
  intros Hin. apply Hgen in Hin as [Hin | Hin]; [| done].
  by apply elem_of_nil in Hin.
Qed.

(** ** Value changes and the flushed value delta *)

(** A flush adds at most one value frame: the pending list, if not empty. *)
Lemma sendFrame_valueFrames (w : World) (cn : string) (c : Client) :
  m_clients w !! cn = Some c →
  valueFrames (sessionBus (Client_sendFrame cn w))
  = valueFrames (sessionBus w)
    ++ match m_pendingUpdates c with
       | [] => []
       | _ => [(m_serviceName c, m_pendingUpdates c)]
       end.
Proof.
  intros Hc. unfold Client_sendFrame. rewrite Hc.
  unfold sendMetaDataChanged, sendValues, send.
  destruct (decide (m_pendingMetaDataChanges c = ∅));
    destruct (m_pendingUpdates c); simpl; unfold valueFrames;
    rewrite ?omap_app; simpl; by rewrite ?app_nil_r.
Qed.

(** A flush adds at most one metadata frame: the pending map, if not empty. *)
Lemma sendFrame_metaDataFrames (w : World) (cn : string) (c : Client) :
  m_clients w !! cn = Some c →
  metaDataFrames (sessionBus (Client_sendFrame cn w))
  = metaDataFrames (sessionBus w)
    ++ (if decide (m_pendingMetaDataChanges c = ∅) then []
        else [(m_serviceName c, m_pendingMetaDataChanges c)]).
Proof.
  intros Hc. unfold Client_sendFrame. rewrite Hc.
  unfold sendMetaDataChanged, sendValues, send.
  destruct (decide (m_pendingMetaDataChanges c = ∅));
    destruct (m_pendingUpdates c); simpl; unfold metaDataFrames;
    rewrite ?omap_app; simpl; by rewrite ?app_nil_r.
Qed.

(** After a flush both accumulators of the client are empty. *)
Lemma sendFrame_clears (w : World) (cn : string) (c : Client) :
  m_clients w !! cn = Some c →
  ∃ c', m_clients (Client_sendFrame cn w) !! cn = Some c'
        ∧ m_pendingUpdates c' = []
        ∧ m_pendingMetaDataChanges c' = ∅.
Proof.
  intros Hc. unfold Client_sendFrame. rewrite Hc.
  exists (clearPending c). split; [| done].
  unfold sendMetaDataChanged, sendValues, send.
  destruct (decide (m_pendingMetaDataChanges c = ∅));
    destruct (m_pendingUpdates c); simpl; by rewrite lookup_alter_eq, Hc.
Qed.

(** With a valid current value, [k] runs of the value listener queue [k]
    copies of the update. *)
Lemma iter_onValueChanged_pending (sp : SensorProperty) (c : Client) (k : nat) :
  isValid (sp_value sp) = true →
  m_pendingUpdates (Nat.iter k (onValueChanged sp) c)
  = m_pendingUpdates c ++ replicate k (mkSensorData (sp_path sp) (sp_value sp)).
Proof.
  intros Hv. induction k as [| k IH]; simpl; [by rewrite app_nil_r |].
  rewrite onValueChanged_valid by done. rewrite IH, <- app_assoc.
  f_equal. symmetry. apply (replicate_S_end k).
Qed.

(** [setValue] with a new value: the client's value listener runs once
    per connection, on the sensor carrying the new value. *)
Lemma setValue_client (w : World) (sensor : SensorPtr) (sp : SensorProperty)
    (v : QVariant) (cn : string) :
  sensorHeap w !! sensor = Some sp →
  sp_value sp ≠ v →
  m_clients (SensorProperty_setValue sensor v w) !! cn
  = Nat.iter (listenerCount SigValueChanged sensor cn w) (onValueChanged (withValue v sp))
      <$> m_clients w !! cn.
Proof.
  intros Hs Hv. unfold SensorProperty_setValue. rewrite Hs, decide_False by done.
  rewrite (emit_client _ _ (withValue v sp)); [done |].
  simpl. by rewrite lookup_insert_eq.
Qed.

Lemma setValue_frame (w : World) (sensor : SensorPtr) (v : QVariant) :
  connections (SensorProperty_setValue sensor v w) = connections w
  ∧ sessionBus (SensorProperty_setValue sensor v w) = sessionBus w
  ∧ m_containers (SensorProperty_setValue sensor v w) = m_containers w
  ∧ containerHeap (SensorProperty_setValue sensor v w) = containerHeap w.
Proof.
  unfold SensorProperty_setValue.
  destruct (sensorHeap w !! sensor) as [sp |]; [| done].
  destruct (decide (sp_value sp = v)); [done |].
  match goal with |- context [emit ?sig ?s ?w'] =>
    destruct (emit_frame sig s w') as (?&?&?&?&?&?&?&?&?) end.
  simpl in *. repeat split; congruence.
Qed.

Lemma setValue_heap (w : World) (sensor : SensorPtr) (sp : SensorProperty) (v : QVariant) :
  sensorHeap w !! sensor = Some sp →
  sp_value sp ≠ v →
  sensorHeap (SensorProperty_setValue sensor v w) = <[sensor := withValue v sp]> (sensorHeap w).
Proof.
  intros Hs Hv. unfold SensorProperty_setValue. rewrite Hs, decide_False by done.
  match goal with |- context [emit ?sig ?s ?w'] =>
    destruct (emit_frame sig s w') as (?&?&->&?) end.
  done.
Qed.

Lemma listenerCount_setValue (sig : Signal) (s sensor : SensorPtr) (cn : string)
    (v : QVariant) (w : World) :
  listenerCount sig s cn (SensorProperty_setValue sensor v w) = listenerCount sig s cn w.
Proof.
  unfold listenerCount. by destruct (setValue_frame w sensor v) as (-> & _).
Qed.

Lemma iter_onValueChanged_queued (sp : SensorProperty) (c : Client) (k : nat) :
  m_pendingUpdates (Nat.iter k (onValueChanged sp) c)
  = m_pendingUpdates c ++ queued k (sp_path sp) (sp_value sp).
Proof.
  unfold queued. destruct (isValid (sp_value sp)) eqn:Hv.
  - by apply iter_onValueChanged_pending.
  - rewrite iter_id by (by apply onValueChanged_invalid). by rewrite app_nil_r.
Qed.

Lemma iter_onValueChanged_serviceName (sp : SensorProperty) (c : Client) (k : nat) :
  m_serviceName (Nat.iter k (onValueChanged sp) c) = m_serviceName c.
Proof.
  induction k as [| k IH]; simpl; [done |].
  unfold onValueChanged at 1. by destruct (negb _).
Qed.

(** A flush touches the bus, the call log and the client's accumulators
    only. *)
Lemma sendFrame_stores (cn : string) (w : World) (c : Client) :
  m_clients w !! cn = Some c →
  m_clients (Client_sendFrame cn w) !! cn = Some (clearPending c)
  ∧ sensorHeap (Client_sendFrame cn w) = sensorHeap w
  ∧ connections (Client_sendFrame cn w) = connections w.
Proof.
  intros Hc. unfold Client_sendFrame. rewrite Hc.
  unfold sendMetaDataChanged, sendValues, send.
  destruct (decide (m_pendingMetaDataChanges c = ∅));
    destruct (m_pendingUpdates c); simpl; by rewrite lookup_alter_eq, Hc.
Qed.

(** C7. Between two consecutive flushes of a client, property [sA] and
    then property [sB] take a new value.  The second flush adds at most one
    value frame, which holds what the client's listeners queued in between
    and nothing older: one update of [sA] per value listener the client has
    on it, followed by one update of [sB] per value listener on [sB], where
    a property whose new value is invalid contributes nothing.  So with one
    listener on each and valid values the frame is exactly the update of
    [sA] followed by the update of [sB]. *)
Theorem two_changes_one_ordered_delta
    (w : World) (cn : string) (c : Client) (sA sB : SensorPtr)
    (spA spB : SensorProperty) (vA vB : QVariant) :
  m_clients w !! cn = Some c →
  sA ≠ sB →
  sensorHeap w !! sA = Some spA →
  sensorHeap w !! sB = Some spB →
  sp_value spA ≠ vA →
  sp_value spB ≠ vB →
  let flushed := Client_sendFrame cn w in
  let listenersA := listenerCount SigValueChanged sA cn w in
  let listenersB := listenerCount SigValueChanged sB cn w in
  let delta := queued listenersA (sp_path spA) vA ++ queued listenersB (sp_path spB) vB in
  valueFrames (sessionBus
    (Client_sendFrame cn
       (SensorProperty_setValue sB vB (SensorProperty_setValue sA vA flushed))))
  = valueFrames (sessionBus flushed)
    ++ match delta with
       | [] => []
       | _ => [(m_serviceName c, delta)]
       end
  ∧ (listenersA = 1%nat → listenersB = 1%nat →
     isValid vA = true → isValid vB = true →
     delta = [mkSensorData (sp_path spA) vA; mkSensorData (sp_path spB) vB]).
Proof.
  intros Hc Hne HA HB HvA HvB flushed listenersA listenersB delta.
  split.
  - destruct (sendFrame_stores cn w c Hc) as (Hc0 & Hheap & Hconn).
    fold flushed in Hc0, Hheap, Hconn.
    assert (HlA : listenerCount SigValueChanged sA cn flushed = listenersA)
      by (unfold listenerCount, listenersA; by rewrite Hconn).
    assert (HlB : listenerCount SigValueChanged sB cn flushed = listenersB)
      by (unfold listenerCount, listenersB; by rewrite Hconn).
    rewrite <- Hheap in HA, HB.
    set (w1 := SensorProperty_setValue sA vA flushed).
    set (c1 := Nat.iter listenersA (onValueChanged (withValue vA spA)) (clearPending c)).
    assert (Hc1 : m_clients w1 !! cn = Some c1).
    { unfold w1. rewrite (setValue_client _ _ spA) by done. by rewrite HlA, Hc0. }
    assert (HB1 : sensorHeap w1 !! sB = Some spB).
    { unfold w1. rewrite (setValue_heap _ _ spA) by done. by rewrite lookup_insert_ne. }
    assert (HlB1 : listenerCount SigValueChanged sB cn w1 = listenersB).
    { unfold w1. by rewrite listenerCount_setValue. }
    set (w2 := SensorProperty_setValue sB vB w1).
    set (c2 := Nat.iter listenersB (onValueChanged (withValue vB spB)) c1).
    assert (Hc2 : m_clients w2 !! cn = Some c2).
    { unfold w2. rewrite (setValue_client _ _ spB) by done. by rewrite HlB1, Hc1. }
    rewrite (sendFrame_valueFrames _ _ _ Hc2).
    unfold w2, w1.
    destruct (setValue_frame (SensorProperty_setValue sA vA flushed) sB vB) as (_ & -> & _).
    destruct (setValue_frame flushed sA vA) as (_ & -> & _).
    assert (Hp : m_pendingUpdates c2 = delta).
    { unfold c2, c1. by rewrite !iter_onValueChanged_queued. }
    assert (Hn : m_serviceName c2 = m_serviceName c).
    { unfold c2, c1. by rewrite !iter_onValueChanged_serviceName. }
    by rewrite Hp, Hn.
  - intros HlA HlB HokA HokB. unfold delta, queued.
    by rewrite HlA, HlB, HokA, HokB.
Qed.

Lemma two_changes_one_ordered_delta_witness :
  let queuedBefore := SensorProperty_setValue 2%nat (VInt 850) Example.subscribed in
  let flushed := Client_sendFrame ":1.7" queuedBefore in
  valueFrames (sessionBus flushed)
  = [(":1.7", [mkSensorData "cpu/cpu0/frequency" (VInt 850)])]
  ∧ valueFrames (sessionBus
      (Client_sendFrame ":1.7"
         (SensorProperty_setValue 2%nat (VInt 900)
            (SensorProperty_setValue 1%nat (VInt 5) flushed))))
    = [(":1.7", [mkSensorData "cpu/cpu0/frequency" (VInt 850)]);
       (":1.7", [mkSensorData "cpu/cpu0/usage" (VInt 5);
                 mkSensorData "cpu/cpu0/frequency" (VInt 900)])].
Proof.
  intros queuedBefore flushed.
  assert (Hc : ∃ c, m_clients queuedBefore !! ":1.7" = Some c ∧ m_serviceName c = ":1.7").
  { eexists. split; [vm_compute; reflexivity | reflexivity]. }
  destruct Hc as (c & Hc & Hname).
  assert (Hfirst : valueFrames (sessionBus flushed)
                   = [(":1.7", [mkSensorData "cpu/cpu0/frequency" (VInt 850)])])
    by (vm_compute; reflexivity).
  split; [exact Hfirst |].
  destruct (two_changes_one_ordered_delta queuedBefore ":1.7" c 1%nat 2%nat
              (mkSensorProperty "cpu/cpu0/usage" Invalid (sp_info Example.usage) 1)
              (mkSensorProperty "cpu/cpu0/frequency" (VInt 850) (sp_info Example.frequency) 1)
              (VInt 5) (VInt 900))
    as (Hframes & Hdelta).
  - exact Hc.
  - lia.
  - vm_compute. reflexivity.
  - vm_compute. reflexivity.
  - discriminate.
  - simpl. discriminate.
  - fold flushed in Hframes. rewrite Hframes, Hfirst, Hname.
    rewrite Hdelta by reflexivity. reflexivity.
Defined.

(** C7 (as stated) fails.  A peer that has subscribed to
    [cpu/cpu0/usage] twice gets two updates for it in the flushed frame; and
    when [cpu/cpu0/frequency] changes to an invalid value, the frame of a
    peer subscribed once to both paths holds no update for it. *)
Lemma one_update_each_counterexample :
  let twice := subscribe ":1.7" ["cpu/cpu0/usage"] Example.subscribed in
  let usage := mkSensorData "cpu/cpu0/usage" (VInt 5) in
  let frequency := mkSensorData "cpu/cpu0/frequency" (VInt 900) in
  (m_subscribedSensors <$> m_clients twice !! ":1.7")
  = Some (<["cpu/cpu0/usage" := 1%nat]> {["cpu/cpu0/frequency" := 2%nat]})
  ∧ sessionBus
      (Client_sendFrame ":1.7"
         (SensorProperty_setValue 2%nat (VInt 900)
            (SensorProperty_setValue 1%nat (VInt 5) twice)))
    = [NewSensorData ":1.7" [usage; usage; frequency]]
  ∧ sessionBus
      (Client_sendFrame ":1.7"
         (SensorProperty_setValue 2%nat Invalid
            (SensorProperty_setValue 1%nat (VInt 5) Example.subscribed)))
    = [NewSensorData ":1.7" [usage]]
  ∧ [usage; usage; frequency] ≠ [usage; frequency]
  ∧ [usage] ≠ [usage; frequency].
Proof.
  intros twice usage frequency.
  split; [vm_compute; reflexivity |].
  split; [vm_compute; reflexivity |].
  split; [vm_compute; reflexivity |].
  split; discriminate.
Qed.

(** ** Subscribing and unsubscribing *)

Lemma sendFrame_bus_view (w w' : World) (cn : string) :
  flushView <$> m_clients w' !! cn = flushView <$> m_clients w !! cn →
  sessionBus w' = sessionBus w →
  sessionBus (Client_sendFrame cn w') = sessionBus (Client_sendFrame cn w).
Proof.
  intros Hview Hbus. unfold Client_sendFrame.
  destruct (m_clients w' !! cn) as [c' |], (m_clients w !! cn) as [c |];
    simpl in Hview; try discriminate; [| done].
  injection Hview as Hn Hu Hm. rewrite Hn, Hu, Hm.
  unfold sendMetaDataChanged, sendValues, send.
  destruct (decide (m_pendingMetaDataChanges c = ∅));
    destruct (m_pendingUpdates c); simpl; by rewrite Hbus.
Qed.

Lemma alter_view (f : Client → Client) (cn cn' : string) (cs : gmap string Client) :
  (∀ c, flushView (f c) = flushView c) →
  flushView <$> alter f cn cs !! cn' = flushView <$> cs !! cn'.
Proof.
  intros Hf. rewrite lookup_alter. case_decide; [subst cn' | done].
  destruct (cs !! cn) as [c |]; [| done].
  change (Some (flushView (f c)) = Some (flushView c)). by rewrite Hf.
Qed.

Lemma disconnect_frame (h : nat) (w : World) :
  m_clients (disconnect h w) = m_clients w
  ∧ sessionBus (disconnect h w) = sessionBus w
  ∧ sensorHeap (disconnect h w) = sensorHeap w.
Proof. done. Qed.

(** Unsubscribing one path touches neither accumulator of any client, nor
    the bus. *)
Lemma unsubscribeSensor_view (cn : string) (w : World) (sensorPath : string) (cn' : string) :
  flushView <$> m_clients (unsubscribeSensor cn w sensorPath) !! cn'
  = flushView <$> m_clients w !! cn'
  ∧ sessionBus (unsubscribeSensor cn w sensorPath) = sessionBus w.
Proof.
  unfold unsubscribeSensor.
  destruct (m_clients w !! cn) as [c |] eqn:Hc; [| done].
  destruct (m_subscribedSensors c !! sensorPath) as [sensor |]; [| done].
  destruct (m_connections c !! sensor) as [k |]; simpl;
    (split; [| done]); by rewrite !alter_view.
Qed.

Lemma unsubscribeSensors_view (cn : string) (sensorPaths : list string) (w : World)
    (cn' : string) :
  flushView <$> m_clients (unsubscribeSensors cn sensorPaths w) !! cn'
  = flushView <$> m_clients w !! cn'
  ∧ sessionBus (unsubscribeSensors cn sensorPaths w) = sessionBus w.
Proof.
  unfold unsubscribeSensors. revert w.
  induction sensorPaths as [| p ps IH]; intros w; simpl; [done |].
  destruct (IH (unsubscribeSensor cn w p)) as (-> & ->).
  apply unsubscribeSensor_view.
Qed.

(** Unsubscribing any paths before a flush does not change what the flush
    sends. *)
Lemma unsubscribe_then_flush (cn : string) (sensorPaths : list string) (w : World) :
  sessionBus (Client_sendFrame cn (unsubscribeSensors cn sensorPaths w))
  = sessionBus (Client_sendFrame cn w).
Proof.
  destruct (unsubscribeSensors_view cn sensorPaths w cn) as (Hv & Hb).
  by apply sendFrame_bus_view.
Qed.

(** Unsubscribing a path removes it from the client's subscribed set. *)
Lemma unsubscribeSensor_subscribed (cn : string) (w : World) (sensorPath : string) :
  m_subscribedSensors <$> m_clients (unsubscribeSensor cn w sensorPath) !! cn
  = delete sensorPath <$> (m_subscribedSensors <$> m_clients w !! cn).
Proof.
  unfold unsubscribeSensor.
  destruct (m_clients w !! cn) as [c |] eqn:Hc; [| by rewrite Hc].
  destruct (m_subscribedSensors c !! sensorPath) as [sensor |] eqn:Hs.
  - destruct (m_connections c !! sensor); simpl; by rewrite !lookup_alter_eq, Hc.
  - rewrite Hc. simpl. by rewrite delete_id.
Qed.

Lemma unsubscribeSensors_subscribed (cn : string) (sensorPaths : list string) (w : World)
    (c' : Client) (sensorPath : string) :
  m_clients (unsubscribeSensors cn sensorPaths w) !! cn = Some c' →
  sensorPath ∈ sensorPaths →
  m_subscribedSensors c' !! sensorPath = None.
Proof.
  unfold unsubscribeSensors.
  assert (Hkeep : ∀ l w c',
            m_clients (foldl (unsubscribeSensor cn) w l) !! cn = Some c' →
            (∀ c, m_clients w !! cn = Some c → m_subscribedSensors c !! sensorPath = None) →
            m_subscribedSensors c' !! sensorPath = None).
  { induction l as [| p l IH]; intros w0 c0 Hc0 Hnone; simpl in Hc0; [by apply Hnone |].
    apply (IH _ _ Hc0). intros c Hc.
    pose proof (unsubscribeSensor_subscribed cn w0 p) as H. rewrite Hc in H. simpl in H.
    destruct (m_clients w0 !! cn) as [c1 |] eqn:Hc1; [| done]. simpl in H.
    injection H as ->. apply lookup_delete_None. right. by apply Hnone. }
  revert w. induction sensorPaths as [| p ps IH]; intros w Hc' Hin;
    [by apply elem_of_nil in Hin |].
  simpl in Hc'. apply elem_of_cons in Hin as [-> | Hin]; [| by apply (IH _ Hc')].
  apply (Hkeep _ _ _ Hc'). intros c Hc.
  pose proof (unsubscribeSensor_subscribed cn w p) as H. rewrite Hc in H. simpl in H.
  destruct (m_clients w !! cn) as [c1 |] eqn:Hc1; [| done]. simpl in H.
  injection H as ->. apply lookup_delete_eq.
Qed.

(** C1 (amended). A client holds one value listener on a property and has
    just flushed.  The property takes a new, valid value and the client then
    unsubscribes (any paths, the property's own included) before the next
    flush.  The unsubscribed paths leave the client's subscribed set, but
    the pending delta is not touched: that flush still sends one value
    frame, holding the update that was queued before the unsubscribe. *)
Theorem unsubscribe_keeps_queued_update
    (w : World) (cn : string) (c : Client) (sensor : SensorPtr) (sp : SensorProperty)
    (v : QVariant) (sensorPaths : list string) :
  m_clients w !! cn = Some c →
  m_pendingUpdates c = [] →
  sensorHeap w !! sensor = Some sp →
  listenerCount SigValueChanged sensor cn w = 1%nat →
  sp_value sp ≠ v → isValid v = true →
  let unsubscribed :=
    unsubscribeSensors cn sensorPaths (SensorProperty_setValue sensor v w) in
  (∀ c' sensorPath,
     m_clients unsubscribed !! cn = Some c' →
     sensorPath ∈ sensorPaths →
     m_subscribedSensors c' !! sensorPath = None)
  ∧ valueFrames (sessionBus (Client_sendFrame cn unsubscribed))
    = valueFrames (sessionBus w) ++ [(m_serviceName c, [mkSensorData (sp_path sp) v])].
Proof.
  intros Hc Hp Hs Hl Hv Hok unsubscribed.
  split; [intros c' sensorPath; apply unsubscribeSensors_subscribed |].
  unfold unsubscribed. rewrite unsubscribe_then_flush.
  assert (Hc1 : m_clients (SensorProperty_setValue sensor v w) !! cn
                = Some (onValueChanged (withValue v sp) c)).
  { rewrite (setValue_client _ _ sp) by done. by rewrite Hl, Hc. }
  rewrite (sendFrame_valueFrames _ _ _ Hc1).
  destruct (setValue_frame w sensor v) as (_ & -> & _).
  unfold onValueChanged. simpl. rewrite Hok. simpl. by rewrite Hp.
Qed.

Lemma unsubscribe_keeps_queued_update_witness :
  m_subscribedSensors <$>
    m_clients (unsubscribeSensors ":1.7" ["cpu/cpu0/usage"]
                 (SensorProperty_setValue 1%nat (VInt 5) Example.subscribed)) !! ":1.7"
  = Some {["cpu/cpu0/frequency" := 2%nat]}
  ∧ valueFrames (sessionBus
      (Client_sendFrame ":1.7"
         (unsubscribeSensors ":1.7" ["cpu/cpu0/usage"]
            (SensorProperty_setValue 1%nat (VInt 5) Example.subscribed))))
    = [(":1.7", [mkSensorData "cpu/cpu0/usage" (VInt 5)])].
Proof.
  split; [vm_compute; reflexivity |].
  destruct (unsubscribe_keeps_queued_update Example.subscribed ":1.7" Example.peer 1%nat
              (set_subscribers (λ _, 1) Example.usage) (VInt 5) ["cpu/cpu0/usage"])
    as (_ & H).
  - vm_compute. reflexivity.
  - reflexivity.
  - vm_compute. reflexivity.
  - reflexivity.
  - discriminate.
  - reflexivity.
  - etrans; [exact H | reflexivity].
Defined.

(** C1 (as stated) fails.  The peer is subscribed to [cpu/cpu0/usage]; the
    value changes to 5; the peer unsubscribes that path; the next flush
    nevertheless sends a value frame with an entry for [cpu/cpu0/usage]. *)
Lemma unsubscribe_drops_pending_counterexample :
  let changed := SensorProperty_setValue 1%nat (VInt 5) Example.subscribed in
  let unsubscribed := unsubscribe ":1.7" ["cpu/cpu0/usage"] changed in
  let flushed := Client_sendFrame ":1.7" unsubscribed in
  (m_subscribedSensors <$> m_clients Example.subscribed !! ":1.7")
    = Some (<["cpu/cpu0/usage" := 1%nat]> {["cpu/cpu0/frequency" := 2%nat]})
  ∧ (m_subscribedSensors <$> m_clients unsubscribed !! ":1.7")
    = Some {["cpu/cpu0/frequency" := 2%nat]}
  ∧ sessionBus flushed
    = [NewSensorData ":1.7" [mkSensorData "cpu/cpu0/usage" (VInt 5)]]
  ∧ ¬ (∀ service entries,
         NewSensorData service entries ∈ sessionBus flushed →
         "cpu/cpu0/usage" ∉ sensorProperty <$> entries).
Proof.
  intros changed unsubscribed flushed.
  assert (Hbus : sessionBus flushed
                 = [NewSensorData ":1.7" [mkSensorData "cpu/cpu0/usage" (VInt 5)]])
    by (vm_compute; reflexivity).
  split; [vm_compute; reflexivity |].
  split; [vm_compute; reflexivity |].
  split; [exact Hbus |].
  intros Hclaim.
  apply (Hclaim ":1.7" [mkSensorData "cpu/cpu0/usage" (VInt 5)]).
  - rewrite Hbus. left.
  - left.
Qed.

(** Effect of the loop body of [subscribeSensors] on a path that resolves. *)
Lemma subscribeSensor_resolved (cn : string) (w : World) (sensorPath : string)
    (sensor : SensorPtr) :
  findSensor w sensorPath = Some sensor →
  let h := nextHandle w in
  let w' := subscribeSensor cn w sensorPath in
  m_clients w'
  = alter (set_subscribedSensors (<[sensorPath := sensor]>)) cn
      (alter (set_clientConnections (<[sensor := mkConnections h (S h) (S (S h))]>)) cn
         (m_clients w))
  ∧ sensorHeap w' = alter (set_subscribers (λ n, n + 1)) sensor (sensorHeap w)
  ∧ connections w' = connections w ++ newConnections h sensor cn
  ∧ nextHandle w' = S (S (S h))
  ∧ sessionBus w' = sessionBus w
  ∧ m_containers w' = m_containers w
  ∧ containerHeap w' = containerHeap w
  ∧ m_providers w' = m_providers w.
Proof.
  intros Hf. unfold subscribeSensor. rewrite Hf. simpl.
  repeat split. by rewrite <- !app_assoc.
Qed.

Lemma subscribeSensor_unresolved (cn : string) (w : World) (sensorPath : string) :
  findSensor w sensorPath = None → subscribeSensor cn w sensorPath = w.
Proof. intros Hf. unfold subscribeSensor. by rewrite Hf. Qed.

Lemma listenerCount_app (sig : Signal) (sensor : SensorPtr) (cn : string) (w w' : World)
    (l : list Connection) :
  connections w' = connections w ++ l →
  listenerCount sig sensor cn w'
  = (listenerCount sig sensor cn w
     + length (List.filter
                 (λ k, listens sig sensor k && bool_decide (conn_receiver k = cn)) l))%nat.
Proof.
  intros H. unfold listenerCount. by rewrite H, List.filter_app, length_app.
Qed.

(** A successful subscription gives the client one more slot on each of
    the three signals of the sensor. *)
Lemma subscribeSensor_listenerCount (cn : string) (w : World) (sensorPath : string)
    (sensor : SensorPtr) (sig : Signal) :
  findSensor w sensorPath = Some sensor →
  listenerCount sig sensor cn (subscribeSensor cn w sensorPath)
  = S (listenerCount sig sensor cn w).
Proof.
  intros Hf.
  destruct (subscribeSensor_resolved cn w sensorPath sensor Hf) as (_ & _ & Hc & _).
  rewrite (listenerCount_app _ _ _ w _ _ Hc).
  unfold newConnections, listens. simpl.
  rewrite !(bool_decide_eq_true_2 (sensor = sensor)) by done.
  rewrite !(bool_decide_eq_true_2 (cn = cn)) by done.
  destruct sig; simpl; lia.
Qed.

(** C2 (amended). Subscribing again to a path that is already in the
    client's subscribed set, and still resolves to the same property, leaves
    the subscribed set, both pending deltas and the bus unchanged; the call
    is not a no-op, though: it connects the three listeners once more and
    calls the property's [subscribe()] once more, and a later change to a
    new valid value queues one update per value listener the client then
    holds. *)
Theorem resubscribe_keeps_set_adds_listeners
    (w : World) (cn : string) (c : Client) (sensorPath : string)
    (sensor : SensorPtr) (sp : SensorProperty) :
  m_clients w !! cn = Some c →
  m_subscribedSensors c !! sensorPath = Some sensor →
  findSensor w sensorPath = Some sensor →
  sensorHeap w !! sensor = Some sp →
  let w' := subscribeSensors cn [sensorPath] w in
  (∃ c', m_clients w' !! cn = Some c'
         ∧ m_subscribedSensors c' = m_subscribedSensors c
         ∧ m_pendingUpdates c' = m_pendingUpdates c
         ∧ m_pendingMetaDataChanges c' = m_pendingMetaDataChanges c)
  ∧ sessionBus w' = sessionBus w
  ∧ (∀ sig, listenerCount sig sensor cn w' = S (listenerCount sig sensor cn w))
  ∧ sp_subscribers <$> sensorHeap w' !! sensor = Some (sp_subscribers sp + 1)
  ∧ (∀ v, sp_value sp ≠ v → isValid v = true →
       m_pendingUpdates <$> m_clients (SensorProperty_setValue sensor v w') !! cn
       = Some (m_pendingUpdates c
               ++ replicate (S (listenerCount SigValueChanged sensor cn w))
                    (mkSensorData (sp_path sp) v))).
Proof.
  intros Hc Hsub Hf Hs w'. unfold w', subscribeSensors. simpl.
  destruct (subscribeSensor_resolved cn w sensorPath sensor Hf)
    as (Hcl & Hheap & _ & _ & Hbus & _).
  assert (Hc' : m_clients (subscribeSensor cn w sensorPath) !! cn
                = Some (set_subscribedSensors (<[sensorPath := sensor]>)
                          (set_clientConnections
                             (<[sensor := mkConnections (nextHandle w) (S (nextHandle w))
                                            (S (S (nextHandle w)))]>) c))).
  { by rewrite Hcl, !lookup_alter_eq, Hc. }
  split; [| split; [done | split; [| split]]].
  - eexists. split; [exact Hc' |]. simpl. split; [| done]. by apply insert_id.
  - intros sig. by apply subscribeSensor_listenerCount.
  - rewrite Hheap, lookup_alter_eq, Hs. done.
  - intros v Hv Hok.
    rewrite (setValue_client _ _ (set_subscribers (λ n, n + 1) sp)); [| | done].
    + rewrite Hc'. simpl. f_equal.
      rewrite iter_onValueChanged_pending by done.
      by rewrite subscribeSensor_listenerCount.
    + by rewrite Hheap, lookup_alter_eq, Hs.
Qed.

Lemma resubscribe_keeps_set_adds_listeners_witness :
  let w' := subscribeSensors ":1.7" ["cpu/cpu0/usage"] Example.subscribed in
  (m_subscribedSensors <$> m_clients w' !! ":1.7")
    = (m_subscribedSensors <$> m_clients Example.subscribed !! ":1.7")
  ∧ listenerCount SigValueChanged 1%nat ":1.7" w' = 2%nat
  ∧ sp_subscribers <$> sensorHeap w' !! 1%nat = Some 2.
Proof.
  intros w'.
  pose proof (resubscribe_keeps_set_adds_listeners Example.subscribed ":1.7"
                Example.peer "cpu/cpu0/usage" 1%nat (set_subscribers (λ _, 1) Example.usage))
    as H.
  destruct H as ((c' & Hc' & Hset & _) & _ & Hl & Hr & _).
  - vm_compute. reflexivity.
  - vm_compute. reflexivity.
  - vm_compute. reflexivity.
  - vm_compute. reflexivity.
  - split; [| split].
    + fold w' in Hc'. rewrite Hc'. simpl. rewrite Hset. vm_compute. reflexivity.
    + fold w' in Hl. rewrite Hl. reflexivity.
    + fold w' in Hr. rewrite Hr. reflexivity.
Defined.

(** C2 (as stated) fails.  The peer is subscribed to [cpu/cpu0/usage] and
    subscribes to it again: the subscribed set is the same, but the table
    holds three more connections, the reference count of the
    sensor went from 1 to 2, and one value change queues two updates. *)
Lemma resubscribe_noop_counterexample :
  let again := subscribe ":1.7" ["cpu/cpu0/usage"] Example.subscribed in
  let changed := SensorProperty_setValue 1%nat (VInt 5) again in
  (m_subscribedSensors <$> m_clients again !! ":1.7")
    = (m_subscribedSensors <$> m_clients Example.subscribed !! ":1.7")
  ∧ length (connections Example.subscribed) = 6%nat
  ∧ length (connections again) = 9%nat
  ∧ sp_subscribers <$> sensorHeap Example.subscribed !! 1%nat = Some 1
  ∧ sp_subscribers <$> sensorHeap again !! 1%nat = Some 2
  ∧ m_pendingUpdates <$> m_clients changed !! ":1.7"
    = Some [mkSensorData "cpu/cpu0/usage" (VInt 5);
            mkSensorData "cpu/cpu0/usage" (VInt 5)]
  ∧ again ≠ Example.subscribed.
Proof.
  intros again changed.
  assert (H6 : length (connections Example.subscribed) = 6%nat) by (vm_compute; reflexivity).
  assert (H9 : length (connections again) = 9%nat) by (vm_compute; reflexivity).
  split; [vm_compute; reflexivity |].
  split; [exact H6 |].
  split; [exact H9 |].
  split; [vm_compute; reflexivity |].
  split; [vm_compute; reflexivity |].
  split; [vm_compute; reflexivity |].
  intros Heq. rewrite Heq, H6 in H9. discriminate.
Qed.

(** ** Path resolution *)

(** Resolution reads the container index and the container store only. *)
Lemma findSensor_ext (w w' : World) (path : string) :
  m_containers w' = m_containers w →
  containerHeap w' = containerHeap w →
  findSensor w' path = findSensor w path.
Proof. intros H1 H2. unfold findSensor. by rewrite H1, H2. Qed.

Lemma subscribeSensor_registry (cn : string) (w : World) (sensorPath : string) :
  m_containers (subscribeSensor cn w sensorPath) = m_containers w
  ∧ containerHeap (subscribeSensor cn w sensorPath) = containerHeap w.
Proof.
  destruct (findSensor w sensorPath) as [sensor |] eqn:Hf.
  - by destruct (subscribeSensor_resolved cn w sensorPath sensor Hf)
      as (_ & _ & _ & _ & _ & -> & -> & _).
  - by rewrite subscribeSensor_unresolved.
Qed.

Lemma subscribeSensors_registry (cn : string) (sensorPaths : list string) (w : World) :
  m_containers (subscribeSensors cn sensorPaths w) = m_containers w
  ∧ containerHeap (subscribeSensors cn sensorPaths w) = containerHeap w.
Proof.
  unfold subscribeSensors. revert w.
  induction sensorPaths as [| p ps IH]; intros w; simpl; [done |].
  destruct (IH (subscribeSensor cn w p)) as (-> & ->).
  apply subscribeSensor_registry.
Qed.

(** *** Segments of a canonical path *)

Lemma length_append (a b : string) :
  String.length (a +:+ b) = (String.length a + String.length b)%nat.
Proof. induction a as [| x a IH]; simpl; [done | by rewrite IH]. Qed.

Lemma substring_prefix (a b : string) :
  String.substring 0 (String.length a) (a +:+ b) = a.
Proof.
  induction a as [| x a IH]; simpl.
  - by destruct b.
  - by rewrite IH.
Qed.

Lemma substring_skip (a b : string) (n m : nat) :
  String.substring (String.length a + n) m (a +:+ b) = String.substring n m b.
Proof. induction a as [| x a IH]; simpl; [done | by rewrite IH]. Qed.

Lemma substring_all (a : string) :
  String.substring 0 (String.length a) a = a.
Proof. induction a as [| x a IH]; simpl; [done | by rewrite IH]. Qed.

Lemma hasSlash_cons (x : ascii) (s : string) :
  hasSlash (String x s) = false → Ascii.eqb x slash = false ∧ hasSlash s = false.
Proof. simpl. by intros H%orb_false_iff. Qed.

(** First slash of [a/rest] when [a] has none. *)
Lemma indexOf_from_prefix (a rest : string) (i : Z) :
  hasSlash a = false →
  QString.indexOf_from slash (a +:+ String slash rest) i = i + QString.size a.
Proof.
  revert i. induction a as [| x a IH]; intros i Ha.
  - simpl. unfold QString.size. simpl. lia.
  - apply hasSlash_cons in Ha as (Hx & Ha). simpl. rewrite Hx.
    rewrite IH by done. unfold QString.size. simpl. lia.
Qed.

Lemma lastIndexOf_from_none (s : string) (i acc : Z) :
  hasSlash s = false → QString.lastIndexOf_from slash s i acc = acc.
Proof.
  revert i acc. induction s as [| x s IH]; intros i acc Hs; [done |].
  apply hasSlash_cons in Hs as (Hx & Hs). simpl. rewrite Hx. by apply IH.
Qed.

(** Last slash of [a/s] when [s] has none. *)
Lemma lastIndexOf_from_suffix (a s : string) (i acc : Z) :
  hasSlash s = false →
  QString.lastIndexOf_from slash (a +:+ String slash s) i acc = i + QString.size a.
Proof.
  intros Hs. revert i acc. induction a as [| x a IH]; intros i acc.
  - simpl. rewrite lastIndexOf_from_none by done. unfold QString.size. simpl. lia.
  - simpl. rewrite IH. unfold QString.size. simpl. lia.
Qed.

Lemma append_assoc (a b c : string) : (a +:+ b) +:+ c = a +:+ (b +:+ c).
Proof.
  induction a as [| x a IH]; [done |].
  change (String x ((a +:+ b) +:+ c) = String x (a +:+ (b +:+ c))). by rewrite IH.
Qed.

(** [findSensor] splits a canonical three-part path into its parts: the
    container id and the property name hold no slash, the object id may. *)
Lemma segments_of_sensorPath (containerId objectId propertyName : string) :
  hasSlash containerId = false →
  hasSlash propertyName = false →
  let path := sensorPathOf containerId objectId propertyName in
  subsystemOf path = containerId
  ∧ objectOf path = objectId
  ∧ propertyOf path = propertyName.
Proof.
  intros Hc Hp path.
  set (lc := String.length containerId).
  set (lo := String.length objectId).
  set (lp := String.length propertyName).
  assert (Hpath : path = containerId +:+ String slash (objectId +:+ String slash propertyName))
    by done.
  assert (Hpath' : path = (containerId +:+ String slash objectId) +:+ String slash propertyName).
  { rewrite Hpath. by rewrite append_assoc. }
  assert (Hfirst : QString.indexOf slash path = Z.of_nat lc).
  { unfold QString.indexOf. rewrite Hpath, indexOf_from_prefix by done.
    unfold QString.size. fold lc. lia. }
  assert (Hlast : QString.lastIndexOf slash path = Z.of_nat (lc + 1 + lo)).
  { unfold QString.lastIndexOf. rewrite Hpath', lastIndexOf_from_suffix by done.
    unfold QString.size. rewrite length_append. simpl. fold lc lo. lia. }
  assert (Hsize : QString.size path = Z.of_nat (lc + 1 + lo + 1 + lp)).
  { unfold QString.size. rewrite Hpath, !length_append. simpl.
    rewrite length_append. simpl. fold lc lo lp. lia. }
  split; [| split].
  - unfold subsystemOf, QString.left. rewrite Hfirst, Hsize.
    replace ((Z.of_nat lc <? 0) || (Z.of_nat (lc + 1 + lo + 1 + lp) <=? Z.of_nat lc))
      with false by (symmetry; lia).
    rewrite Nat2Z.id, Hpath. apply substring_prefix.
  - unfold objectOf, QString.mid. rewrite Hfirst, Hlast, Hsize.
    replace (Z.of_nat (lc + 1 + lo) - (Z.of_nat lc + 1)) with (Z.of_nat lo) by lia.
    replace (Z.of_nat (lc + 1 + lo + 1 + lp) <? Z.of_nat lc + 1) with false
      by (symmetry; lia).
    replace (Z.of_nat lc + 1 <? 0) with false by (symmetry; lia).
    replace ((Z.of_nat lo <? 0)
             || (Z.of_nat (lc + 1 + lo + 1 + lp) - (Z.of_nat lc + 1) <? Z.of_nat lo))
      with false by (symmetry; lia).
    rewrite Nat2Z.id.
    replace (Z.to_nat (Z.of_nat lc + 1)) with (String.length (containerId +:+ "/") + 0)%nat
      by (rewrite length_append; simpl; fold lc; lia).
    replace path with ((containerId +:+ "/") +:+ (objectId +:+ String slash propertyName))
      by (rewrite Hpath; by rewrite append_assoc).
    rewrite substring_skip. apply substring_prefix.
  - unfold propertyOf, QString.mid_end, QString.mid. rewrite Hlast, Hsize.
    replace (Z.of_nat (lc + 1 + lo + 1 + lp) <? Z.of_nat (lc + 1 + lo) + 1) with false
      by (symmetry; lia).
    replace (Z.of_nat (lc + 1 + lo) + 1 <? 0) with false by (symmetry; lia).
    simpl.
    replace (Z.to_nat (Z.of_nat (lc + 1 + lo) + 1))
      with (String.length ((containerId +:+ String slash objectId) +:+ "/") + 0)%nat
      by (rewrite !length_append; simpl; fold lc lo; lia).
    replace (Z.to_nat (Z.of_nat (lc + 1 + lo + 1 + lp) - (Z.of_nat (lc + 1 + lo) + 1)))
      with lp by lia.
    replace path with (((containerId +:+ String slash objectId) +:+ "/") +:+ propertyName)
      by (rewrite Hpath'; by rewrite append_assoc).
    rewrite substring_skip. apply substring_all.
Qed.

Lemma findSensor_missing (w : World) (containerId objectId propertyName : string) :
  hasSlash containerId = false →
  hasSlash propertyName = false →
  Missing w containerId objectId propertyName →
  findSensor w (sensorPathOf containerId objectId propertyName) = None.
Proof.
  intros Hc Hp Hm.
  destruct (segments_of_sensorPath containerId objectId propertyName Hc Hp)
    as (Hs & Ho & Hn).
  unfold findSensor. rewrite Hs, Ho, Hn.
  destruct Hm as [H1 | cp c H1 H2 H3 | cp c o H1 H2 H3 H4].
  - by rewrite H1.
  - by rewrite H1, H2, H3.
  - by rewrite H1, H2, H3.
Qed.

(** C4. For an address [container/object/property] (ids of container and
    property without slash) whose container, object or property is not in
    the registry, [findSensor] returns null, without any error; subscribing
    to it leaves the whole daemon state, so the client's subscription
    state, unchanged; and in a batch the path is skipped while the other
    paths are processed as if it were not there. *)
Theorem unknown_path_is_skipped (w : World) (cn : string)
    (containerId objectId propertyName : string) :
  hasSlash containerId = false →
  hasSlash propertyName = false →
  Missing w containerId objectId propertyName →
  let path := sensorPathOf containerId objectId propertyName in
  findSensor w path = None
  ∧ subscribeSensors cn [path] w = w
  ∧ ∀ before after,
      subscribeSensors cn (before ++ path :: after) w
      = subscribeSensors cn (before ++ after) w.
Proof.
  intros Hc Hp Hm path.
  pose proof (findSensor_missing w _ _ _ Hc Hp Hm) as Hf. fold path in Hf.
  split; [done |]. split.
  - unfold subscribeSensors. simpl. by apply subscribeSensor_unresolved.
  - intros before after.
    destruct (subscribeSensors_registry cn before w) as (Hcs & Hh).
    unfold subscribeSensors. rewrite !foldl_app. simpl.
    rewrite subscribeSensor_unresolved; [done |].
    fold (subscribeSensors cn before w).
    by rewrite (findSensor_ext w) by done.
Qed.

Lemma unknown_path_is_skipped_witness :
  findSensor Example.subscribed "cpu/cpu7/usage" = None
  ∧ subscribeSensors ":1.7" ["cpu/cpu7/usage"] Example.subscribed = Example.subscribed.
Proof.
  destruct (unknown_path_is_skipped Example.subscribed ":1.7" "cpu" "cpu7" "usage")
    as (H1 & H2 & _).
  - reflexivity.
  - reflexivity.
  - apply (NoObject _ _ _ _ 10%nat Example.cpu); vm_compute; reflexivity.
  - split; [exact H1 | exact H2].
Defined.

(** C4 (as stated) fails for a path without property segment.  No
    property is registered under [lmsensors/fan1], which has a container
    and an object segment only; [findSensor] nevertheless resolves it, to
    the sensor [lmsensors/fan1/fan1], and a subscribe request for it changes
    the client's subscription state. *)
Lemma short_path_is_subscribed_counterexample :
  let w := ShortPath.registered in
  let w' := subscribeSensors ":1.7" ["lmsensors/fan1"] w in
  QString.indexOf slash "lmsensors/fan1" = QString.lastIndexOf slash "lmsensors/fan1"
  ∧ (∀ s sp, sensorHeap w !! s = Some sp → sp_path sp ≠ "lmsensors/fan1")
  ∧ findSensor w "lmsensors/fan1" = Some 1%nat
  ∧ (m_subscribedSensors <$> m_clients w !! ":1.7") = Some ∅
  ∧ (m_subscribedSensors <$> m_clients w' !! ":1.7") = Some {["lmsensors/fan1" := 1%nat]}
  ∧ listenerCount SigValueChanged 1%nat ":1.7" w' = 1%nat
  ∧ ¬ (findSensor w "lmsensors/fan1" = None ∧ w' = w).
Proof.
  intros w w'.
  assert (Hf : findSensor w "lmsensors/fan1" = Some 1%nat) by (vm_compute; reflexivity).
  split; [reflexivity |].
  split.
  { intros s sp Hs.
    assert (Hheap : sensorHeap w = <[1%nat := ShortPath.fan]> ∅) by reflexivity.
    rewrite Hheap in Hs. apply lookup_insert_Some in Hs as [[_ <-] | [_ Hs]].
    - discriminate.
    - by rewrite lookup_empty in Hs. }
  split; [exact Hf |].
  split; [vm_compute; reflexivity |].
  split; [vm_compute; reflexivity |].
  split; [reflexivity |].
  intros [Hn _]. rewrite Hf in Hn. discriminate.
Qed.

(** ** Only valid values reach a consumer *)

Lemma pendingValid_alter (f : Client → Client) (cn : string) (cs : gmap string Client) :
  keepsValid f → pendingValid cs → pendingValid (alter f cn cs).
Proof.
  intros Hf Hcs cn' c' Hl. apply lookup_alter_Some in Hl as [(-> & c & Hc & ->) | (_ & Hc)].
  - apply Hf. by apply (Hcs cn').
  - by apply (Hcs cn').
Qed.

Lemma pendingValid_fmap (f : Client → Client) (cs : gmap string Client) :
  keepsValid f → pendingValid cs → pendingValid (f <$> cs).
Proof.
  intros Hf Hcs cn' c' Hl. apply lookup_fmap_Some in Hl as (c & <- & Hc).
  apply Hf. by apply (Hcs cn').
Qed.

Lemma slot_keepsValid (sig : Signal) (sensor : SensorPtr) (sp : SensorProperty) :
  keepsValid (slot sig sensor sp).
Proof.
  intros c Hc. destruct sig; simpl; [| done | done].
  unfold onValueChanged. destruct (isValid (sp_value sp)) eqn:Hv; simpl; [| done].
  apply Forall_app. split; [done |]. by apply Forall_singleton.
Qed.

Lemma emit_deliversValid (sig : Signal) (sensor : SensorPtr) (w : World) :
  deliversValid w → deliversValid (emit sig sensor w).
Proof.
  intros (Hp & Hb). unfold emit. destruct (sensorHeap w !! sensor) as [sp |]; [| done].
  split; [| done]. simpl.
  generalize (List.filter (listens sig sensor) (connections w)). intros l.
  revert Hp. generalize (m_clients w). induction l as [| k l IH]; intros cs Hcs; [done |].
  simpl. apply IH. unfold invoke. apply pendingValid_alter; [| done].
  apply slot_keepsValid.
Qed.

Lemma foldl_deliversValid {A : Type} (f : World → A → World) (l : list A) (w : World) :
  (∀ w x, deliversValid w → deliversValid (f w x)) →
  deliversValid w → deliversValid (foldl f w l).
Proof.
  intros Hf. revert w. induction l as [| x l IH]; intros w Hw; [done |].
  simpl. by apply IH, Hf.
Qed.

Lemma setValue_deliversValid (sensor : SensorPtr) (v : QVariant) (w : World) :
  deliversValid w → deliversValid (SensorProperty_setValue sensor v w).
Proof.
  intros Hw. unfold SensorProperty_setValue.
  destruct (sensorHeap w !! sensor) as [sp |]; [| done].
  destruct (decide (sp_value sp = v)); [done |]. by apply emit_deliversValid.
Qed.

Lemma setInfo_deliversValid (sensor : SensorPtr) (i : SensorInfo) (w : World) :
  deliversValid w → deliversValid (SensorProperty_setInfo sensor i w).
Proof.
  intros Hw. unfold SensorProperty_setInfo.
  destruct (sensorHeap w !! sensor) as [sp |]; [| done]. by apply emit_deliversValid.
Qed.

Lemma emit_sensorRemoved_deliversValid (path : string) (w : World) :
  deliversValid w → deliversValid (emit_sensorRemoved path w).
Proof.
  intros (Hp & Hb). split; [| done]. simpl.
  apply pendingValid_fmap; [by intros c Hc | done].
Qed.

Lemma removeObject_deliversValid (cp : ContainerPtr) (objectId : string) (w : World) :
  deliversValid w → deliversValid (SensorContainer_removeObject cp objectId w).
Proof.
  intros Hw. unfold SensorContainer_removeObject.
  destruct (containerHeap w !! cp) as [c |]; [| done].
  destruct (sc_objects c !! objectId) as [obj |]; [| done].
  apply foldl_deliversValid.
  { intros w' s Hw'. exact (emit_deliversValid SigDestroyed s w' Hw'). }
  apply foldl_deliversValid; [| done].
  intros w' _ Hw'. unfold onObjectRemoved. apply foldl_deliversValid; [| done].
  intros w'' s Hw''. destruct (sensorHeap w'' !! s); [| done].
  by apply emit_sensorRemoved_deliversValid.
Qed.

Lemma perform_deliversValid (a : Action) (w : World) :
  deliversValid w → deliversValid (stateOf (perform a w)).
Proof.
  intros Hw. destruct a; simpl; [| | | done].
  - by apply setValue_deliversValid.
  - by apply setInfo_deliversValid.
  - by apply removeObject_deliversValid.
Qed.

Lemma performAll_deliversValid (acts : list Action) (w : World) :
  deliversValid w → deliversValid (stateOf (performAll acts w)).
Proof.
  revert w. induction acts as [| a acts IH]; intros w Hw; [done |].
  simpl. pose proof (perform_deliversValid a w Hw) as Ha.
  destruct (perform a w) as [w' | w']; simpl in *; [by apply IH | done].
Qed.

Lemma updateProviders_deliversValid (providers : list SensorPlugin) (w : World) :
  deliversValid w → deliversValid (stateOf (updateProviders providers w)).
Proof.
  revert w. induction providers as [| p ps IH]; intros w Hw; [done |].
  simpl. unfold SensorPlugin_update.
  pose proof (performAll_deliversValid (update p)
                (set_callLog (λ l, l ++ [CallUpdate (providerName p)]) w) Hw) as Hp.
  destruct (performAll _ _) as [w' | w']; simpl in *; [by apply IH | done].
Qed.

Lemma busValid_snoc_meta (bus : list Message) (service : string)
    (infos : gmap string SensorInfo) :
  busValid bus → busValid (bus ++ [SensorMetaDataChanged service infos]).
Proof.
  intros Hb service' entries [H | H]%elem_of_app; [by apply (Hb service') |].
  by apply list_elem_of_singleton in H.
Qed.

Lemma busValid_snoc_values (bus : list Message) (service : string)
    (entries : list SensorData) :
  busValid bus → Forall validData entries → busValid (bus ++ [NewSensorData service entries]).
Proof.
  intros Hb He service' entries' [H | H]%elem_of_app; [by apply (Hb service') |].
  apply list_elem_of_singleton in H. by injection H as _ ->.
Qed.

Lemma sendFrame_deliversValid (cn : string) (w : World) :
  deliversValid w → deliversValid (Client_sendFrame cn w).
Proof.
  intros (Hp & Hb). unfold Client_sendFrame.
  destruct (m_clients w !! cn) as [c |] eqn:Hc; [| done].
  split.
  - unfold sendMetaDataChanged, sendValues.
    destruct (decide _), (m_pendingUpdates c); simpl;
      (apply pendingValid_alter; [| done]); intros c' _; apply Forall_nil_2.
  - assert (Hv : Forall validData (m_pendingUpdates c)) by by apply (Hp cn).
    unfold sendMetaDataChanged, sendValues, send.
    destruct (decide (m_pendingMetaDataChanges c = ∅)), (m_pendingUpdates c) eqn:Hu;
      simpl; auto using busValid_snoc_meta, busValid_snoc_values.
Qed.

Lemma Daemon_sendFrame_deliversValid (w : World) :
  deliversValid w → deliversValid (stateOf (Daemon_sendFrame w)).
Proof.
  intros Hw. unfold Daemon_sendFrame.
  pose proof (updateProviders_deliversValid (m_providers w) w Hw) as Hu.
  destruct (updateProviders _ _) as [w' | w']; simpl in *; [| done].
  unfold flushClients. apply foldl_deliversValid; [| done].
  intros w'' cn. apply sendFrame_deliversValid.
Qed.

Lemma subscribeSensor_deliversValid (cn : string) (w : World) (sensorPath : string) :
  deliversValid w → deliversValid (subscribeSensor cn w sensorPath).
Proof.
  intros (Hp & Hb). destruct (findSensor w sensorPath) as [sensor |] eqn:Hf.
  - destruct (subscribeSensor_resolved cn w sensorPath sensor Hf)
      as (Hcl & _ & _ & _ & Hbus & _).
    split; [| by rewrite Hbus]. rewrite Hcl.
    apply pendingValid_alter; [by intros c Hc |].
    apply pendingValid_alter; [by intros c Hc | done].
  - by rewrite subscribeSensor_unresolved.
Qed.

Lemma subscribe_deliversValid (sender : string) (sensorIds : list string) (w : World) :
  deliversValid w → deliversValid (subscribe sender sensorIds w).
Proof.
  intros Hw. unfold subscribe, subscribeSensors.
  apply foldl_deliversValid; [apply subscribeSensor_deliversValid |].
  destruct (m_clients w !! sender); [done |].
  destruct Hw as (Hp & Hb). split; [| done]. simpl.
  apply map_Forall_insert_2; [apply Forall_nil_2 | done].
Qed.

Lemma unsubscribeSensor_deliversValid (cn : string) (w : World) (sensorPath : string) :
  deliversValid w → deliversValid (unsubscribeSensor cn w sensorPath).
Proof.
  intros (Hp & Hb). unfold unsubscribeSensor.
  destruct (m_clients w !! cn) as [c |]; [| done].
  destruct (m_subscribedSensors c !! sensorPath) as [sensor |]; [| done].
  assert (Hcl : pendingValid
                  (alter (set_clientConnections (delete sensor)) cn
                     (alter (set_subscribedSensors (delete sensorPath)) cn (m_clients w)))).
  { apply pendingValid_alter; [by intros c' Hc' |].
    apply pendingValid_alter; [by intros c' Hc' | done]. }
  by destruct (m_connections c !! sensor).
Qed.

Lemma unsubscribe_deliversValid (sender : string) (sensorIds : list string) (w : World) :
  deliversValid w → deliversValid (unsubscribe sender sensorIds w).
Proof.
  intros Hw. unfold unsubscribe. destruct (m_clients w !! sender); [| done].
  unfold unsubscribeSensors.
  apply foldl_deliversValid; [apply unsubscribeSensor_deliversValid | done].
Qed.

Lemma onServiceDisconnected_deliversValid (service : string) (w : World) :
  deliversValid w → deliversValid (onServiceDisconnected service w).
Proof.
  intros Hw. unfold onServiceDisconnected.
  assert (Hd : deliversValid (destroyClient service w)).
  { unfold destroyClient. destruct (m_clients w !! service) as [c |]; [| done].
    assert (Hf : deliversValid
                   (foldl (λ w sensor, SensorProperty_unsubscribe sensor w) w
                      (map_to_list (m_subscribedSensors c)).*2)).
    { by apply foldl_deliversValid. }
    exact Hf. }
  destruct Hd as (Hp & Hb). split; [| done]. simpl. by apply map_Forall_delete.
Qed.

Lemma registerProvider_deliversValid (provider : SensorPlugin) (w : World) :
  deliversValid w → deliversValid (registerProvider provider w).
Proof.
  intros Hw. unfold registerProvider. destruct (alreadyHasProvider w provider); [done |].
  apply foldl_deliversValid; [| done].
  intros w' cp Hw'. unfold registerContainer. by destruct (containerHeap w' !! cp).
Qed.

Lemma handle_deliversValid (w : World) (r : Request) :
  deliversValid w → deliversValid (handle w r).
Proof.
  intros Hw. destruct r; simpl.
  - by apply registerProvider_deliversValid.
  - by apply subscribe_deliversValid.
  - by apply unsubscribe_deliversValid.
  - by apply onServiceDisconnected_deliversValid.
  - by apply perform_deliversValid.
  - by apply Daemon_sendFrame_deliversValid.
Qed.

Lemma started_deliversValid (sensorStore : gmap SensorPtr SensorProperty)
    (containerStore : gmap ContainerPtr SensorContainer) :
  deliversValid (started sensorStore containerStore).
Proof.
  split.
  - apply map_Forall_empty.
  - intros service entries H. by apply elem_of_nil in H.
Qed.

(** C10. An invalid value is never exposed.  (1) A value-changed event of a
    sensor whose current value is invalid changes nothing, so nothing is
    queued.  (2) Every entry [getCurrentValues] returns belongs to a
    requested path that resolves to a live sensor and carries that sensor's
    valid current value; unresolvable paths and invalid values are omitted.
    (3) Whatever requests, plugin actions and ticks the daemon has gone
    through since it started, every entry queued for a client and every
    entry of every value frame sent on the bus carries a valid value. *)
Theorem invalid_value_never_exposed :
  (∀ w sensor sp,
     sensorHeap w !! sensor = Some sp →
     isValid (sp_value sp) = false →
     emit SigValueChanged sensor w = w)
  ∧ (∀ w sensorIds d,
       d ∈ sensorData w sensorIds →
       sensorProperty d ∈ sensorIds
       ∧ ∃ sensor sp,
           findSensor w (sensorProperty d) = Some sensor
           ∧ sensorHeap w !! sensor = Some sp
           ∧ payload d = sp_value sp
           ∧ isValid (payload d) = true)
  ∧ (∀ sensorStore containerStore rs,
       let w := run rs (started sensorStore containerStore) in
       (∀ cn c d,
          m_clients w !! cn = Some c → d ∈ m_pendingUpdates c → isValid (payload d) = true)
       ∧ (∀ service entries d,
            NewSensorData service entries ∈ sessionBus w →
            d ∈ entries → isValid (payload d) = true)).
Proof.
  split; [| split].
  - intros w sensor sp. apply emit_valueChanged_invalid.
  - intros w sensorIds d. apply sensorData_sound.
  - intros sensorStore containerStore rs w.
    assert (Hw : deliversValid w).
    { unfold w, run. apply foldl_deliversValid.
      - intros w' r. apply handle_deliversValid.
      - apply started_deliversValid. }
    destruct Hw as (Hp & Hb). split.
    + intros cn c d Hc Hd. specialize (Hp cn c Hc). simpl in Hp.
      rewrite Forall_forall in Hp. by apply Hp.
    + intros service entries d Hm Hd. specialize (Hb service entries Hm).
      rewrite Forall_forall in Hb. by apply Hb.
Qed.

Lemma invalid_value_never_exposed_witness :
  emit SigValueChanged 1%nat Example.subscribed = Example.subscribed
  ∧ sensorData Example.subscribed ["cpu/cpu0/usage"; "cpu/cpu0/frequency"; "gpu/gpu0/usage"]
    = [mkSensorData "cpu/cpu0/frequency" (VInt 800)]
  ∧ isValid (VInt 800) = true.
Proof.
  destruct invalid_value_never_exposed as (H1 & H2 & _).
  split; [| split].
  - apply (H1 Example.subscribed 1%nat (set_subscribers (λ _, 1) Example.usage)).
    + vm_compute. reflexivity.
    + reflexivity.
  - vm_compute. reflexivity.
  - destruct (H2 Example.subscribed
                ["cpu/cpu0/usage"; "cpu/cpu0/frequency"; "gpu/gpu0/usage"]
                (mkSensorData "cpu/cpu0/frequency" (VInt 800)))
      as (_ & s & sp & _ & _ & _ & Hv).
    + vm_compute. left.
    + exact Hv.
Defined.

(** ** Metadata changes *)

Lemma setInfo_client (w : World) (sensor : SensorPtr) (sp : SensorProperty)
    (i : SensorInfo) (cn : string) :
  sensorHeap w !! sensor = Some sp →
  m_clients (SensorProperty_setInfo sensor i w) !! cn
  = Nat.iter (listenerCount SigSensorInfoChanged sensor cn w) (onInfoChanged (withInfo i sp))
      <$> m_clients w !! cn.
Proof.
  intros Hs. unfold SensorProperty_setInfo. rewrite Hs.
  rewrite (emit_client _ _ (withInfo i sp)); [done |].
  simpl. by rewrite lookup_insert_eq.
Qed.

Lemma setInfo_frame (w : World) (sensor : SensorPtr) (sp : SensorProperty) (i : SensorInfo) :
  sensorHeap w !! sensor = Some sp →
  connections (SensorProperty_setInfo sensor i w) = connections w
  ∧ sessionBus (SensorProperty_setInfo sensor i w) = sessionBus w
  ∧ sensorHeap (SensorProperty_setInfo sensor i w) = <[sensor := withInfo i sp]> (sensorHeap w).
Proof.
  intros Hs. unfold SensorProperty_setInfo. rewrite Hs.
  match goal with |- context [emit ?sig ?s ?w'] =>
    destruct (emit_frame sig s w') as (_ & _ & -> & _ & -> & _ & _ & -> & _) end.
  done.
Qed.

(** Running the metadata listener again for the same sensor state changes
    nothing: the entry is overwritten by itself. *)
Lemma onInfoChanged_idem (sp : SensorProperty) (c : Client) :
  onInfoChanged sp (onInfoChanged sp c) = onInfoChanged sp c.
Proof.
  unfold onInfoChanged, set_pendingMetaDataChanges. simpl. by rewrite insert_insert_eq.
Qed.

Lemma iter_onInfoChanged (sp : SensorProperty) (c : Client) (k : nat) :
  (1 ≤ k)%nat → Nat.iter k (onInfoChanged sp) c = onInfoChanged sp c.
Proof.
  intros Hk. induction k as [| k IH]; [lia |].
  destruct k as [| k]; [done |].
  change (onInfoChanged sp (Nat.iter (S k) (onInfoChanged sp) c) = onInfoChanged sp c).
  rewrite IH by lia. apply onInfoChanged_idem.
Qed.

(** A map lists a bound key exactly once. *)
Lemma map_to_list_key_once {V : Type} (m : gmap string V) (k : string) (v : V) :
  m !! k = Some v →
  filter (λ kv, kv.1 = k) (map_to_list m) = [(k, v)].
Proof.
  intros Hk.
  assert (Hperm : map_to_list m ≡ₚ (k, v) :: map_to_list (delete k m)).
  { symmetry. by apply map_to_list_delete. }
  assert (Hrest : filter (λ kv : string * V, kv.1 = k) (map_to_list (delete k m)) = []).
  { assert (Hall : ∀ kv, kv ∈ map_to_list (delete k m) → kv.1 ≠ k).
    { intros [k' v'] Hin Heq. simpl in Heq. subst k'.
      apply elem_of_map_to_list in Hin. by rewrite lookup_delete_eq in Hin. }
    revert Hall. generalize (map_to_list (delete k m)).
    induction l as [| kv l IHl]; intros Hall; [done |].
    rewrite filter_cons_False by (apply Hall; left).
    apply IHl. intros kv' Hin. apply Hall. by right. }
  apply (filter_Permutation (λ kv : string * V, kv.1 = k)) in Hperm.
  rewrite filter_cons_True in Hperm by done. rewrite Hrest in Hperm.
  by apply Permutation_singleton_r in Hperm.
Qed.

Lemma setInfo_sequence (cn : string) (sensor : SensorPtr) (infos : list SensorInfo) :
  ∀ (w : World) (c : Client) (sp : SensorProperty) (last : SensorInfo),
    m_clients w !! cn = Some c →
    sensorHeap w !! sensor = Some sp →
    (1 ≤ listenerCount SigSensorInfoChanged sensor cn w)%nat →
    let w' := foldl (λ w i, SensorProperty_setInfo sensor i w) w (infos ++ [last]) in
    m_clients w' !! cn
    = Some (set_pendingMetaDataChanges (<[sp_path sp := last]>) c)
    ∧ sessionBus w' = sessionBus w.
Proof.
  induction infos as [| i infos IH]; intros w c sp last Hc Hs Hl; simpl.
  - destruct (setInfo_frame w sensor sp last Hs) as (_ & Hb & _).
    split; [| done]. rewrite (setInfo_client _ _ sp) by done.
    rewrite Hc. simpl. by rewrite iter_onInfoChanged.
  - destruct (setInfo_frame w sensor sp i Hs) as (Hconn & Hb & Hh).
    set (w1 := SensorProperty_setInfo sensor i w) in *.
    assert (Hc1 : m_clients w1 !! cn = Some (onInfoChanged (withInfo i sp) c)).
    { unfold w1. rewrite (setInfo_client _ _ sp) by done.
      rewrite Hc. simpl. by rewrite iter_onInfoChanged. }
    assert (Hs1 : sensorHeap w1 !! sensor = Some (withInfo i sp)).
    { by rewrite Hh, lookup_insert_eq. }
    assert (Hl1 : (1 ≤ listenerCount SigSensorInfoChanged sensor cn w1)%nat).
    { unfold listenerCount. by rewrite Hconn. }
    destruct (IH w1 _ _ last Hc1 Hs1 Hl1) as (Hc' & Hb').
    split; [| by rewrite Hb', Hb].
    rewrite Hc'. f_equal. unfold onInfoChanged, set_pendingMetaDataChanges. simpl.
    by rewrite insert_insert_eq.
Qed.

(** C8. Whatever number of metadata changes a subscribed property goes
    through between two flushes, the client's pending metadata delta ends up
    as it was before them with the one entry of the property's path set to
    the metadata of the last change; the flush sends that map in one
    metadata frame, in which the path occurs once, with the last metadata. *)
Theorem metadata_changes_coalesce
    (w : World) (cn : string) (c : Client) (sensor : SensorPtr) (sp : SensorProperty)
    (infos : list SensorInfo) (last : SensorInfo) :
  m_clients w !! cn = Some c →
  sensorHeap w !! sensor = Some sp →
  (1 ≤ listenerCount SigSensorInfoChanged sensor cn w)%nat →
  let w' := foldl (λ w i, SensorProperty_setInfo sensor i w) w (infos ++ [last]) in
  let delta := <[sp_path sp := last]> (m_pendingMetaDataChanges c) in
  (m_pendingMetaDataChanges <$> m_clients w' !! cn) = Some delta
  ∧ metaDataFrames (sessionBus (Client_sendFrame cn w'))
    = metaDataFrames (sessionBus w) ++ [(m_serviceName c, delta)]
  ∧ filter (λ kv, kv.1 = sp_path sp) (map_to_list delta) = [(sp_path sp, last)].
Proof.
  intros Hc Hs Hl w' delta.
  destruct (setInfo_sequence cn sensor infos w c sp last Hc Hs Hl) as (Hc' & Hb').
  fold w' in Hc', Hb'.
  split; [by rewrite Hc' | split].
  - rewrite (sendFrame_metaDataFrames _ _ _ Hc'), Hb'. simpl. fold delta.
    rewrite decide_False; [done |]. unfold delta. apply insert_non_empty.
  - apply map_to_list_key_once. unfold delta. apply lookup_insert_eq.
Qed.

Lemma metadata_changes_coalesce_witness :
  let i1 := mkSensorInfo "Usage" "use" "first" 1 0 100 in
  let i2 := mkSensorInfo "Usage" "use" "second" 1 0 200 in
  let i3 := mkSensorInfo "Load" "load" "third" 1 0 300 in
  let w' := foldl (λ w i, SensorProperty_setInfo 1%nat i w) Example.subscribed [i1; i2; i3] in
  metaDataFrames (sessionBus (Client_sendFrame ":1.7" w'))
  = [(":1.7", {["cpu/cpu0/usage" := i3]})].
Proof.
  intros i1 i2 i3 w'.
  destruct (metadata_changes_coalesce Example.subscribed ":1.7" Example.peer 1%nat
              (set_subscribers (λ _, 1) Example.usage) [i1; i2] i3)
    as (_ & H & _).
  - vm_compute. reflexivity.
  - vm_compute. reflexivity.
  - vm_compute. lia.
  - etrans; [exact H |]. vm_compute. reflexivity.
Defined.

(** ** The tick *)

Lemma quiet_refl (w : World) : quiet w w.
Proof. done. Qed.

Lemma quiet_trans (w1 w2 w3 : World) : quiet w1 w2 → quiet w2 w3 → quiet w1 w3.
Proof.
  intros (A1 & B1 & C1 & D1) (A2 & B2 & C2 & D2).
  repeat split; congruence.
Qed.

Lemma foldl_quiet {A : Type} (f : World → A → World) (l : list A) (w : World) :
  (∀ w x, quiet w (f w x)) → quiet w (foldl f w l).
Proof.
  intros Hf. revert w. induction l as [| x l IH]; intros w; [done |].
  simpl. eapply quiet_trans; [apply Hf | apply IH].
Qed.

Lemma emit_quiet (sig : Signal) (sensor : SensorPtr) (w : World) :
  quiet w (emit sig sensor w).
Proof.
  unfold emit. destruct (sensorHeap w !! sensor) as [sp |]; [| done].
  repeat split. simpl.
  generalize (List.filter (listens sig sensor) (connections w)). intros l.
  generalize (m_clients w). induction l as [| k l IH]; intros cs; [done |].
  simpl. rewrite IH. unfold invoke. apply dom_alter_L.
Qed.

Lemma emit_sensorRemoved_quiet (path : string) (w : World) :
  quiet w (emit_sensorRemoved path w).
Proof. repeat split. simpl. apply dom_fmap_L. Qed.

Lemma setValue_quiet (sensor : SensorPtr) (v : QVariant) (w : World) :
  quiet w (SensorProperty_setValue sensor v w).
Proof.
  unfold SensorProperty_setValue. destruct (sensorHeap w !! sensor) as [sp |]; [| done].
  destruct (decide (sp_value sp = v)); [done |].
  match goal with |- quiet _ (emit ?sig ?s ?w') => exact (emit_quiet sig s w') end.
Qed.

Lemma setInfo_quiet (sensor : SensorPtr) (i : SensorInfo) (w : World) :
  quiet w (SensorProperty_setInfo sensor i w).
Proof.
  unfold SensorProperty_setInfo. destruct (sensorHeap w !! sensor) as [sp |]; [| done].
  match goal with |- quiet _ (emit ?sig ?s ?w') => exact (emit_quiet sig s w') end.
Qed.

Lemma removeObject_quiet (cp : ContainerPtr) (objectId : string) (w : World) :
  quiet w (SensorContainer_removeObject cp objectId w).
Proof.
  unfold SensorContainer_removeObject.
  destruct (containerHeap w !! cp) as [c |]; [| done].
  destruct (sc_objects c !! objectId) as [obj |]; [| done].
  eapply quiet_trans; [| apply foldl_quiet].
  - eapply quiet_trans; [| apply foldl_quiet].
    + split; [| split; [| split]]; reflexivity.
    + intros w' _. unfold onObjectRemoved. apply foldl_quiet.
      intros w'' s. destruct (sensorHeap w'' !! s); [| done].
      apply emit_sensorRemoved_quiet.
  - intros w' s. exact (emit_quiet SigDestroyed s w').
Qed.

Lemma perform_quiet (a : Action) (w : World) : quiet w (stateOf (perform a w)).
Proof.
  destruct a; simpl.
  - apply setValue_quiet.
  - apply setInfo_quiet.
  - apply removeObject_quiet.
  - done.
Qed.

(** A script without [Throw] runs to its end. *)
Lemma performAll_returns (acts : list Action) (w : World) :
  Throw ∉ acts → ∃ w', performAll acts w = Returned w' ∧ quiet w w'.
Proof.
  revert w. induction acts as [| a acts IH]; intros w Hno; simpl.
  - by exists w.
  - apply not_elem_of_cons in Hno as (Ha & Hno).
    pose proof (perform_quiet a w) as Hq.
    destruct (perform a w) as [w1 | w1] eqn:Hpa; simpl in Hq.
    + destruct (IH w1 Hno) as (w' & -> & Hq'). exists w'. split; [done |].
      by eapply quiet_trans.
    + destruct a; simpl in Hpa; try discriminate. done.
Qed.

(** A script with a [Throw] is left by the exception. *)
Lemma performAll_raises (acts : list Action) (w : World) :
  Throw ∈ acts → ∃ w', performAll acts w = Raised w' ∧ quiet w w'.
Proof.
  revert w. induction acts as [| a acts IH]; intros w Hin; simpl.
  - by apply elem_of_nil in Hin.
  - pose proof (perform_quiet a w) as Hq.
    destruct (perform a w) as [w1 | w1] eqn:Hpa; simpl in Hq.
    + apply elem_of_cons in Hin as [Hin | Hin].
      { subst a. simpl in Hpa. discriminate. }
      destruct (IH w1 Hin) as (w' & -> & Hq'). exists w'. split; [done |].
      by eapply quiet_trans.
    + by exists w1.
Qed.

Lemma updateProviders_returns (providers : list SensorPlugin) (w : World) :
  (∀ q, q ∈ providers → Throw ∉ update q) →
  ∃ w', updateProviders providers w = Returned w'
        ∧ callLog w' = callLog w ++ updateCalls providers
        ∧ sessionBus w' = sessionBus w
        ∧ dom (m_clients w') = dom (m_clients w).
Proof.
  revert w. induction providers as [| p ps IH]; intros w Hno; simpl.
  - exists w. by rewrite app_nil_r.
  - unfold SensorPlugin_update.
    destruct (performAll_returns (update p)
                (set_callLog (λ l, l ++ [CallUpdate (providerName p)]) w))
      as (w1 & -> & (_ & Hlog & Hbus & Hdom)); [apply Hno; left |].
    destruct (IH w1) as (w' & -> & Hlog' & Hbus' & Hdom').
    { intros q Hq. apply Hno. by right. }
    exists w'. split; [done |]. rewrite Hlog', Hlog, Hbus', Hbus, Hdom', Hdom. simpl.
    by rewrite <- app_assoc.
Qed.

Lemma updateProviders_raises (before after : list SensorPlugin) (p : SensorPlugin)
    (w : World) :
  (∀ q, q ∈ before → Throw ∉ update q) →
  Throw ∈ update p →
  ∃ w', updateProviders (before ++ p :: after) w = Raised w'
        ∧ callLog w' = callLog w ++ updateCalls (before ++ [p])
        ∧ sessionBus w' = sessionBus w.
Proof.
  revert w. induction before as [| q qs IH]; intros w Hno Hp; simpl.
  - unfold SensorPlugin_update.
    destruct (performAll_raises (update p)
                (set_callLog (λ l, l ++ [CallUpdate (providerName p)]) w) Hp)
      as (w1 & -> & (_ & Hlog & Hbus & _)).
    exists w1. by rewrite Hlog, Hbus.
  - unfold SensorPlugin_update.
    destruct (performAll_returns (update q)
                (set_callLog (λ l, l ++ [CallUpdate (providerName q)]) w))
      as (w1 & -> & (_ & Hlog & Hbus & _)); [apply Hno; left |].
    destruct (IH w1) as (w' & -> & Hlog' & Hbus'); [| done |].
    { intros q' Hq'. apply Hno. by right. }
    exists w'. split; [done |]. rewrite Hlog', Hlog, Hbus', Hbus. simpl.
    by rewrite <- app_assoc.
Qed.

Lemma sendFrame_log (cn : string) (w : World) :
  is_Some (m_clients w !! cn) →
  callLog (Client_sendFrame cn w) = callLog w ++ [CallSendFrame cn]
  ∧ dom (m_clients (Client_sendFrame cn w)) = dom (m_clients w).
Proof.
  intros [c Hc]. unfold Client_sendFrame. rewrite Hc.
  unfold sendMetaDataChanged, sendValues, send.
  destruct (decide _), (m_pendingUpdates c); simpl; (split; [done | apply dom_alter_L]).
Qed.

Lemma flushClients_log (w : World) :
  callLog (flushClients w)
  = callLog w ++ (CallSendFrame <$> (map_to_list (m_clients w)).*1).
Proof.
  unfold flushClients.
  assert (Hall : ∀ cn, cn ∈ (map_to_list (m_clients w)).*1 → cn ∈ dom (m_clients w)).
  { intros cn (kv & -> & Hin)%list_elem_of_fmap. destruct kv as [k c].
    apply elem_of_map_to_list in Hin. apply elem_of_dom. by exists c. }
  revert Hall. generalize (map_to_list (m_clients w)).*1. intros l. revert w.
  induction l as [| cn l IH]; intros w Hall; simpl; [by rewrite app_nil_r |].
  destruct (sendFrame_log cn w) as (Hlog & Hdom).
  { apply elem_of_dom, Hall. left. }
  rewrite IH.
  - rewrite Hlog. by rewrite <- app_assoc.
  - intros cn' Hin. rewrite Hdom. apply Hall. by right.
Qed.

(** C3 (amended). A tick refreshes the providers in registration order and
    has no failure isolation.  (1) When a provider's refresh throws, the
    exception leaves [Daemon::sendFrame]: the providers registered before it
    and the failing one were invoked, no later provider is, no client is
    flushed and nothing is sent.  (2) When no refresh throws, every provider
    is refreshed, in order, and then every client is flushed. *)
Theorem failing_refresh_ends_tick :
  (∀ w before p after,
     m_providers w = before ++ p :: after →
     (∀ q, q ∈ before → Throw ∉ update q) →
     Throw ∈ update p →
     ∃ w', Daemon_sendFrame w = Raised w'
           ∧ callLog w' = callLog w ++ updateCalls (before ++ [p])
           ∧ sessionBus w' = sessionBus w)
  ∧ (∀ w,
       (∀ q, q ∈ m_providers w → Throw ∉ update q) →
       ∃ w' flushCalls,
         Daemon_sendFrame w = Returned w'
         ∧ callLog w' = callLog w ++ updateCalls (m_providers w) ++ flushCalls
         ∧ ∀ c, c ∈ flushCalls ↔ ∃ cn, c = CallSendFrame cn ∧ cn ∈ dom (m_clients w)).
Proof.
  split.
  - intros w before p after Hps Hno Hp. unfold Daemon_sendFrame. rewrite Hps.
    destruct (updateProviders_raises before after p w Hno Hp) as (w' & -> & Hlog & Hbus).
    by exists w'.
  - intros w Hno. unfold Daemon_sendFrame.
    destruct (updateProviders_returns (m_providers w) w Hno)
      as (w1 & -> & Hlog & Hbus & Hdom).
    exists (flushClients w1), (CallSendFrame <$> (map_to_list (m_clients w1)).*1).
    split; [done |]. split.
    + by rewrite flushClients_log, Hlog, <- app_assoc.
    + intros c. rewrite list_elem_of_fmap. rewrite <- Hdom. split.
      * intros (cn & -> & Hin). exists cn. split; [done |].
        apply list_elem_of_fmap in Hin as ([k cl] & -> & Hin).
        apply elem_of_map_to_list in Hin. apply elem_of_dom. by exists cl.
      * intros (cn & -> & [cl Hcl]%elem_of_dom). exists cn. split; [done |].
        apply list_elem_of_fmap. exists (cn, cl). split; [done |].
        by apply elem_of_map_to_list.
Qed.

Lemma failing_refresh_ends_tick_witness :
  ∃ w', Daemon_sendFrame Example.beforeTick = Raised w'
        ∧ callLog w' = [CallUpdate "broken"]
        ∧ sessionBus w' = [].
Proof.
  destruct failing_refresh_ends_tick as (H & _).
  destruct (H Example.beforeTick [] Example.brokenPlugin [Example.cpuPlugin])
    as (w' & Hr & Hlog & Hbus).
  - vm_compute. reflexivity.
  - intros q Hq. by apply elem_of_nil in Hq.
  - vm_compute. left.
  - exists w'. split; [exact Hr |]. split.
    + rewrite Hlog. reflexivity.
    + rewrite Hbus. reflexivity.
Defined.

(** C3 (as stated) fails.  Two providers are registered, ["broken"] before
    ["cpu"], and the peer has a frequency update queued.  The refresh of
    ["broken"] throws: the refresh of ["cpu"] is not invoked, the peer is not
    flushed, and its queued update is not sent in that tick. *)
Lemma refresh_failure_isolated_counterexample :
  providerName <$> m_providers Example.beforeTick = ["broken"; "cpu"]
  ∧ m_pendingUpdates <$> m_clients Example.beforeTick !! ":1.7"
    = Some [mkSensorData "cpu/cpu0/frequency" (VInt 850)]
  ∧ ∃ w', Daemon_sendFrame Example.beforeTick = Raised w'
          ∧ callLog w' = [CallUpdate "broken"]
          ∧ (CallUpdate "cpu" ∉ callLog w')
          ∧ (CallSendFrame ":1.7" ∉ callLog w')
          ∧ sessionBus w' = []
          ∧ m_pendingUpdates <$> m_clients w' !! ":1.7"
            = Some [mkSensorData "cpu/cpu0/frequency" (VInt 850)].
Proof.
  split; [vm_compute; reflexivity |].
  split; [vm_compute; reflexivity |].
  eexists. split; [vm_compute; reflexivity |].
  assert (Hlog : ∀ c, c ∈ [CallUpdate "broken"] → c = CallUpdate "broken").
  { intros c Hc. by apply list_elem_of_singleton in Hc. }
  split; [reflexivity |].
  split; [intros Hc; apply Hlog in Hc; discriminate |].
  split; [intros Hc; apply Hlog in Hc; discriminate |].
  split; [reflexivity |].
  vm_compute. reflexivity.
Qed.

(** ** Removal of an object *)

Lemma hasSlash_append (a b : string) :
  hasSlash (a +:+ b) = hasSlash a || hasSlash b.
Proof.
  induction a as [| x a IH]; [done |].
  change (Ascii.eqb x slash || hasSlash (a +:+ b)
          = (Ascii.eqb x slash || hasSlash a) || hasSlash b).
  rewrite IH. by destruct (Ascii.eqb x slash), (hasSlash a).
Qed.

(** Cutting at the first slash is unambiguous. *)
Lemma append_slash_inj (a a' r r' : string) :
  hasSlash a = false → hasSlash a' = false →
  a +:+ String slash r = a' +:+ String slash r' →
  a = a' ∧ r = r'.
Proof.
  revert a'. induction a as [| x a IH]; intros a' Ha Ha' Heq.
  - destruct a' as [| x' a'].
    + by injection Heq as ->.
    + injection Heq as Hx _. apply hasSlash_cons in Ha' as (Hx' & _).
      subst x'. by rewrite Ascii.eqb_refl in Hx'.
  - apply hasSlash_cons in Ha as (Hx & Ha).
    destruct a' as [| x' a'].
    + injection Heq as Hx' _. subst x. by rewrite Ascii.eqb_refl in Hx.
    + apply hasSlash_cons in Ha' as (Hx' & Ha').
      injection Heq as -> Heq. destruct (IH a' Ha Ha' Heq) as (-> & ->). done.
Qed.

Lemma sensorPathOf_inj (c o s c' o' s' : string) :
  hasSlash c = false → hasSlash o = false →
  hasSlash c' = false → hasSlash o' = false →
  sensorPathOf c o s = sensorPathOf c' o' s' →
  c = c' ∧ o = o' ∧ s = s'.
Proof.
  intros Hc Ho Hc' Ho' Heq. unfold sensorPathOf in Heq.
  apply (append_slash_inj c c') in Heq as (-> & Heq); [| done | done].
  apply (append_slash_inj o o') in Heq as (-> & ->); done.
Qed.

Lemma elem_of_values {K : Type} `{Countable K} {V : Type} (m : gmap K V) (v : V) :
  v ∈ (map_to_list m).*2 ↔ ∃ k, m !! k = Some v.
Proof.
  rewrite list_elem_of_fmap. split.
  - intros ([k v'] & -> & Hin). exists k. by apply elem_of_map_to_list.
  - intros (k & Hk). exists (k, v). split; [done |]. by apply elem_of_map_to_list.
Qed.

Lemma foldl_addSensorInfo_key (w : World) (l : list SensorPtr) (m : gmap string SensorInfo)
    (k : string) :
  is_Some (foldl (addSensorInfo w) m l !! k) →
  is_Some (m !! k) ∨ ∃ s sp, s ∈ l ∧ sensorHeap w !! s = Some sp ∧ k = sp_path sp.
Proof.
  revert m. induction l as [| s l IH]; intros m Hk; simpl in Hk; [by left |].
  apply IH in Hk as [Hk | (s' & sp & Hin & Hs & ->)].
  - unfold addSensorInfo in Hk. destruct (sensorHeap w !! s) as [sp |] eqn:Hs; [| by left].
    destruct (decide (sp_path sp = k)) as [<- | Hne].
    + right. exists s, sp. split; [left | done].
    + rewrite lookup_insert_ne in Hk by done. by left.
  - right. exists s', sp. split; [by right | done].
Qed.

Lemma addObjectInfo_key (w : World) (obj : SensorObject) (m : gmap string SensorInfo)
    (k : string) :
  is_Some (addObjectInfo w m obj !! k) →
  is_Some (m !! k) ∨ k = so_path obj
  ∨ ∃ sid s sp, so_sensors obj !! sid = Some s ∧ sensorHeap w !! s = Some sp ∧ k = sp_path sp.
Proof.
  unfold addObjectInfo. intros Hk.
  apply foldl_addSensorInfo_key in Hk as [Hk | (s & sp & Hin & Hs & ->)].
  - destruct (decide (so_path obj = k)) as [<- | Hne]; [right; by left |].
    rewrite lookup_insert_ne in Hk by done. by left.
  - right. right. apply elem_of_values in Hin as (sid & Hsid). by exists sid, s, sp.
Qed.

Lemma foldl_addObjectInfo_key (w : World) (l : list SensorObject)
    (m : gmap string SensorInfo) (k : string) :
  is_Some (foldl (addObjectInfo w) m l !! k) →
  is_Some (m !! k)
  ∨ ∃ obj, obj ∈ l
      ∧ (k = so_path obj
         ∨ ∃ sid s sp,
             so_sensors obj !! sid = Some s ∧ sensorHeap w !! s = Some sp ∧ k = sp_path sp).
Proof.
  revert m. induction l as [| obj l IH]; intros m Hk; simpl in Hk; [by left |].
  apply IH in Hk as [Hk | (obj' & Hin & Hk)].
  - apply addObjectInfo_key in Hk as [Hk | Hk]; [by left |].
    right. exists obj. split; [left | done].
  - right. exists obj'. split; [by right | done].
Qed.

Lemma foldl_addContainerInfo_key (w : World) (l : list ContainerPtr)
    (m : gmap string SensorInfo) (k : string) :
  is_Some (foldl (addContainerInfo w) m l !! k) →
  is_Some (m !! k)
  ∨ ∃ cp c, cp ∈ l ∧ containerHeap w !! cp = Some c
      ∧ (k = sc_id c
         ∨ ∃ oid obj, sc_objects c !! oid = Some obj
             ∧ (k = so_path obj
                ∨ ∃ sid s sp,
                    so_sensors obj !! sid = Some s
                    ∧ sensorHeap w !! s = Some sp ∧ k = sp_path sp)).
Proof.
  revert m. induction l as [| cp l IH]; intros m Hk; simpl in Hk; [by left |].
  apply IH in Hk as [Hk | (cp' & c & Hin & Hc & Hk)].
  - unfold addContainerInfo in Hk.
    destruct (containerHeap w !! cp) as [c |] eqn:Hc; [| by left].
    apply foldl_addObjectInfo_key in Hk as [Hk | (obj & Hin & Hk)].
    + destruct (decide (sc_id c = k)) as [<- | Hne].
      * right. exists cp, c. split; [left |]. split; [done | by left].
      * rewrite lookup_insert_ne in Hk by done. by left.
    + right. exists cp, c. split; [left |]. split; [done |]. right.
      apply elem_of_values in Hin as (oid & Hoid). by exists oid, obj.
  - right. exists cp', c. split; [by right | done].
Qed.

(** Every key of the discovery map is the id of an indexed container, the
    path of one of its objects, or the path of one of their sensors. *)
Lemma allSensors_key (w : World) (k : string) :
  is_Some (allSensors w !! k) → Listed w k.
Proof.
  unfold allSensors. intros Hk.
  apply foldl_addContainerInfo_key in Hk as [Hk | (cp & c & Hin & Hc & Hk)].
  - rewrite lookup_empty in Hk. by destruct Hk.
  - apply elem_of_values in Hin as (cid & Hcid).
    destruct Hk as [-> | (oid & obj & Hobj & [-> | (sid & s & sp & Hs & Hsp & ->)])].
    + by eapply ListedContainer.
    + by eapply ListedObject.
    + by eapply ListedSensor.
Qed.

Lemma shrinks_refl (w : World) : shrinks w w.
Proof. done. Qed.

Lemma shrinks_trans (w1 w2 w3 : World) : shrinks w1 w2 → shrinks w2 w3 → shrinks w1 w3.
Proof.
  intros (A1 & B1 & C1) (A2 & B2 & C2). split; [congruence |]. split; [congruence |].
  by etrans.
Qed.

Lemma foldl_shrinks {A : Type} (f : World → A → World) (l : list A) (w : World) :
  (∀ w x, shrinks w (f w x)) → shrinks w (foldl f w l).
Proof.
  intros Hf. revert w. induction l as [| x l IH]; intros w; [done |].
  simpl. eapply shrinks_trans; [apply Hf | apply IH].
Qed.

Lemma emit_shrinks (sig : Signal) (sensor : SensorPtr) (w : World) :
  shrinks w (emit sig sensor w).
Proof.
  destruct (emit_frame sig sensor w) as (_ & H1 & H2 & H3 & _).
  split; [done |]. split; [done |]. by rewrite H2.
Qed.

Lemma destroySensor_shrinks (w : World) (sensor : SensorPtr) :
  shrinks w (destroySensor w sensor).
Proof.
  destruct (emit_frame SigDestroyed sensor w) as (_ & H1 & H2 & H3 & _).
  unfold destroySensor. split; [done |]. split; [done |]. simpl. rewrite H2.
  apply delete_subseteq.
Qed.

Lemma onObjectRemoved_frame (obj : SensorObject) (w : World) :
  m_containers (onObjectRemoved obj w) = m_containers w
  ∧ containerHeap (onObjectRemoved obj w) = containerHeap w
  ∧ sensorHeap (onObjectRemoved obj w) = sensorHeap w
  ∧ containerSlots (onObjectRemoved obj w) = containerSlots w.
Proof.
  unfold onObjectRemoved. generalize (sensorsOf obj). intros l. revert w.
  induction l as [| s l IH]; intros w; [done |].
  simpl. destruct (IH (match sensorHeap w !! s with
                       | Some sp => emit_sensorRemoved (sp_path sp) w
                       | None => w
                       end)) as (-> & -> & -> & ->).
  by destruct (sensorHeap w !! s).
Qed.

Lemma clients_alter (P : Client → Prop) (f : Client → Client) (cn : string)
    (cs : gmap string Client) :
  (∀ c, P c → P (f c)) → map_Forall (λ _, P) cs → map_Forall (λ _, P) (alter f cn cs).
Proof.
  intros Hf Hcs cn' c' Hl. apply lookup_alter_Some in Hl as [(-> & c & Hc & ->) | (_ & Hc)].
  - apply Hf. by apply (Hcs cn').
  - by apply (Hcs cn').
Qed.

Lemma emit_sensorRemoved_unsubscribes (path : string) (w : World) :
  unsubscribedFrom path (emit_sensorRemoved path w).
Proof.
  intros cn cl Hl. simpl in Hl. apply lookup_fmap_Some in Hl as (c & <- & _).
  simpl. apply lookup_delete_eq.
Qed.

Lemma emit_sensorRemoved_unsubscribedFrom (path other : string) (w : World) :
  unsubscribedFrom path w → unsubscribedFrom path (emit_sensorRemoved other w).
Proof.
  intros Hw cn cl Hl. simpl in Hl. apply lookup_fmap_Some in Hl as (c & <- & Hc).
  simpl. apply lookup_delete_None. right. by apply (Hw cn).
Qed.

Lemma emit_unsubscribedFrom (path : string) (sig : Signal) (sensor : SensorPtr) (w : World) :
  unsubscribedFrom path w → unsubscribedFrom path (emit sig sensor w).
Proof.
  unfold unsubscribedFrom, emit. intros Hw.
  destruct (sensorHeap w !! sensor) as [sp |]; [| done]. simpl.
  generalize (List.filter (listens sig sensor) (connections w)). intros l.
  revert Hw. generalize (m_clients w). induction l as [| k l IH]; intros cs Hcs; [done |].
  simpl. apply IH. unfold invoke.
  apply (clients_alter (λ cl, m_subscribedSensors cl !! path = None)); [| done].
  intros c Hc. destruct sig; simpl; [unfold onValueChanged; by destruct (negb _) | done |].
  apply lookup_delete_None. by right.
Qed.

Lemma onObjectRemoved_unsubscribedFrom (path : string) (obj : SensorObject) (w : World) :
  unsubscribedFrom path w → unsubscribedFrom path (onObjectRemoved obj w).
Proof.
  unfold onObjectRemoved. generalize (sensorsOf obj). intros l. revert w.
  induction l as [| s l IH]; intros w Hw; [done |].
  simpl. apply IH. destruct (sensorHeap w !! s); [| done].
  by apply emit_sensorRemoved_unsubscribedFrom.
Qed.

(** The daemon's handler announces every live sensor of the object, and
    every client drops the announced path. *)
Lemma onObjectRemoved_unsubscribes (obj : SensorObject) (sid : string) (s : SensorPtr)
    (sp : SensorProperty) (w : World) :
  so_sensors obj !! sid = Some s →
  sensorHeap w !! s = Some sp →
  unsubscribedFrom (sp_path sp) (onObjectRemoved obj w).
Proof.
  intros Hsid Hs.
  assert (Hin : s ∈ sensorsOf obj) by (apply elem_of_values; by exists sid).
  unfold onObjectRemoved. revert Hin. generalize (sensorsOf obj). intros l. revert w Hs.
  induction l as [| x l IH]; intros w Hs Hin; [by apply elem_of_nil in Hin |].
  simpl. apply elem_of_cons in Hin as [<- | Hin].
  - rewrite Hs.
    clear IH.
    assert (Hgen : ∀ l w, unsubscribedFrom (sp_path sp) w →
              unsubscribedFrom (sp_path sp)
                (foldl (λ w sensor,
                          match sensorHeap w !! sensor with
                          | Some sp => emit_sensorRemoved (sp_path sp) w
                          | None => w
                          end) w l)).
    { clear. induction l as [| y l IHl]; intros w Hw; [done |].
      simpl. apply IHl. destruct (sensorHeap w !! y); [| done].
      by apply emit_sensorRemoved_unsubscribedFrom. }
    apply Hgen. apply emit_sensorRemoved_unsubscribes.
  - apply IH; [| done]. by destruct (sensorHeap w !! x).
Qed.

Lemma removeObject_stores (cp : ContainerPtr) (objectId : string) (c : SensorContainer)
    (obj : SensorObject) (w : World) :
  containerHeap w !! cp = Some c →
  sc_objects c !! objectId = Some obj →
  let w' := SensorContainer_removeObject cp objectId w in
  m_containers w' = m_containers w
  ∧ containerHeap w'
    = <[cp := mkSensorContainer (sc_id c) (sc_name c) (delete objectId (sc_objects c))]>
        (containerHeap w)
  ∧ sensorHeap w' ⊆ sensorHeap w.
Proof.
  intros Hc Hobj. unfold SensorContainer_removeObject. rewrite Hc, Hobj.
  set (w1 := set_containerHeap _ w).
  set (w2 := foldl (λ w _, onObjectRemoved obj w) w1 _).
  assert (H12 : shrinks w1 w2).
  { apply foldl_shrinks. intros w' _.
    destruct (onObjectRemoved_frame obj w') as (A & B & C & _).
    split; [done |]. split; [done |]. by rewrite C. }
  assert (H23 : shrinks w2 (foldl destroySensor w2 (sensorsOf obj))).
  { apply foldl_shrinks. apply destroySensor_shrinks. }
  destruct (shrinks_trans _ _ _ H12 H23) as (A & B & C).
  split; [by rewrite A |]. split; [by rewrite B |]. exact C.
Qed.

Lemma removeObject_unsubscribes (cp : ContainerPtr) (objectId : string)
    (c : SensorContainer) (obj : SensorObject) (sid : string) (s : SensorPtr)
    (sp : SensorProperty) (w : World) :
  containerHeap w !! cp = Some c →
  sc_objects c !! objectId = Some obj →
  cp ∈ containerSlots w →
  so_sensors obj !! sid = Some s →
  sensorHeap w !! s = Some sp →
  unsubscribedFrom (sp_path sp) (SensorContainer_removeObject cp objectId w).
Proof.
  intros Hc Hobj Hslot Hsid Hs. unfold SensorContainer_removeObject. rewrite Hc, Hobj.
  set (w1 := set_containerHeap _ w).
  assert (Hs1 : sensorHeap w1 !! s = Some sp) by done.
  assert (Hhandlers : List.filter (Nat.eqb cp) (containerSlots w1) ≠ []).
  { intros Hnil. apply list_elem_of_In in Hslot.
    assert (Hin : In cp (List.filter (Nat.eqb cp) (containerSlots w1))).
    { apply List.filter_In. split; [done | apply Nat.eqb_refl]. }
    by rewrite Hnil in Hin. }
  assert (H2 : unsubscribedFrom (sp_path sp)
                 (foldl (λ w _, onObjectRemoved obj w) w1
                    (List.filter (Nat.eqb cp) (containerSlots w1)))).
  { destruct (List.filter (Nat.eqb cp) (containerSlots w1)) as [| h hs]; [done |].
    simpl. clear Hhandlers.
    pose proof (onObjectRemoved_unsubscribes obj sid s sp w1 Hsid Hs1) as H1.
    revert H1. generalize (onObjectRemoved obj w1). induction hs as [| h' hs IH]; [done |].
    intros w' Hw'. simpl. apply IH. by apply onObjectRemoved_unsubscribedFrom. }
  revert H2. generalize (foldl (λ w _, onObjectRemoved obj w) w1
                           (List.filter (Nat.eqb cp) (containerSlots w1))).
  generalize (sensorsOf obj). intros l. induction l as [| x l IH]; intros w2 Hw2; [done |].
  simpl. apply IH. exact (emit_unsubscribedFrom _ SigDestroyed x w2 Hw2).
Qed.

(** After the removal no key of the discovery map is the path of a sensor
    of the removed object. *)
Lemma removeObject_unlists (cid : string) (cp : ContainerPtr) (c : SensorContainer)
    (oid : string) (obj : SensorObject) (sid : string) (s : SensorPtr) (w : World) :
  RegistryWF w →
  m_containers w !! cid = Some cp →
  containerHeap w !! cp = Some c →
  sc_objects c !! oid = Some obj →
  ¬ Listed (SensorContainer_removeObject cp oid w) (sensorPathOf cid oid sid).
Proof.
  intros Hwf Hcid Hc Hobj.
  destruct (removeObject_stores cp oid c obj w Hc Hobj) as (Hm & Hh & Hsub).
  destruct (wf_container w Hwf cid cp Hcid) as (Hcs & _).
  destruct (wf_object w Hwf cid cp c oid obj Hcid Hc Hobj) as (Hos & _).
  assert (Hold : ∀ cid' cp' c',
            m_containers w !! cid' = Some cp' →
            containerHeap (SensorContainer_removeObject cp oid w) !! cp' = Some c' →
            ∃ c0, containerHeap w !! cp' = Some c0 ∧ sc_id c' = sc_id c0
                  ∧ (∀ oid' obj', sc_objects c' !! oid' = Some obj' →
                       sc_objects c0 !! oid' = Some obj' ∧ (cp' = cp → oid' ≠ oid))).
  { intros cid' cp' c' Hcid' Hc'. rewrite Hh in Hc'.
    destruct (decide (cp = cp')) as [<- | Hne].
    - rewrite lookup_insert_eq in Hc'. injection Hc' as <-. exists c.
      split; [done |]. split; [done |]. simpl. intros oid' obj' Ho'.
      apply lookup_delete_Some in Ho' as (Hne & Ho'). done.
    - rewrite lookup_insert_ne in Hc' by done. exists c'.
      split; [done |]. split; [done |]. intros oid' obj' Ho'. split; [done |].
      intros E. by rewrite E in Hne. }
  intros [cid' cp' c' Hcid' Hc' Hk
         | cid' cp' c' oid' obj' Hcid' Hc' Ho' Hk
         | cid' cp' c' oid' obj' sid' s' sp' Hcid' Hc' Ho' Hs' Hsp' Hk];
    rewrite Hm in Hcid';
    destruct (Hold cid' cp' c' Hcid' Hc') as (c0 & Hc0 & Hid & Hobjs);
    destruct (wf_container w Hwf cid' cp' Hcid') as (Hcs' & c0' & Hc0' & Hid0);
    rewrite Hc0 in Hc0'; injection Hc0' as <-.
  - (* a container id holds no slash *)
    assert (Hsl : hasSlash (sensorPathOf cid oid sid) = true).
    { unfold sensorPathOf. rewrite hasSlash_append. simpl. apply orb_true_r. }
    rewrite Hk, Hid, Hid0, Hcs' in Hsl. discriminate.
  - (* an object path holds one slash *)
    destruct (Hobjs oid' obj' Ho') as (Ho0 & _).
    destruct (wf_object w Hwf cid' cp' c0 oid' obj' Hcid' Hc0 Ho0) as (Hos' & Hpath).
    rewrite Hpath in Hk. unfold sensorPathOf in Hk.
    apply (append_slash_inj cid cid') in Hk as (_ & Hk); [| done | done].
    assert (Hsl : hasSlash oid' = true).
    { rewrite <- Hk, hasSlash_append. simpl. apply orb_true_r. }
    rewrite Hos' in Hsl. discriminate.
  - (* a sensor path names its container and object *)
    destruct (Hobjs oid' obj' Ho') as (Ho0 & Hne).
    destruct (wf_object w Hwf cid' cp' c0 oid' obj' Hcid' Hc0 Ho0) as (Hos' & _).
    destruct (wf_sensor w Hwf cid' cp' c0 oid' obj' sid' s' Hcid' Hc0 Ho0 Hs')
      as (_ & sp0 & Hsp0 & Hpath).
    assert (sp' = sp0) as ->.
    { pose proof (lookup_weaken _ _ _ _ Hsp' Hsub) as H. rewrite Hsp0 in H.
      by injection H. }
    rewrite Hpath in Hk.
    apply sensorPathOf_inj in Hk as (-> & -> & _); [| done | done | done | done].
    rewrite Hcid in Hcid'. injection Hcid' as <-. by apply Hne.
Qed.

(** C9. A plugin destroys an object of a registered container.  For each
    property of that object: its path is no longer a key of the discovery
    map [allSensors], the path no longer resolves, no client's subscribed
    set holds the path any more, and nothing is surfaced to the clients: the
    same clients exist and no message is sent. *)
Theorem object_removal_drops_property
    (w : World) (cid : string) (cp : ContainerPtr) (c : SensorContainer)
    (oid : string) (obj : SensorObject) (sid : string) (s : SensorPtr)
    (sp : SensorProperty) :
  RegistryWF w →
  m_containers w !! cid = Some cp →
  containerHeap w !! cp = Some c →
  cp ∈ containerSlots w →
  sc_objects c !! oid = Some obj →
  so_sensors obj !! sid = Some s →
  sensorHeap w !! s = Some sp →
  let w' := SensorContainer_removeObject cp oid w in
  allSensors w' !! sp_path sp = None
  ∧ findSensor w' (sp_path sp) = None
  ∧ (∀ cn cl, m_clients w' !! cn = Some cl → m_subscribedSensors cl !! sp_path sp = None)
  ∧ dom (m_clients w') = dom (m_clients w)
  ∧ sessionBus w' = sessionBus w.
Proof.
  intros Hwf Hcid Hc Hslot Hobj Hsid Hs w'.
  destruct (wf_container w Hwf cid cp Hcid) as (Hcs & _).
  destruct (wf_sensor w Hwf cid cp c oid obj sid s Hcid Hc Hobj Hsid)
    as (Hss & sp0 & Hsp0 & Hpath).
  rewrite Hs in Hsp0. injection Hsp0 as <-.
  destruct (removeObject_stores cp oid c obj w Hc Hobj) as (Hm & Hh & _).
  destruct (removeObject_quiet cp oid w) as (_ & _ & Hbus & Hdom).
  split; [| split; [| split; [| by split]]].
  - destruct (allSensors w' !! sp_path sp) as [i |] eqn:Hk; [| done].
    exfalso. apply (removeObject_unlists cid cp c oid obj sid s w Hwf Hcid Hc Hobj).
    rewrite <- Hpath. apply allSensors_key. fold w'. by rewrite Hk.
  - destruct (segments_of_sensorPath cid oid sid Hcs Hss) as (H1 & H2 & H3).
    unfold findSensor. rewrite Hpath, H1, H2, H3. unfold w'. rewrite Hm, Hcid, Hh.
    rewrite lookup_insert_eq. simpl. by rewrite lookup_delete_eq.
  - intros cn cl Hcl.
    by apply (removeObject_unsubscribes cp oid c obj sid s sp w Hc Hobj Hslot Hsid Hs cn).
Qed.

Lemma example_registry_wf : RegistryWF Example.subscribed.
Proof.
  assert (Hm : m_containers Example.subscribed = {["cpu" := 10%nat]})
    by (vm_compute; reflexivity).
  assert (Hh : containerHeap Example.subscribed = {[10%nat := Example.cpu]})
    by (vm_compute; reflexivity).
  assert (H1 : sensorHeap Example.subscribed !! 1%nat
               = Some (set_subscribers (λ _, 1) Example.usage))
    by (vm_compute; reflexivity).
  assert (H2 : sensorHeap Example.subscribed !! 2%nat
               = Some (set_subscribers (λ _, 1) Example.frequency))
    by (vm_compute; reflexivity).
  assert (Hobjs : ∀ oid obj, sc_objects Example.cpu !! oid = Some obj →
                             oid = "cpu0" ∧ obj = Example.cpu0).
  { intros oid obj H. simpl in H.
    apply lookup_insert_Some in H as [(<- & <-) | (_ & H)]; [done |].
    by rewrite lookup_empty in H. }
  split.
  - intros cid cp H. rewrite Hm in H. apply lookup_singleton_Some in H as (<- & <-).
    split; [reflexivity |]. exists Example.cpu. by rewrite Hh, lookup_singleton_eq.
  - intros cid cp c oid obj H Hc Ho. rewrite Hm in H.
    apply lookup_singleton_Some in H as (<- & <-).
    rewrite Hh, lookup_singleton_eq in Hc. injection Hc as <-.
    apply Hobjs in Ho as (-> & ->). done.
  - intros cid cp c oid obj sid s H Hc Ho Hs. rewrite Hm in H.
    apply lookup_singleton_Some in H as (<- & <-).
    rewrite Hh, lookup_singleton_eq in Hc. injection Hc as <-.
    apply Hobjs in Ho as (-> & ->). simpl in Hs.
    apply lookup_insert_Some in Hs as [(<- & <-) | (_ & Hs)].
    { split; [reflexivity |]. eexists. split; [exact H1 | reflexivity]. }
    apply lookup_insert_Some in Hs as [(<- & <-) | (_ & Hs)].
    { split; [reflexivity |]. eexists. split; [exact H2 | reflexivity]. }
    by rewrite lookup_empty in Hs.
Defined.

Lemma object_removal_drops_property_witness :
  let w' := SensorContainer_removeObject 10%nat "cpu0" Example.subscribed in
  m_subscribedSensors <$> m_clients Example.subscribed !! ":1.7"
    = Some (<["cpu/cpu0/usage" := 1%nat]> {["cpu/cpu0/frequency" := 2%nat]})
  ∧ is_Some (allSensors Example.subscribed !! "cpu/cpu0/usage")
  ∧ allSensors w' !! "cpu/cpu0/usage" = None
  ∧ findSensor w' "cpu/cpu0/usage" = None
  ∧ (∀ cn cl, m_clients w' !! cn = Some cl →
              m_subscribedSensors cl !! "cpu/cpu0/usage" = None)
  ∧ sessionBus w' = [].
Proof.
  intros w'.
  split; [vm_compute; reflexivity |].
  split; [vm_compute; eexists; reflexivity |].
  destruct (object_removal_drops_property Example.subscribed "cpu" 10%nat Example.cpu
              "cpu0" Example.cpu0 "usage" 1%nat (set_subscribers (λ _, 1) Example.usage))
    as (H1 & H2 & H3 & _ & H5).
  - exact example_registry_wf.
  - vm_compute. reflexivity.
  - vm_compute. reflexivity.
  - vm_compute. left.
  - vm_compute. reflexivity.
  - vm_compute. reflexivity.
  - vm_compute. reflexivity.
  - split; [exact H1 |]. split; [exact H2 |]. split; [exact H3 |].
    etrans; [exact H5 | reflexivity].
Defined.

(** ** A single subscription gives one listener *)

Lemma subscribeSensor_listenerCount_other (cn : string) (w : World) (sensorPath : string)
    (sensor other : SensorPtr) (sig : Signal) :
  findSensor w sensorPath = Some sensor →
  other ≠ sensor →
  listenerCount sig other cn (subscribeSensor cn w sensorPath) = listenerCount sig other cn w.
Proof.
  intros Hf Hne.
  destruct (subscribeSensor_resolved cn w sensorPath sensor Hf) as (_ & _ & Hc & _).
  rewrite (listenerCount_app _ _ _ w _ _ Hc).
  unfold newConnections, listens. simpl.
  rewrite !(bool_decide_eq_false_2 (sensor = other)) by done. simpl. lia.
Qed.

(** A client without listeners on two distinct sensors that subscribes to
    both, once each, holds exactly one value listener on each. *)
Lemma subscribe_once_listenerCount (cn : string) (w : World) (pathA pathB : string)
    (sA sB : SensorPtr) :
  findSensor w pathA = Some sA →
  findSensor w pathB = Some sB →
  sA ≠ sB →
  listenerCount SigValueChanged sA cn w = 0%nat →
  listenerCount SigValueChanged sB cn w = 0%nat →
  listenerCount SigValueChanged sA cn (subscribeSensors cn [pathA; pathB] w) = 1%nat
  ∧ listenerCount SigValueChanged sB cn (subscribeSensors cn [pathA; pathB] w) = 1%nat.
Proof.
  intros HA HB Hne H0A H0B. unfold subscribeSensors. simpl.
  assert (HB' : findSensor (subscribeSensor cn w pathA) pathB = Some sB).
  { destruct (subscribeSensor_registry cn w pathA) as (H1 & H2).
    by rewrite (findSensor_ext w). }
  split.
  - rewrite (subscribeSensor_listenerCount_other _ _ _ sB) by done.
    rewrite (subscribeSensor_listenerCount _ _ _ sA) by done. by rewrite H0A.
  - rewrite (subscribeSensor_listenerCount _ _ _ sB) by done.
    rewrite (subscribeSensor_listenerCount_other _ _ _ sA) by done. by rewrite H0B.
Qed.

Lemma filter_none {A : Type} (f : A → bool) (l : list A) :
  (∀ x, x ∈ l → f x = false) → List.filter f l = [].
Proof.
  induction l as [| x l IH]; intros H; [done |].
  simpl. rewrite (H x) by left. apply IH. intros y Hy. apply H. by right.
Qed.

(** When the handles a client stored for a sensor are those of all its
    connections to that sensor, unsubscribing the sensor's path leaves the
    client without any listener on it: later changes queue nothing. *)
Lemma unsubscribeSensor_disconnects (cn : string) (w : World) (sensorPath : string)
    (c : Client) (sensor : SensorPtr) (k : Connections) (sig : Signal) :
  m_clients w !! cn = Some c →
  m_subscribedSensors c !! sensorPath = Some sensor →
  m_connections c !! sensor = Some k →
  (∀ conn, conn ∈ connections w →
     conn_sender conn = sensor → conn_receiver conn = cn →
     conn_handle conn = valueChanged k
     ∨ conn_handle conn = infoChanged k
     ∨ conn_handle conn = destroyed k) →
  listenerCount sig sensor cn (unsubscribeSensor cn w sensorPath) = 0%nat.
Proof.
  intros Hc Hsub Hk Hall. unfold unsubscribeSensor. rewrite Hc, Hsub, Hk.
  unfold listenerCount, SensorProperty_unsubscribe, disconnect. simpl.
  rewrite filter_none; [done |].
  intros conn Hin.
  apply list_elem_of_filter in Hin as (Hd & Hin).
  apply list_elem_of_filter in Hin as (Hi & Hin).
  apply list_elem_of_filter in Hin as (Hv & Hin).
  unfold listens.
  destruct (bool_decide (conn_sender conn = sensor)) eqn:E1; [| done].
  destruct (bool_decide (conn_receiver conn = cn)) eqn:E2; [| by rewrite andb_false_r].
  apply bool_decide_eq_true_1 in E1, E2.
  destruct (Hall conn Hin E1 E2) as [H | [H | H]]; congruence.
Qed.

(** * Further properties *)

(** ** Queries *)

Lemma foldl_sensors_lookup (w : World) (l : list string) (m : gmap string SensorInfo)
    (p : string) :
  foldl (λ si path,
           match findSensor w path with
           | Some sensor =>
               match sensorHeap w !! sensor with
               | Some sp => <[path := sp_info sp]> si
               | None => si
               end
           | None => si
           end) m l !! p
  = if decide (p ∈ l) then
      match infoAt w p with
      | Some i => Some i
      | None => m !! p
      end
    else m !! p.
Proof.
  revert m. induction l as [| q l IH]; intros m; simpl; [done |].
  rewrite IH. unfold infoAt.
  destruct (decide (p = q)) as [-> | Hne].
  - rewrite (decide_True (P := q ∈ q :: l)) by left.
    destruct (findSensor w q) as [s |]; simpl.
    + destruct (sensorHeap w !! s) as [sp |]; simpl.
      * rewrite lookup_insert_eq. by destruct (decide (q ∈ l)).
      * by destruct (decide (q ∈ l)).
    + by destruct (decide (q ∈ l)).
  - assert (Hm : (match findSensor w q with
                  | Some sensor =>
                      match sensorHeap w !! sensor with
                      | Some sp => <[q := sp_info sp]> m
                      | None => m
                      end
                  | None => m
                  end) !! p = m !! p).
    { destruct (findSensor w q) as [s |]; [| done].
      destruct (sensorHeap w !! s); [| done]. by rewrite lookup_insert_ne. }
    rewrite Hm.
    destruct (decide (p ∈ l)) as [Hin | Hnin].
    + by rewrite (decide_True (P := p ∈ q :: l)) by (by right).
    + rewrite (decide_False (P := p ∈ q :: l)); [done |].
      intros [? | ?]%elem_of_cons; done.
Qed.

(** X1. [Daemon::sensors] answers exactly for the requested paths that
    resolve to a live sensor, each with that sensor's current metadata;
    a requested path that does not resolve, and every path that was not
    requested, is absent from the answer. *)
Theorem sensors_lookup (w : World) (sensorPaths : list string) (p : string) :
  sensors w sensorPaths !! p = if decide (p ∈ sensorPaths) then infoAt w p else None.
Proof.
  unfold sensors. rewrite foldl_sensors_lookup, lookup_empty.
  destruct (decide (p ∈ sensorPaths)); [| done]. by destruct (infoAt w p).
Qed.

Lemma foldl_sensorData (w : World) (l : list string) (acc : list SensorData) :
  foldl (sensorDataStep w) acc l = acc ++ omap (currentValue w) l.
Proof.
  revert acc. induction l as [| p l IH]; intros acc; simpl; [by rewrite app_nil_r |].
  rewrite IH. unfold sensorDataStep, currentValue.
  destruct (findSensor w p) as [s |]; [| done].
  destruct (sensorHeap w !! s) as [sp |]; [| done].
  destruct (isValid (sp_value sp)); [| done]. by rewrite <- app_assoc.
Qed.

(** X2. [Daemon::sensorData] answers in request order with one entry per
    requested occurrence of a path that resolves to a live sensor with a
    valid value, labelled with the path as requested; so the answer to a
    concatenated request is the concatenation of the answers. *)
Theorem sensorData_in_request_order (w : World) (sensorIds more : list string) :
  sensorData w sensorIds = omap (currentValue w) sensorIds
  ∧ sensorData w (sensorIds ++ more) = sensorData w sensorIds ++ sensorData w more.
Proof.
  assert (H : ∀ l, sensorData w l = omap (currentValue w) l).
  { intros l. unfold sensorData. by rewrite foldl_sensorData. }
  split; [apply H |]. by rewrite !H, omap_app.
Qed.

(** ** The discovery map *)

Lemma foldl_addSensorInfo_entry (w : World) (l : list SensorPtr) (m : gmap string SensorInfo)
    (k : string) (v : SensorInfo) :
  foldl (addSensorInfo w) m l !! k = Some v →
  m !! k = Some v
  ∨ ∃ s sp, s ∈ l ∧ sensorHeap w !! s = Some sp ∧ k = sp_path sp ∧ v = sp_info sp.
Proof.
  revert m. induction l as [| s l IH]; intros m Hk; simpl in Hk; [by left |].
  apply IH in Hk as [Hk | (s' & sp & Hin & Hs & -> & ->)].
  - unfold addSensorInfo in Hk. destruct (sensorHeap w !! s) as [sp |] eqn:Hs; [| by left].
    apply lookup_insert_Some in Hk as [(<- & <-) | (_ & Hk)]; [| by left].
    right. exists s, sp. split; [left | done].
  - right. exists s', sp. split; [by right | done].
Qed.

Lemma foldl_addObjectInfo_entry (w : World) (l : list SensorObject)
    (m : gmap string SensorInfo) (k : string) (v : SensorInfo) :
  foldl (addObjectInfo w) m l !! k = Some v →
  m !! k = Some v
  ∨ ∃ obj, obj ∈ l
      ∧ ((k = so_path obj ∧ v = namedInfo (so_name obj))
         ∨ ∃ sid s sp,
             so_sensors obj !! sid = Some s ∧ sensorHeap w !! s = Some sp
             ∧ k = sp_path sp ∧ v = sp_info sp).
Proof.
  revert m. induction l as [| obj l IH]; intros m Hk; simpl in Hk; [by left |].
  apply IH in Hk as [Hk | (obj' & Hin & Hk)].
  - unfold addObjectInfo in Hk.
    apply foldl_addSensorInfo_entry in Hk as [Hk | (s & sp & Hin & Hs & -> & ->)].
    + apply lookup_insert_Some in Hk as [(<- & <-) | (_ & Hk)]; [| by left].
      right. exists obj. split; [left | by left].
    + right. exists obj. split; [left |]. right.
      apply elem_of_values in Hin as (sid & Hsid). by exists sid, s, sp.
  - right. exists obj'. split; [by right | done].
Qed.

Lemma foldl_addContainerInfo_entry (w : World) (l : list ContainerPtr)
    (m : gmap string SensorInfo) (k : string) (v : SensorInfo) :
  foldl (addContainerInfo w) m l !! k = Some v →
  m !! k = Some v
  ∨ ∃ cp c, cp ∈ l ∧ containerHeap w !! cp = Some c
      ∧ ((k = sc_id c ∧ v = namedInfo (sc_name c))
         ∨ ∃ oid obj, sc_objects c !! oid = Some obj
             ∧ ((k = so_path obj ∧ v = namedInfo (so_name obj))
                ∨ ∃ sid s sp,
                    so_sensors obj !! sid = Some s ∧ sensorHeap w !! s = Some sp
                    ∧ k = sp_path sp ∧ v = sp_info sp)).
Proof.
  revert m. induction l as [| cp l IH]; intros m Hk; simpl in Hk; [by left |].
  apply IH in Hk as [Hk | (cp' & c & Hin & Hc & Hk)].
  - unfold addContainerInfo in Hk.
    destruct (containerHeap w !! cp) as [c |] eqn:Hc; [| by left].
    apply foldl_addObjectInfo_entry in Hk as [Hk | (obj & Hin & Hk)].
    + apply lookup_insert_Some in Hk as [(<- & <-) | (_ & Hk)]; [| by left].
      right. exists cp, c. split; [left |]. split; [done | by left].
    + right. exists cp, c. split; [left |]. split; [done |]. right.
      apply elem_of_values in Hin as (oid & Hoid). by exists oid, obj.
  - right. exists cp', c. split; [by right | done].
Qed.

(** Every entry of the discovery map was written for a container, an
    object or a live sensor of the registry. *)
Lemma allSensors_entry (w : World) (k : string) (v : SensorInfo) :
  allSensors w !! k = Some v → ListedAs w k v.
Proof.
  unfold allSensors. intros Hk.
  apply foldl_addContainerInfo_entry in Hk as [Hk | (cp & c & Hin & Hc & Hk)].
  - by rewrite lookup_empty in Hk.
  - apply elem_of_values in Hin as (cid & Hcid).
    destruct Hk as [(-> & ->) | (oid & obj & Hobj & [(-> & ->) | (sid & s & sp & Hs & Hsp & -> & ->)])].
    + by eapply ContainerEntry.
    + by eapply ObjectEntry.
    + by eapply SensorEntry.
Qed.

(** Keys are never taken out of the map while it is built. *)
Lemma foldl_addSensorInfo_mono (w : World) (l : list SensorPtr) (m : gmap string SensorInfo)
    (k : string) :
  is_Some (m !! k) → is_Some (foldl (addSensorInfo w) m l !! k).
Proof.
  revert m. induction l as [| s l IH]; intros m Hk; [done |].
  simpl. apply IH. unfold addSensorInfo. destruct (sensorHeap w !! s) as [sp |]; [| done].
  rewrite lookup_insert. by case_decide.
Qed.

Lemma addObjectInfo_mono (w : World) (obj : SensorObject) (m : gmap string SensorInfo)
    (k : string) :
  is_Some (m !! k) → is_Some (addObjectInfo w m obj !! k).
Proof.
  intros Hk. unfold addObjectInfo. apply foldl_addSensorInfo_mono.
  rewrite lookup_insert. by case_decide.
Qed.

Lemma foldl_addObjectInfo_mono (w : World) (l : list SensorObject)
    (m : gmap string SensorInfo) (k : string) :
  is_Some (m !! k) → is_Some (foldl (addObjectInfo w) m l !! k).
Proof.
  revert m. induction l as [| obj l IH]; intros m Hk; [done |].
  simpl. by apply IH, addObjectInfo_mono.
Qed.

Lemma addContainerInfo_mono (w : World) (cp : ContainerPtr) (m : gmap string SensorInfo)
    (k : string) :
  is_Some (m !! k) → is_Some (addContainerInfo w m cp !! k).
Proof.
  intros Hk. unfold addContainerInfo. destruct (containerHeap w !! cp) as [c |]; [| done].
  apply foldl_addObjectInfo_mono. rewrite lookup_insert. by case_decide.
Qed.

Lemma foldl_addContainerInfo_mono (w : World) (l : list ContainerPtr)
    (m : gmap string SensorInfo) (k : string) :
  is_Some (m !! k) → is_Some (foldl (addContainerInfo w) m l !! k).
Proof.
  revert m. induction l as [| cp l IH]; intros m Hk; [done |].
  simpl. by apply IH, addContainerInfo_mono.
Qed.

Lemma foldl_addSensorInfo_adds (w : World) (l : list SensorPtr) (m : gmap string SensorInfo)
    (s : SensorPtr) (sp : SensorProperty) :
  s ∈ l → sensorHeap w !! s = Some sp →
  is_Some (foldl (addSensorInfo w) m l !! sp_path sp).
Proof.
  revert m. induction l as [| x l IH]; intros m Hin Hs; [by apply elem_of_nil in Hin |].
  simpl. apply elem_of_cons in Hin as [<- | Hin]; [| by apply IH].
  apply foldl_addSensorInfo_mono. unfold addSensorInfo. rewrite Hs.
  by rewrite lookup_insert_eq.
Qed.

Lemma addObjectInfo_adds (w : World) (obj : SensorObject) (m : gmap string SensorInfo)
    (k : string) :
  (k = so_path obj
   ∨ ∃ sid s sp, so_sensors obj !! sid = Some s ∧ sensorHeap w !! s = Some sp ∧ k = sp_path sp) →
  is_Some (addObjectInfo w m obj !! k).
Proof.
  unfold addObjectInfo. intros [-> | (sid & s & sp & Hsid & Hs & ->)].
  - apply foldl_addSensorInfo_mono. by rewrite lookup_insert_eq.
  - apply (foldl_addSensorInfo_adds _ _ _ s); [| done].
    apply elem_of_values. by exists sid.
Qed.

Lemma foldl_addObjectInfo_adds (w : World) (l : list SensorObject)
    (m : gmap string SensorInfo) (obj : SensorObject) (k : string) :
  obj ∈ l →
  (k = so_path obj
   ∨ ∃ sid s sp, so_sensors obj !! sid = Some s ∧ sensorHeap w !! s = Some sp ∧ k = sp_path sp) →
  is_Some (foldl (addObjectInfo w) m l !! k).
Proof.
  revert m. induction l as [| x l IH]; intros m Hin Hk; [by apply elem_of_nil in Hin |].
  simpl. apply elem_of_cons in Hin as [<- | Hin]; [| by apply IH].
  by apply foldl_addObjectInfo_mono, addObjectInfo_adds.
Qed.

Lemma foldl_addContainerInfo_adds (w : World) (l : list ContainerPtr)
    (m : gmap string SensorInfo) (cp : ContainerPtr) (c : SensorContainer) (k : string) :
  cp ∈ l → containerHeap w !! cp = Some c →
  (k = sc_id c
   ∨ ∃ oid obj, sc_objects c !! oid = Some obj
       ∧ (k = so_path obj
          ∨ ∃ sid s sp,
              so_sensors obj !! sid = Some s ∧ sensorHeap w !! s = Some sp ∧ k = sp_path sp)) →
  is_Some (foldl (addContainerInfo w) m l !! k).
Proof.
  revert m. induction l as [| x l IH]; intros m Hin Hc Hk; [by apply elem_of_nil in Hin |].
  simpl. apply elem_of_cons in Hin as [<- | Hin]; [| by apply IH].
  apply foldl_addContainerInfo_mono. unfold addContainerInfo. rewrite Hc.
  destruct Hk as [-> | (oid & obj & Hobj & Hk)].
  - apply foldl_addObjectInfo_mono. by rewrite lookup_insert_eq.
  - apply (foldl_addObjectInfo_adds _ _ _ obj); [| done].
    apply elem_of_values. by exists oid.
Qed.

Lemma allSensors_listed (w : World) (k : string) :
  Listed w k → is_Some (allSensors w !! k).
Proof.
  unfold allSensors.
  intros [cid cp c Hcid Hc ->
         | cid cp c oid obj Hcid Hc Hobj ->
         | cid cp c oid obj sid s sp Hcid Hc Hobj Hsid Hs ->];
    (apply (foldl_addContainerInfo_adds _ _ _ cp c);
     [apply elem_of_values; by exists cid | done |]).
  - by left.
  - right. exists oid, obj. split; [done | by left].
  - right. exists oid, obj. split; [done |]. right. by exists sid, s, sp.
Qed.

(** X3. The keys of the discovery map [allSensors] are exactly the ids of
    the indexed containers, the paths of their objects and the paths of
    their live sensors: nothing of the registry is left out and nothing
    else is listed. *)
Theorem allSensors_keys (w : World) (k : string) :
  is_Some (allSensors w !! k) ↔ Listed w k.
Proof.
  split; [apply allSensors_key | apply allSensors_listed].
Qed.

Lemma hasSlash_joined (a b : string) : hasSlash (a +:+ "/" +:+ b) = true.
Proof. rewrite hasSlash_append. simpl. apply orb_true_r. Qed.

(** Under the path invariant a key is written for one thing only. *)
Lemma listedAs_unique (w : World) (k : string) (v v' : SensorInfo) :
  RegistryWF w → ListedAs w k v → ListedAs w k v' → v = v'.
Proof.
  intros Hwf H H'.
  destruct H as [cid cp c Hcid Hc Hk Hv
                | cid cp c oid obj Hcid Hc Hobj Hk Hv
                | cid cp c oid obj sid s sp Hcid Hc Hobj Hsid Hs Hk Hv];
  destruct H' as [cid' cp' c' Hcid' Hc' Hk' Hv'
                 | cid' cp' c' oid' obj' Hcid' Hc' Hobj' Hk' Hv'
                 | cid' cp' c' oid' obj' sid' s' sp' Hcid' Hc' Hobj' Hsid' Hs' Hk' Hv'];
  destruct (wf_container w Hwf cid cp Hcid) as (Hcs & c0 & Hc0 & Hid);
  rewrite Hc in Hc0; injection Hc0 as <-;
  destruct (wf_container w Hwf cid' cp' Hcid') as (Hcs' & c0' & Hc0' & Hid');
  rewrite Hc' in Hc0'; injection Hc0' as <-;
  try (destruct (wf_object w Hwf cid cp c oid obj Hcid Hc Hobj) as (Hos & Hpath));
  try (destruct (wf_object w Hwf cid' cp' c' oid' obj' Hcid' Hc' Hobj') as (Hos' & Hpath'));
  try (destruct (wf_sensor w Hwf cid cp c oid obj sid s Hcid Hc Hobj Hsid)
         as (Hss & sp0 & Hsp0 & Hspath);
       rewrite Hs in Hsp0; injection Hsp0 as <-);
  try (destruct (wf_sensor w Hwf cid' cp' c' oid' obj' sid' s' Hcid' Hc' Hobj' Hsid')
         as (Hss' & sp0' & Hsp0' & Hspath');
       rewrite Hs' in Hsp0'; injection Hsp0' as <-);
  subst v v'.
  - (* container, container *)
    assert (cid = cid') as <- by congruence.
    rewrite Hcid in Hcid'. injection Hcid' as <-.
    rewrite Hc in Hc'. by injection Hc' as <-.
  - (* container, object *)
    exfalso. rewrite Hk, Hid in Hk'. rewrite Hpath' in Hk'.
    pose proof (hasSlash_joined cid' oid') as Hj. rewrite <- Hk', Hcs in Hj. discriminate.
  - (* container, sensor *)
    exfalso. rewrite Hk, Hid in Hk'. rewrite Hspath' in Hk'. unfold sensorPathOf in Hk'.
    pose proof (hasSlash_joined cid' (oid' +:+ "/" +:+ sid')) as Hj.
    rewrite <- Hk', Hcs in Hj. discriminate.
  - (* object, container *)
    exfalso. rewrite Hk', Hid' in Hk. rewrite Hpath in Hk.
    pose proof (hasSlash_joined cid oid) as Hj. rewrite <- Hk, Hcs' in Hj. discriminate.
  - (* object, object *)
    rewrite Hk, Hpath, Hpath' in Hk'.
    apply (append_slash_inj cid cid') in Hk' as (-> & ->); [| done | done].
    rewrite Hcid in Hcid'. injection Hcid' as <-.
    rewrite Hc in Hc'. injection Hc' as <-.
    rewrite Hobj in Hobj'. by injection Hobj' as <-.
  - (* object, sensor *)
    exfalso. rewrite Hk, Hpath, Hspath' in Hk'. unfold sensorPathOf in Hk'.
    apply (append_slash_inj cid cid') in Hk' as (_ & Hk'); [| done | done].
    pose proof (hasSlash_joined oid' sid') as Hj. rewrite <- Hk', Hos in Hj. discriminate.
  - (* sensor, container *)
    exfalso. rewrite Hk', Hid' in Hk. rewrite Hspath in Hk. unfold sensorPathOf in Hk.
    pose proof (hasSlash_joined cid (oid +:+ "/" +:+ sid)) as Hj.
    rewrite <- Hk, Hcs' in Hj. discriminate.
  - (* sensor, object *)
    exfalso. rewrite Hk', Hpath', Hspath in Hk. unfold sensorPathOf in Hk.
    apply (append_slash_inj cid' cid) in Hk as (_ & Hk); [| done | done].
    pose proof (hasSlash_joined oid sid) as Hj. rewrite <- Hk, Hos' in Hj. discriminate.
  - (* sensor, sensor *)
    rewrite Hk, Hspath, Hspath' in Hk'.
    apply sensorPathOf_inj in Hk' as (-> & -> & ->); [| done | done | done | done].
    rewrite Hcid in Hcid'. injection Hcid' as <-.
    rewrite Hc in Hc'. injection Hc' as <-.
    rewrite Hobj in Hobj'. injection Hobj' as <-.
    rewrite Hsid in Hsid'. injection Hsid' as <-.
    rewrite Hs in Hs'. by injection Hs' as <-.
Qed.

(** X4. For a registry that satisfies the path invariant, the discovery
    map holds exactly the registry: a container under its id and an object
    under its path, each with its name, and every live sensor under its
    path with its current metadata. *)
Theorem allSensors_exact (w : World) (k : string) (v : SensorInfo) :
  RegistryWF w →
  (allSensors w !! k = Some v ↔ ListedAs w k v).
Proof.
  intros Hwf. split; [apply allSensors_entry |].
  intros Hl.
  assert (Hk : Listed w k).
  { destruct Hl; [by eapply ListedContainer | by eapply ListedObject
                  | by eapply ListedSensor]. }
  apply allSensors_listed in Hk as [v' Hv'].
  rewrite Hv'. f_equal.
  apply allSensors_entry in Hv'. by apply (listedAs_unique w k).
Qed.

Lemma allSensors_exact_witness :
  allSensors Example.subscribed !! "cpu/cpu0/frequency"
    = Some (mkSensorInfo "Frequency" "freq" "" 2 0 5000)
  ∧ allSensors Example.subscribed !! "cpu/cpu0" = Some (namedInfo "CPU 0")
  ∧ allSensors Example.subscribed !! "cpu" = Some (namedInfo "CPUs").
Proof.
  split; [| split].
  - apply (allSensors_exact _ _ _ example_registry_wf).
    eapply (SensorEntry _ _ _ "cpu" 10%nat Example.cpu "cpu0" Example.cpu0 "frequency" 2%nat
              (set_subscribers (λ _, 1) Example.frequency));
      vm_compute; reflexivity.
  - apply (allSensors_exact _ _ _ example_registry_wf).
    eapply (ObjectEntry _ _ _ "cpu" 10%nat Example.cpu "cpu0" Example.cpu0);
      vm_compute; reflexivity.
  - apply (allSensors_exact _ _ _ example_registry_wf).
    eapply (ContainerEntry _ _ _ "cpu" 10%nat Example.cpu); vm_compute; reflexivity.
Defined.

(** ** Resolution of registered and of short paths *)

(** X5. In a registry that satisfies the path invariant every registered
    sensor is found under its own path: resolving the path a sensor reports
    gives back that sensor. *)
Theorem findSensor_own_path
    (w : World) (cid : string) (cp : ContainerPtr) (c : SensorContainer)
    (oid : string) (obj : SensorObject) (sid : string) (s : SensorPtr) :
  RegistryWF w →
  m_containers w !! cid = Some cp →
  containerHeap w !! cp = Some c →
  sc_objects c !! oid = Some obj →
  so_sensors obj !! sid = Some s →
  ∃ sp, sensorHeap w !! s = Some sp ∧ findSensor w (sp_path sp) = Some s.
Proof.
  intros Hwf Hcid Hc Hobj Hsid.
  destruct (wf_container w Hwf cid cp Hcid) as (Hcs & _).
  destruct (wf_sensor w Hwf cid cp c oid obj sid s Hcid Hc Hobj Hsid)
    as (Hss & sp & Hsp & Hpath).
  exists sp. split; [done |].
  destruct (segments_of_sensorPath cid oid sid Hcs Hss) as (H1 & H2 & H3).
  unfold findSensor. by rewrite Hpath, H1, H2, H3, Hcid, Hc, Hobj.
Qed.

Lemma findSensor_own_path_witness :
  findSensor Example.subscribed "cpu/cpu0/usage" = Some 1%nat.
Proof.
  destruct (findSensor_own_path Example.subscribed "cpu" 10%nat Example.cpu
              "cpu0" Example.cpu0 "usage" 1%nat example_registry_wf)
    as (sp & Hsp & Hf).
  - vm_compute. reflexivity.
  - vm_compute. reflexivity.
  - vm_compute. reflexivity.
  - vm_compute. reflexivity.
  - assert (Hsp' : sensorHeap Example.subscribed !! 1%nat
                   = Some (set_subscribers (λ _, 1) Example.usage))
      by (vm_compute; reflexivity).
    rewrite Hsp' in Hsp. injection Hsp as <-. exact Hf.
Defined.

Lemma indexOf_from_none (s : string) (i : Z) :
  hasSlash s = false → QString.indexOf_from slash s i = -1.
Proof.
  revert i. induction s as [| x s IH]; intros i Hs; [done |].
  apply hasSlash_cons in Hs as (Hx & Hs). simpl. rewrite Hx. by apply IH.
Qed.

(** A path without a slash: both searches give [-1], [left(-1)] is the
    whole path and so are both [mid] calls. *)
Lemma segments_of_word (p : string) :
  hasSlash p = false →
  subsystemOf p = p ∧ objectOf p = p ∧ propertyOf p = p.
Proof.
  intros Hp.
  assert (Hi : QString.indexOf slash p = -1) by (by apply indexOf_from_none).
  assert (Hl : QString.lastIndexOf slash p = -1) by (by apply lastIndexOf_from_none).
  assert (Hsize : 0 ≤ QString.size p) by (unfold QString.size; lia).
  split; [| split].
  - unfold subsystemOf. by rewrite Hi.
  - unfold objectOf, QString.mid. rewrite Hi, Hl.
    change (-1 + 1) with 0. change (-1 - 0) with (-1).
    replace (QString.size p <? 0) with false by (symmetry; lia).
    change (0 <? 0) with false. change ((-1 <? 0) || (QString.size p - 0 <? -1)) with true.
    rewrite Z.sub_0_r. unfold QString.size. rewrite Nat2Z.id. apply substring_all.
  - unfold propertyOf, QString.mid_end, QString.mid. rewrite Hl.
    change (-1 + 1) with 0.
    replace (QString.size p <? 0) with false by (symmetry; lia).
    change (0 <? 0) with false. change ((-1 <? 0) || (QString.size p - 0 <? -1)) with true.
    rewrite Z.sub_0_r. unfold QString.size. rewrite Nat2Z.id. apply substring_all.
Qed.

(** A path with one slash: the first and the last slash coincide, so the
    object's length is [-1], "up to the end". *)
Lemma segments_of_pair (a b : string) :
  hasSlash a = false → hasSlash b = false →
  let p := a +:+ "/" +:+ b in
  subsystemOf p = a ∧ objectOf p = b ∧ propertyOf p = b.
Proof.
  intros Ha Hb p.
  set (la := String.length a). set (lb := String.length b).
  assert (Hp : p = a +:+ String slash b) by done.
  assert (Hi : QString.indexOf slash p = Z.of_nat la).
  { unfold QString.indexOf. rewrite Hp, indexOf_from_prefix by done.
    unfold QString.size. fold la. lia. }
  assert (Hl : QString.lastIndexOf slash p = Z.of_nat la).
  { unfold QString.lastIndexOf. rewrite Hp, lastIndexOf_from_suffix by done.
    unfold QString.size. fold la. lia. }
  assert (Hsize : QString.size p = Z.of_nat (la + 1 + lb)).
  { unfold QString.size. rewrite Hp, length_append. simpl. fold la lb. lia. }
  assert (Htail : String.substring (Z.to_nat (Z.of_nat la + 1))
                    (Z.to_nat (Z.of_nat (la + 1 + lb) - (Z.of_nat la + 1))) p = b).
  { replace (Z.to_nat (Z.of_nat la + 1)) with (String.length (a +:+ "/") + 0)%nat
      by (rewrite length_append; simpl; fold la; lia).
    replace (Z.to_nat (Z.of_nat (la + 1 + lb) - (Z.of_nat la + 1))) with lb by lia.
    replace p with ((a +:+ "/") +:+ b) by (rewrite Hp; by rewrite append_assoc).
    rewrite substring_skip. apply substring_all. }
  split; [| split].
  - unfold subsystemOf, QString.left. rewrite Hi, Hsize.
    replace ((Z.of_nat la <? 0) || (Z.of_nat (la + 1 + lb) <=? Z.of_nat la))
      with false by (symmetry; lia).
    rewrite Nat2Z.id, Hp. apply substring_prefix.
  - unfold objectOf, QString.mid. rewrite Hi, Hl, Hsize.
    replace (Z.of_nat la - (Z.of_nat la + 1)) with (-1) by lia.
    replace (Z.of_nat (la + 1 + lb) <? Z.of_nat la + 1) with false by (symmetry; lia).
    replace (Z.of_nat la + 1 <? 0) with false by (symmetry; lia).
    simpl. exact Htail.
  - unfold propertyOf, QString.mid_end, QString.mid. rewrite Hl, Hsize.
    replace (Z.of_nat (la + 1 + lb) <? Z.of_nat la + 1) with false by (symmetry; lia).
    replace (Z.of_nat la + 1 <? 0) with false by (symmetry; lia).
    simpl. exact Htail.
Qed.

(** X6. Short paths alias longer ones.  [findSensor] cuts the container
    at the first slash and the property at the last one, and Qt's
    [left(-1)] and [mid(i, -1)] mean "everything": a path [a/b] with one
    slash is resolved as [a/b/b], and a path [p] without a slash as
    [p/p/p]. *)
Theorem findSensor_short_paths (w : World) (a b : string) :
  hasSlash a = false → hasSlash b = false →
  findSensor w (a +:+ "/" +:+ b) = findSensor w (sensorPathOf a b b)
  ∧ findSensor w a = findSensor w (sensorPathOf a a a).
Proof.
  intros Ha Hb.
  destruct (segments_of_pair a b Ha Hb) as (P1 & P2 & P3).
  destruct (segments_of_sensorPath a b b Ha Hb) as (Q1 & Q2 & Q3).
  destruct (segments_of_word a Ha) as (W1 & W2 & W3).
  destruct (segments_of_sensorPath a a a Ha Ha) as (R1 & R2 & R3).
  unfold findSensor. split.
  - by rewrite P1, P2, P3, Q1, Q2, Q3.
  - by rewrite W1, W2, W3, R1, R2, R3.
Qed.

Lemma findSensor_short_paths_witness :
  findSensor Example.subscribed ("cpu" +:+ "/" +:+ "cpu0")
    = findSensor Example.subscribed "cpu/cpu0/cpu0"
  ∧ findSensor Example.subscribed "cpu" = findSensor Example.subscribed "cpu/cpu/cpu".
Proof.
  apply (findSensor_short_paths Example.subscribed "cpu" "cpu0"); reflexivity.
Defined.

(** ** Subscription bookkeeping *)

Lemma filter_all {A : Type} (P : A → Prop) `{∀ x, Decision (P x)} (l : list A) :
  Forall P l → filter P l = l.
Proof.
  induction 1 as [| x l Hx Hl IH]; [done |].
  rewrite filter_cons_True by done. by rewrite IH.
Qed.

Lemma world_eq (w w' : World) :
  m_providers w = m_providers w' → m_containers w = m_containers w' →
  m_clients w = m_clients w' → sensorHeap w = sensorHeap w' →
  containerHeap w = containerHeap w' → connections w = connections w' →
  nextHandle w = nextHandle w' → containerSlots w = containerSlots w' →
  sessionBus w = sessionBus w' → callLog w = callLog w' →
  w = w'.
Proof. destruct w, w'. simpl. by intros -> -> -> -> -> -> -> -> -> ->. Qed.

Lemma subscribers_back (sp : SensorProperty) :
  set_subscribers (λ n, n - 1) (set_subscribers (λ n, n + 1) sp) = sp.
Proof. destruct sp. unfold set_subscribers. simpl. f_equal. lia. Qed.

(** X7. Subscribing to a path and unsubscribing it again is a round trip.
    For a client that is neither subscribed to the path nor holds
    connections for the sensor it resolves to, and a connection table whose
    handles are all older than the next one, the daemon ends up in the state
    it started from; only the handle counter has advanced by three. *)
Theorem subscribe_unsubscribe_roundtrip
    (w : World) (cn : string) (c : Client) (sensorPath : string) (sensor : SensorPtr) :
  m_clients w !! cn = Some c →
  findSensor w sensorPath = Some sensor →
  m_subscribedSensors c !! sensorPath = None →
  m_connections c !! sensor = None →
  Forall (λ k, (conn_handle k < nextHandle w)%nat) (connections w) →
  unsubscribeSensors cn [sensorPath] (subscribeSensors cn [sensorPath] w)
  = set_nextHandle (λ n, S (S (S n))) w.
Proof.
  intros Hc Hf Hsub Hconn Hold.
  unfold subscribeSensors, unsubscribeSensors. simpl.
  destruct (subscribeSensor_resolved cn w sensorPath sensor Hf)
    as (Hcl & Hheap & Htab & Hnext & Hbus & Hmc & Hch & Hprov).
  set (w1 := subscribeSensor cn w sensorPath) in *.
  set (K := mkConnections (nextHandle w) (S (nextHandle w)) (S (S (nextHandle w)))) in *.
  set (c1 := set_subscribedSensors (<[sensorPath := sensor]>)
               (set_clientConnections (<[sensor := K]>) c)).
  assert (Hc1 : m_clients w1 !! cn = Some c1).
  { by rewrite Hcl, !lookup_alter_eq, Hc. }
  assert (Hslots : containerSlots w1 = containerSlots w ∧ callLog w1 = callLog w).
  { unfold w1, subscribeSensor. by rewrite Hf. }
  destruct Hslots as (Hslots & Hlog).
  unfold unsubscribeSensor. rewrite Hc1.
  assert (H1 : m_subscribedSensors c1 !! sensorPath = Some sensor)
    by apply lookup_insert_eq.
  assert (H2 : m_connections c1 !! sensor = Some K) by apply lookup_insert_eq.
  rewrite H1, H2.
  apply world_eq; simpl; try done.
  - (* clients *)
    rewrite Hcl. apply map_eq. intros cn'.
    destruct (decide (cn = cn')) as [<- | Hne]; [| by rewrite !lookup_alter_ne].
    rewrite !lookup_alter_eq, Hc. simpl. f_equal.
    destruct c as [n subs conns pu pm]. unfold set_clientConnections, set_subscribedSensors.
    simpl in *. f_equal.
    + by apply delete_insert_id.
    + by apply delete_insert_id.
  - (* reference counts *)
    rewrite Hheap. apply map_eq. intros s'.
    destruct (decide (sensor = s')) as [<- | Hne]; [| by rewrite !lookup_alter_ne].
    rewrite !lookup_alter_eq. destruct (sensorHeap w !! sensor) as [sp |]; [| done].
    simpl. f_equal. apply subscribers_back.
  - (* connection table *)
    rewrite Htab. unfold newConnections.
    rewrite !filter_app.
    assert (Hkeep : ∀ h, (nextHandle w ≤ h)%nat →
              filter (λ k, conn_handle k ≠ h) (connections w) = connections w).
    { intros h Hh. apply filter_all. eapply Forall_impl; [exact Hold |].
      intros k Hk. simpl in Hk. lia. }
    rewrite (Hkeep (nextHandle w)) by lia.
    rewrite (Hkeep (S (nextHandle w))) by lia.
    rewrite (Hkeep (S (S (nextHandle w)))) by lia.
    rewrite <- (app_nil_r (connections w)) at 2. f_equal.
    unfold K. simpl.
    repeat (rewrite ?filter_cons, ?filter_nil; simpl; repeat case_decide; try lia).
    done.
Qed.

Lemma subscribe_unsubscribe_roundtrip_witness :
  let w := subscribe ":1.7" ["cpu/cpu0/frequency"] Example.registered in
  unsubscribeSensors ":1.7" ["cpu/cpu0/usage"] (subscribeSensors ":1.7" ["cpu/cpu0/usage"] w)
  = set_nextHandle (λ n, S (S (S n))) w.
Proof.
  intros w.
  apply (subscribe_unsubscribe_roundtrip w ":1.7"
           (mkClient ":1.7" {["cpu/cpu0/frequency" := 2%nat]}
              {[2%nat := mkConnections 0 1 2]} [] ∅)
           "cpu/cpu0/usage" 1%nat).
  - vm_compute. reflexivity.
  - vm_compute. reflexivity.
  - vm_compute. reflexivity.
  - vm_compute. reflexivity.
  - apply (bool_decide_unpack _). vm_compute. exact I.
Defined.

Lemma unsubscribeSensor_absent (cn : string) (w : World) (sensorPath : string) :
  (∀ c, m_clients w !! cn = Some c → m_subscribedSensors c !! sensorPath = None) →
  unsubscribeSensor cn w sensorPath = w.
Proof.
  intros H. unfold unsubscribeSensor.
  destruct (m_clients w !! cn) as [c |]; [| done]. by rewrite (H c).
Qed.

Lemma unsubscribeSensors_absent (cn : string) (sensorPaths : list string) (w : World) :
  (∀ c p, m_clients w !! cn = Some c → p ∈ sensorPaths →
          m_subscribedSensors c !! p = None) →
  unsubscribeSensors cn sensorPaths w = w.
Proof.
  unfold unsubscribeSensors. induction sensorPaths as [| p ps IH]; intros H; [done |].
  simpl. rewrite unsubscribeSensor_absent.
  - apply IH. intros c q Hc Hq. apply (H c q Hc). by right.
  - intros c Hc. apply (H c p Hc). left.
Qed.

(** X8. Unsubscribing is idempotent.  Paths that are not in the client's
    subscribed set are skipped without any effect, a request from a peer
    that has no client is ignored, and repeating an unsubscribe request
    changes nothing any more. *)
Theorem unsubscribe_idempotent (w : World) (cn : string) (sensorPaths : list string) :
  ((∀ c p, m_clients w !! cn = Some c → p ∈ sensorPaths →
           m_subscribedSensors c !! p = None) →
   unsubscribe cn sensorPaths w = w)
  ∧ unsubscribe cn sensorPaths (unsubscribe cn sensorPaths w) = unsubscribe cn sensorPaths w.
Proof.
  assert (Hnoop : ∀ w',
    (∀ c p, m_clients w' !! cn = Some c → p ∈ sensorPaths →
            m_subscribedSensors c !! p = None) →
    unsubscribe cn sensorPaths w' = w').
  { intros w' H. unfold unsubscribe.
    destruct (m_clients w' !! cn) as [c0 |] eqn:E; [| done].
    apply unsubscribeSensors_absent. intros c p Hc Hp. rewrite E in Hc. by apply H. }
  split; [apply Hnoop |].
  apply Hnoop. intros c p Hc Hp. unfold unsubscribe in Hc.
  destruct (m_clients w !! cn) as [c0 |] eqn:Hc0; [| by rewrite Hc0 in Hc].
  by apply (unsubscribeSensors_subscribed cn sensorPaths w c p).
Qed.

Lemma unsubscribe_idempotent_witness :
  unsubscribe ":1.7" ["cpu/cpu0/missing"] Example.subscribed = Example.subscribed.
Proof.
  apply (proj1 (unsubscribe_idempotent Example.subscribed ":1.7" ["cpu/cpu0/missing"])).
  intros c p Hc Hp.
  assert (Hpeer : m_clients Example.subscribed !! ":1.7" = Some Example.peer)
    by (vm_compute; reflexivity).
  rewrite Hpeer in Hc. injection Hc as <-.
  apply list_elem_of_singleton in Hp as ->.
  vm_compute. reflexivity.
Defined.

Lemma subscribeSensor_others (cn cn' : string) (w : World) (sensorPath : string) :
  cn' ≠ cn →
  m_clients (subscribeSensor cn w sensorPath) !! cn' = m_clients w !! cn'.
Proof.
  intros Hne. destruct (findSensor w sensorPath) as [sensor |] eqn:Hf.
  - destruct (subscribeSensor_resolved cn w sensorPath sensor Hf) as (-> & _).
    by rewrite !lookup_alter_ne.
  - by rewrite subscribeSensor_unresolved.
Qed.

Lemma unsubscribeSensor_others (cn cn' : string) (w : World) (sensorPath : string) :
  cn' ≠ cn →
  m_clients (unsubscribeSensor cn w sensorPath) !! cn' = m_clients w !! cn'.
Proof.
  intros Hne. unfold unsubscribeSensor.
  destruct (m_clients w !! cn) as [c |]; [| done].
  destruct (m_subscribedSensors c !! sensorPath) as [sensor |]; [| done].
  destruct (m_connections c !! sensor); simpl; by rewrite !lookup_alter_ne.
Qed.

(** X9. Requests of one peer do not touch the clients of other peers:
    after [Daemon::subscribe] or [Daemon::unsubscribe] on behalf of a sender,
    every other client has the subscribed set, the stored connections and
    the pending deltas it had. *)
Theorem requests_leave_other_clients (w : World) (sender other : string)
    (sensorIds : list string) :
  other ≠ sender →
  m_clients (subscribe sender sensorIds w) !! other = m_clients w !! other
  ∧ m_clients (unsubscribe sender sensorIds w) !! other = m_clients w !! other.
Proof.
  intros Hne. split.
  - unfold subscribe, subscribeSensors.
    set (w0 := match m_clients w !! sender with
               | Some _ => w
               | None => set_clients (<[sender := mkClient sender ∅ ∅ [] ∅]>) w
               end).
    assert (H0 : m_clients w0 !! other = m_clients w !! other).
    { unfold w0. destruct (m_clients w !! sender); [done |].
      simpl. by rewrite lookup_insert_ne. }
    rewrite <- H0. clear H0. clearbody w0. revert w0.
    induction sensorIds as [| p ps IH]; intros w0; simpl; [done |].
    rewrite IH. by apply subscribeSensor_others.
  - unfold unsubscribe. destruct (m_clients w !! sender); [| done].
    unfold unsubscribeSensors. revert w.
    induction sensorIds as [| p ps IH]; intros w; simpl; [done |].
    rewrite IH. by apply unsubscribeSensor_others.
Qed.

Lemma requests_leave_other_clients_witness :
  m_clients (subscribe ":1.9" ["cpu/cpu0/usage"] Example.subscribed) !! ":1.7"
    = Some Example.peer
  ∧ m_clients (unsubscribe ":1.9" ["cpu/cpu0/usage"] Example.subscribed) !! ":1.7"
    = Some Example.peer.
Proof.
  assert (Hp : m_clients Example.subscribed !! ":1.7" = Some Example.peer)
    by (vm_compute; reflexivity).
  destruct (requests_leave_other_clients Example.subscribed ":1.9" ":1.7"
              ["cpu/cpu0/usage"]) as (H1 & H2); [discriminate |].
  split; [rewrite H1; exact Hp | rewrite H2; exact Hp].
Defined.

(** ** A peer leaves *)

Lemma foldl_unsubscribe_frame (l : list SensorPtr) (w : World) :
  let w' := foldl (λ w sensor, SensorProperty_unsubscribe sensor w) w l in
  m_clients w' = m_clients w ∧ connections w' = connections w
  ∧ sessionBus w' = sessionBus w ∧ m_providers w' = m_providers w
  ∧ nextHandle w' = nextHandle w.
Proof.
  revert w. induction l as [| s l IH]; intros w; simpl; [done |].
  destruct (IH (SensorProperty_unsubscribe s w)) as (-> & -> & -> & -> & ->). done.
Qed.

Lemma foldl_unsubscribe_count (l : list SensorPtr) (w : World) (s : SensorPtr) :
  sp_subscribers <$>
    sensorHeap (foldl (λ w sensor, SensorProperty_unsubscribe sensor w) w l) !! s
  = (λ n, n - Z.of_nat (length (filter (λ x, x = s) l)))
      <$> (sp_subscribers <$> sensorHeap w !! s).
Proof.
  revert w. induction l as [| x l IH]; intros w; simpl.
  - destruct (sensorHeap w !! s); simpl; [f_equal; lia | done].
  - rewrite IH. unfold SensorProperty_unsubscribe at 1. simpl.
    destruct (decide (x = s)) as [-> | Hne].
    + rewrite lookup_alter_eq, filter_cons_True by done.
      destruct (sensorHeap w !! s); simpl; [f_equal; lia | done].
    + rewrite lookup_alter_ne, filter_cons_False by done. done.
Qed.

(** X10. When a peer's service disappears, its client is deleted without
    flushing: nothing is sent, the client and every connection it received
    on are gone, the other clients are as they were, and every sensor gets
    back one reference per path of the client's subscribed set that pointed
    to it. *)
Theorem disconnect_releases_client (w : World) (service : string) (c : Client) :
  m_clients w !! service = Some c →
  let w' := onServiceDisconnected service w in
  m_clients w' !! service = None
  ∧ (∀ other, other ≠ service → m_clients w' !! other = m_clients w !! other)
  ∧ (∀ k, k ∈ connections w' ↔ k ∈ connections w ∧ conn_receiver k ≠ service)
  ∧ sessionBus w' = sessionBus w
  ∧ (∀ s, sp_subscribers <$> sensorHeap w' !! s
          = (λ n, n - Z.of_nat (length (filter (λ x, x = s)
                                          (map_to_list (m_subscribedSensors c)).*2)))
              <$> (sp_subscribers <$> sensorHeap w !! s)).
Proof.
  intros Hc w'. unfold w', onServiceDisconnected, destroyClient. rewrite Hc. simpl.
  destruct (foldl_unsubscribe_frame (map_to_list (m_subscribedSensors c)).*2 w)
    as (Hcl & Htab & Hbus & _).
  rewrite Hcl, Htab, Hbus.
  split; [apply lookup_delete_eq |].
  split; [intros other Hne; by apply lookup_delete_ne |].
  split; [intros k; rewrite list_elem_of_filter; tauto |].
  split; [done |].
  intros s. apply foldl_unsubscribe_count.
Qed.

Lemma disconnect_releases_client_witness :
  let w' := onServiceDisconnected ":1.7" Example.subscribed in
  m_clients w' !! ":1.7" = None
  ∧ connections w' = []
  ∧ sp_subscribers <$> sensorHeap w' !! 1%nat = Some 0
  ∧ sessionBus w' = sessionBus Example.subscribed.
Proof.
  intros w'.
  destruct (disconnect_releases_client Example.subscribed ":1.7" Example.peer)
    as (H1 & _ & _ & H4 & H5); [vm_compute; reflexivity |].
  split; [exact H1 |]. split; [vm_compute; reflexivity |].
  split; [| exact H4].
  etrans; [apply H5 |]. vm_compute. reflexivity.
Defined.

(** ** After a flush *)

Lemma sendFrame_clients (cn : string) (w : World) :
  m_clients (Client_sendFrame cn w) = alter clearPending cn (m_clients w).
Proof.
  unfold Client_sendFrame. destruct (m_clients w !! cn) as [c |] eqn:Hc.
  - unfold sendMetaDataChanged, sendValues, send.
    by destruct (decide _), (m_pendingUpdates c).
  - symmetry. apply map_eq. intros cn'. rewrite lookup_alter.
    case_decide; [subst; by rewrite Hc | done].
Qed.

Lemma sendFrame_drains (cn : string) (w : World) : drained cn (Client_sendFrame cn w).
Proof.
  intros c. rewrite sendFrame_clients, lookup_alter_eq.
  destruct (m_clients w !! cn); simpl; [| done]. by intros [= <-].
Qed.

Lemma sendFrame_keeps_drained (cn cn' : string) (w : World) :
  drained cn w → drained cn (Client_sendFrame cn' w).
Proof.
  intros Hd c. rewrite sendFrame_clients, lookup_alter.
  case_decide; [subst cn' | apply Hd].
  destruct (m_clients w !! cn); simpl; [| done]. by intros [= <-].
Qed.

Lemma foldl_sendFrame_keeps_drained (cn : string) (l : list string) (w : World) :
  drained cn w → drained cn (foldl (λ w cn', Client_sendFrame cn' w) w l).
Proof.
  revert w. induction l as [| x l IH]; intros w Hd; [done |].
  simpl. by apply IH, sendFrame_keeps_drained.
Qed.

Lemma foldl_sendFrame_drains (cn : string) (l : list string) (w : World) :
  cn ∈ l → drained cn (foldl (λ w cn', Client_sendFrame cn' w) w l).
Proof.
  revert w. induction l as [| x l IH]; intros w Hin; [by apply elem_of_nil in Hin |].
  simpl. apply elem_of_cons in Hin as [<- | Hin]; [| by apply IH].
  apply foldl_sendFrame_keeps_drained, sendFrame_drains.
Qed.

Lemma foldl_sendFrame_dom (l : list string) (w : World) :
  dom (m_clients (foldl (λ w cn', Client_sendFrame cn' w) w l)) = dom (m_clients w).
Proof.
  revert w. induction l as [| x l IH]; intros w; [done |].
  simpl. rewrite IH, sendFrame_clients. apply dom_alter_L.
Qed.

Lemma foldl_sendFrame_silent (l : list string) (w : World) :
  (∀ cn, drained cn w) →
  sessionBus (foldl (λ w cn', Client_sendFrame cn' w) w l) = sessionBus w.
Proof.
  revert w. induction l as [| x l IH]; intros w Hd; [done |].
  simpl. rewrite IH.
  - destruct (m_clients w !! x) as [c |] eqn:Hc.
    + destruct (Hd x c Hc) as (Hu & Hm).
      unfold Client_sendFrame. rewrite Hc, Hu, Hm.
      unfold sendMetaDataChanged, sendValues. by rewrite decide_True.
    + unfold Client_sendFrame. by rewrite Hc.
  - intros cn. by apply sendFrame_keeps_drained.
Qed.

(** X11. The flush phase of a tick drains every client: afterwards no
    client has a pending value update or a pending metadata change, so
    flushing again right away sends nothing. *)
Theorem flush_drains_every_client (w : World) :
  (∀ cn, drained cn (flushClients w))
  ∧ sessionBus (flushClients (flushClients w)) = sessionBus (flushClients w).
Proof.
  assert (Hd : ∀ cn, drained cn (flushClients w)).
  { intros cn c Hc. unfold flushClients in *.
    assert (Hin : cn ∈ (map_to_list (m_clients w)).*1).
    { assert (Hdom : cn ∈ dom (m_clients w)).
      { rewrite <- (foldl_sendFrame_dom (map_to_list (m_clients w)).*1 w).
        apply elem_of_dom. by exists c. }
      apply elem_of_dom in Hdom as [c0 Hc0].
      apply list_elem_of_fmap. exists (cn, c0). split; [done |].
      by apply elem_of_map_to_list. }
    by apply (foldl_sendFrame_drains cn _ w Hin c). }
  split; [exact Hd |].
  unfold flushClients at 1. by apply foldl_sendFrame_silent.
Qed.

(** ** What every run of the daemon keeps *)

Lemma settles_refl (w : World) : settles w w.
Proof. by repeat split. Qed.

Lemma settles_trans (w1 w2 w3 : World) : settles w1 w2 → settles w2 w3 → settles w1 w3.
Proof.
  intros (A1 & B1 & C1 & D1) (A2 & B2 & C2 & D2).
  split; [congruence |]. split; [congruence |]. split; [congruence |]. by etrans.
Qed.

Lemma foldl_settles {A : Type} (f : World → A → World) (l : list A) (w : World) :
  (∀ w x, settles w (f w x)) → settles w (foldl f w l).
Proof.
  intros Hf. revert w. induction l as [| x l IH]; intros w; [apply settles_refl |].
  simpl. eapply settles_trans; [apply Hf | apply IH].
Qed.

Lemma settles_wellKept (w w' : World) : settles w w' → wellKept w → wellKept w'.
Proof.
  intros (Hp & Hb & Hn & Hs) (I1 & I2 & I3 & I4).
  split; [by rewrite Hp |]. split; [| split; [| by rewrite Hb]].
  - eapply sublist_NoDup; [exact I2 |]. by apply fmap_sublist.
  - rewrite Hn. rewrite Forall_forall in I3 |- *. intros k Hk. apply I3.
    by eapply elem_of_sublist.
Qed.

Lemma emit_settles (sig : Signal) (sensor : SensorPtr) (w : World) :
  settles w (emit sig sensor w).
Proof.
  destruct (emit_frame sig sensor w) as (H1 & _ & _ & _ & H5 & H6 & _ & H8 & _).
  split; [done |]. split; [done |]. split; [done |]. by rewrite H5.
Qed.

Lemma setValue_settles (sensor : SensorPtr) (v : QVariant) (w : World) :
  settles w (SensorProperty_setValue sensor v w).
Proof.
  unfold SensorProperty_setValue.
  destruct (sensorHeap w !! sensor) as [sp |]; [| apply settles_refl].
  destruct (decide (sp_value sp = v)); [apply settles_refl |].
  match goal with |- settles _ (emit ?sig ?s ?w') => exact (emit_settles sig s w') end.
Qed.

Lemma setInfo_settles (sensor : SensorPtr) (i : SensorInfo) (w : World) :
  settles w (SensorProperty_setInfo sensor i w).
Proof.
  unfold SensorProperty_setInfo.
  destruct (sensorHeap w !! sensor) as [sp |]; [| apply settles_refl].
  match goal with |- settles _ (emit ?sig ?s ?w') => exact (emit_settles sig s w') end.
Qed.

Lemma destroySensor_settles (w : World) (sensor : SensorPtr) :
  settles w (destroySensor w sensor).
Proof.
  destruct (emit_frame SigDestroyed sensor w) as (H1 & _ & _ & _ & H5 & H6 & _ & H8 & _).
  unfold destroySensor. split; [done |]. split; [done |]. split; [done |].
  simpl. rewrite H5. apply sublist_filter.
Qed.

Lemma removeObject_settles (cp : ContainerPtr) (objectId : string) (w : World) :
  settles w (SensorContainer_removeObject cp objectId w).
Proof.
  unfold SensorContainer_removeObject.
  destruct (containerHeap w !! cp) as [c |]; [| apply settles_refl].
  destruct (sc_objects c !! objectId) as [obj |]; [| apply settles_refl].
  eapply settles_trans; [| apply foldl_settles, destroySensor_settles].
  eapply settles_trans; [| apply foldl_settles].
  - apply (settles_refl w).
  - intros w' _. unfold onObjectRemoved. apply foldl_settles.
    intros w'' s. destruct (sensorHeap w'' !! s); [| apply settles_refl].
    by repeat split.
Qed.

Lemma perform_settles (a : Action) (w : World) : settles w (stateOf (perform a w)).
Proof.
  destruct a; simpl.
  - apply setValue_settles.
  - apply setInfo_settles.
  - apply removeObject_settles.
  - apply settles_refl.
Qed.

Lemma performAll_settles (acts : list Action) (w : World) :
  settles w (stateOf (performAll acts w)).
Proof.
  revert w. induction acts as [| a acts IH]; intros w; [apply settles_refl |].
  simpl. pose proof (perform_settles a w) as Ha.
  destruct (perform a w) as [w' | w']; simpl in *; [| done].
  eapply settles_trans; [exact Ha | apply IH].
Qed.

Lemma updateProviders_settles (providers : list SensorPlugin) (w : World) :
  settles w (stateOf (updateProviders providers w)).
Proof.
  revert w. induction providers as [| p ps IH]; intros w; [apply settles_refl |].
  simpl. unfold SensorPlugin_update.
  pose proof (performAll_settles (update p)
                (set_callLog (λ l, l ++ [CallUpdate (providerName p)]) w)) as Hp.
  destruct (performAll _ _) as [w' | w']; simpl in *; [| done].
  eapply settles_trans; [exact Hp | apply IH].
Qed.

Lemma unsubscribeSensor_settles (cn : string) (w : World) (sensorPath : string) :
  settles w (unsubscribeSensor cn w sensorPath).
Proof.
  unfold unsubscribeSensor.
  destruct (m_clients w !! cn) as [c |]; [| apply settles_refl].
  destruct (m_subscribedSensors c !! sensorPath) as [sensor |]; [| apply settles_refl].
  destruct (m_connections c !! sensor) as [k |]; [| by repeat split].
  split; [done |]. split; [done |]. split; [done |]. simpl.
  etrans; [apply sublist_filter |]. etrans; apply sublist_filter.
Qed.

Lemma unsubscribe_settles (sender : string) (sensorIds : list string) (w : World) :
  settles w (unsubscribe sender sensorIds w).
Proof.
  unfold unsubscribe. destruct (m_clients w !! sender); [| apply settles_refl].
  apply foldl_settles. intros w' p. apply unsubscribeSensor_settles.
Qed.

Lemma onServiceDisconnected_settles (service : string) (w : World) :
  settles w (onServiceDisconnected service w).
Proof.
  unfold onServiceDisconnected, destroyClient.
  destruct (m_clients w !! service) as [c |]; [| by repeat split].
  destruct (foldl_unsubscribe_frame (map_to_list (m_subscribedSensors c)).*2 w)
    as (_ & Htab & Hbus & Hprov & Hnext).
  split; [done |]. split; [done |]. split; [done |]. simpl. rewrite Htab.
  apply sublist_filter.
Qed.

Lemma subscribeSensor_wellKept (cn : string) (w : World) (sensorPath : string) :
  wellKept w → wellKept (subscribeSensor cn w sensorPath).
Proof.
  intros (I1 & I2 & I3 & I4).
  destruct (findSensor w sensorPath) as [sensor |] eqn:Hf;
    [| by rewrite subscribeSensor_unresolved].
  destruct (subscribeSensor_resolved cn w sensorPath sensor Hf)
    as (_ & _ & Htab & Hnext & Hbus & _ & _ & Hprov).
  split; [by rewrite Hprov |]. split; [| split; [| by rewrite Hbus]].
  - rewrite Htab, fmap_app. apply NoDup_app. split; [done |]. split.
    + intros h Hh Hnew. apply list_elem_of_fmap in Hh as (k & -> & Hk).
      rewrite Forall_forall in I3. specialize (I3 k Hk). simpl in I3.
      unfold newConnections in Hnew. simpl in Hnew.
      repeat (apply elem_of_cons in Hnew as [Hnew | Hnew]; [lia |]).
      by apply elem_of_nil in Hnew.
    + unfold newConnections. simpl.
      repeat (apply NoDup_cons; split;
              [intros H; repeat (apply elem_of_cons in H as [H | H]; [lia |]);
               by apply elem_of_nil in H |]).
      apply NoDup_nil_2.
  - rewrite Htab, Hnext. apply Forall_app. split.
    + eapply Forall_impl; [exact I3 |]. intros k Hk. simpl in Hk. lia.
    + unfold newConnections. repeat (apply Forall_cons; split; [simpl; lia |]).
      apply Forall_nil_2.
Qed.

Lemma subscribe_wellKept (sender : string) (sensorIds : list string) (w : World) :
  wellKept w → wellKept (subscribe sender sensorIds w).
Proof.
  intros Hw. unfold subscribe, subscribeSensors.
  assert (H0 : wellKept (match m_clients w !! sender with
                         | Some _ => w
                         | None => set_clients (<[sender := mkClient sender ∅ ∅ [] ∅]>) w
                         end)) by (by destruct (m_clients w !! sender)).
  revert H0. generalize (match m_clients w !! sender with
                         | Some _ => w
                         | None => set_clients (<[sender := mkClient sender ∅ ∅ [] ∅]>) w
                         end).
  induction sensorIds as [| p ps IH]; intros w0 H0; [done |].
  simpl. by apply IH, subscribeSensor_wellKept.
Qed.

Lemma foldl_registerContainer_frame (l : list ContainerPtr) (w : World) :
  let w' := foldl registerContainer w l in
  m_providers w' = m_providers w ∧ sessionBus w' = sessionBus w
  ∧ nextHandle w' = nextHandle w ∧ connections w' = connections w
  ∧ m_clients w' = m_clients w.
Proof.
  revert w. induction l as [| cp l IH]; intros w; simpl; [done |].
  destruct (IH (registerContainer w cp)) as (-> & -> & -> & -> & ->).
  unfold registerContainer. by destruct (containerHeap w !! cp).
Qed.

Lemma registerProvider_wellKept (provider : SensorPlugin) (w : World) :
  wellKept w → wellKept (registerProvider provider w).
Proof.
  intros (I1 & I2 & I3 & I4). unfold registerProvider.
  destruct (alreadyHasProvider w provider) eqn:Hdup; [done |].
  destruct (foldl_registerContainer_frame (containers provider)
              (set_providers (λ l, l ++ [provider]) w)) as (Hp & Hb & Hn & Ht & _).
  split; [| by rewrite Ht, Hn, Hb].
  rewrite Hp. simpl. rewrite fmap_app. apply NoDup_app. split; [done |].
  split; [| apply NoDup_singleton].
  intros n Hn' Hnew. apply list_elem_of_singleton in Hnew as ->.
  apply list_elem_of_fmap in Hn' as (p2 & Heq & Hin).
  assert (Hyes : alreadyHasProvider w provider = true).
  { apply alreadyHasProvider_spec. by exists p2. }
  by rewrite Hyes in Hdup.
Qed.

Lemma sendFrame_wellKept (cn : string) (w : World) :
  wellKept w → wellKept (Client_sendFrame cn w).
Proof.
  intros (I1 & I2 & I3 & I4). unfold Client_sendFrame.
  destruct (m_clients w !! cn) as [c |]; [| done].
  unfold sendMetaDataChanged, sendValues, send.
  destruct (decide (m_pendingMetaDataChanges c = ∅)) as [He | Hne],
           (m_pendingUpdates c) as [| d ds] eqn:Hu; simpl;
    (split; [done |]; split; [done |]; split; [done |]).
  - exact I4.
  - apply Forall_app. split; [exact I4 | by apply Forall_singleton].
  - apply Forall_app. split; [exact I4 | by apply Forall_singleton].
  - apply Forall_app. split; [| by apply Forall_singleton].
    apply Forall_app. split; [exact I4 | by apply Forall_singleton].
Qed.

Lemma Daemon_sendFrame_wellKept (w : World) :
  wellKept w → wellKept (stateOf (Daemon_sendFrame w)).
Proof.
  intros Hw. unfold Daemon_sendFrame.
  pose proof (settles_wellKept _ _ (updateProviders_settles (m_providers w) w) Hw) as Hu.
  destruct (updateProviders _ _) as [w' | w']; simpl in *; [| done].
  unfold flushClients. revert Hu. generalize (map_to_list (m_clients w')).*1.
  intros l. revert w'. induction l as [| cn l IH]; intros w' Hw'; [done |].
  simpl. by apply IH, sendFrame_wellKept.
Qed.

Lemma handle_wellKept (w : World) (r : Request) : wellKept w → wellKept (handle w r).
Proof.
  intros Hw. destruct r; simpl.
  - by apply registerProvider_wellKept.
  - by apply subscribe_wellKept.
  - exact (settles_wellKept _ _ (unsubscribe_settles _ _ w) Hw).
  - exact (settles_wellKept _ _ (onServiceDisconnected_settles _ w) Hw).
  - exact (settles_wellKept _ _ (perform_settles _ w) Hw).
  - by apply Daemon_sendFrame_wellKept.
Qed.

Lemma run_wellKept (sensorStore : gmap SensorPtr SensorProperty)
    (containerStore : gmap ContainerPtr SensorContainer) (rs : list Request) :
  wellKept (run rs (started sensorStore containerStore)).
Proof.
  unfold run.
  assert (H0 : wellKept (started sensorStore containerStore)).
  { split; [apply NoDup_nil_2 |]. split; [apply NoDup_nil_2 |].
    split; apply Forall_nil_2. }
  revert H0. generalize (started sensorStore containerStore).
  induction rs as [| r rs IH]; intros w Hw; [done |].
  simpl. by apply IH, handle_wellKept.
Qed.

(** X12. The daemon never sends an empty frame: whatever registrations,
    requests, plugin actions and ticks it has gone through since it
    started, every value frame on the bus holds at least one entry and
    every metadata frame at least one path. *)
Theorem no_empty_frame_is_ever_sent (sensorStore : gmap SensorPtr SensorProperty)
    (containerStore : gmap ContainerPtr SensorContainer) (rs : list Request) :
  let w := run rs (started sensorStore containerStore) in
  (∀ service entries, NewSensorData service entries ∈ sessionBus w → entries ≠ [])
  ∧ (∀ service infos, SensorMetaDataChanged service infos ∈ sessionBus w → infos ≠ ∅).
Proof.
  intros w. destruct (run_wellKept sensorStore containerStore rs) as (_ & _ & _ & H).
  fold w in H. rewrite Forall_forall in H. split.
  - intros service entries Hin. exact (H _ Hin).
  - intros service infos Hin. exact (H _ Hin).
Qed.

(** X13. Provider names stay unique: in every state the daemon reaches,
    no two registered providers have the same name. *)
Theorem provider_names_stay_unique (sensorStore : gmap SensorPtr SensorProperty)
    (containerStore : gmap ContainerPtr SensorContainer) (rs : list Request) :
  NoDup (providerName <$> m_providers (run rs (started sensorStore containerStore))).
Proof. by destruct (run_wellKept sensorStore containerStore rs) as (H & _). Qed.

(** ** Registering containers *)

Lemma registerContainer_heap (w : World) (cp : ContainerPtr) :
  containerHeap (registerContainer w cp) = containerHeap w.
Proof. unfold registerContainer. by destruct (containerHeap w !! cp). Qed.

Lemma foldl_registerContainer_heap (l : list ContainerPtr) (w : World) :
  containerHeap (foldl registerContainer w l) = containerHeap w.
Proof.
  revert w. induction l as [| cp l IH]; intros w; [done |].
  simpl. by rewrite IH, registerContainer_heap.
Qed.

Lemma foldl_registerContainer_keeps (l : list ContainerPtr) (w : World) (id : string) :
  (∀ cp c, cp ∈ l → containerHeap w !! cp = Some c → sc_id c ≠ id) →
  m_containers (foldl registerContainer w l) !! id = m_containers w !! id.
Proof.
  revert w. induction l as [| cp l IH]; intros w Hother; [done |].
  simpl. rewrite IH.
  - unfold registerContainer. destruct (containerHeap w !! cp) as [c |] eqn:Hc; [| done].
    simpl. rewrite lookup_insert_ne; [done |]. apply (Hother cp c); [left | done].
  - intros cp' c' Hin Hc'. rewrite registerContainer_heap in Hc'.
    apply (Hother cp' c'); [by right | done].
Qed.

Lemma foldl_registerContainer_slots (l : list ContainerPtr) (w : World) (cp : ContainerPtr) :
  cp ∈ containerSlots w → cp ∈ containerSlots (foldl registerContainer w l).
Proof.
  revert w. induction l as [| x l IH]; intros w Hin; [done |].
  simpl. apply IH. unfold registerContainer. destruct (containerHeap w !! x); [| done].
  simpl. apply elem_of_app. by left.
Qed.

(** X15. A provider with a new name is taken into the provider list, and
    each of its containers is indexed under its id and connected to the
    daemon's object handlers; when several containers of the provider carry
    the same id, the last one in the list is the one the index keeps.  Ids
    that none of its containers carries keep the container they had. *)
Theorem registerProvider_indexes_containers
    (w : World) (provider : SensorPlugin) (before after : list ContainerPtr)
    (cp : ContainerPtr) (c : SensorContainer) :
  alreadyHasProvider w provider = false →
  containers provider = before ++ cp :: after →
  containerHeap w !! cp = Some c →
  (∀ cp' c', cp' ∈ after → containerHeap w !! cp' = Some c' → sc_id c' ≠ sc_id c) →
  let w' := registerProvider provider w in
  m_containers w' !! sc_id c = Some cp
  ∧ cp ∈ containerSlots w'
  ∧ m_providers w' = m_providers w ++ [provider]
  ∧ (∀ id, (∀ cp' c', cp' ∈ containers provider → containerHeap w !! cp' = Some c' →
                      sc_id c' ≠ id) →
           m_containers w' !! id = m_containers w !! id).
Proof.
  intros Hfresh Hlist Hc Hlast w'.
  split; [| split; [| split; [by apply registerProvider_fresh |]]].
  - unfold w', registerProvider. rewrite Hfresh, Hlist, foldl_app. simpl.
    set (w1 := foldl registerContainer _ before).
    assert (Hh1 : containerHeap w1 = containerHeap w)
      by (unfold w1; by rewrite foldl_registerContainer_heap).
    assert (Hh2 : containerHeap (registerContainer w1 cp) = containerHeap w)
      by (by rewrite registerContainer_heap).
    rewrite foldl_registerContainer_keeps.
    + unfold registerContainer. rewrite Hh1, Hc. simpl. apply lookup_insert_eq.
    + intros cp' c' Hin Hc'. rewrite Hh2 in Hc'. by apply (Hlast cp' c').
  - unfold w', registerProvider. rewrite Hfresh, Hlist, foldl_app. simpl.
    apply foldl_registerContainer_slots.
    set (w1 := foldl registerContainer _ before).
    assert (Hh1 : containerHeap w1 = containerHeap w)
      by (unfold w1; by rewrite foldl_registerContainer_heap).
    unfold registerContainer. rewrite Hh1, Hc. simpl. apply elem_of_app. right. left.
  - intros id Hother. unfold w', registerProvider. rewrite Hfresh.
    by rewrite foldl_registerContainer_keeps.
Qed.

Lemma registerProvider_indexes_containers_witness :
  m_containers Example.registered !! "cpu" = Some 10%nat
  ∧ 10%nat ∈ containerSlots Example.registered
  ∧ m_providers Example.registered = [Example.cpuPlugin].
Proof.
  destruct (registerProvider_indexes_containers Example.boot Example.cpuPlugin
              [] [] 10%nat Example.cpu) as (H1 & H2 & H3 & _).
  - reflexivity.
  - reflexivity.
  - vm_compute. reflexivity.
  - intros cp' c' Hin. by apply elem_of_nil in Hin.
  - split; [exact H1 |]. split; [exact H2 | exact H3].
Defined.

(** ** Destruction of subscribed sensors *)

Lemma slot_forgets (sig : Signal) (s' sensor : SensorPtr) (sp : SensorProperty) (c : Client) :
  m_connections c !! sensor = None → m_connections (slot sig s' sp c) !! sensor = None.
Proof.
  intros H. destruct sig; simpl; [unfold onValueChanged; by destruct (negb _) | done |].
  apply lookup_delete_None. by right.
Qed.

Lemma iter_slot_forgets (sig : Signal) (s' sensor : SensorPtr) (sp : SensorProperty)
    (c : Client) (n : nat) :
  m_connections c !! sensor = None →
  m_connections (Nat.iter n (slot sig s' sp) c) !! sensor = None.
Proof. intros H. induction n as [| n IH]; [done |]. simpl. by apply slot_forgets. Qed.

Lemma emit_forgets (sig : Signal) (s' sensor : SensorPtr) (cn : string) (w : World) :
  forgets sensor cn w → forgets sensor cn (emit sig s' w).
Proof.
  intros Hw cl Hcl. destruct (sensorHeap w !! s') as [sp |] eqn:Hs.
  - rewrite (emit_client _ _ sp) in Hcl by done.
    destruct (m_clients w !! cn) as [c |] eqn:Hc; [| done].
    simpl in Hcl. injection Hcl as <-. apply iter_slot_forgets. by apply Hw.
  - rewrite emit_dangling in Hcl by done. by apply Hw.
Qed.

(** The [destroyed] listener drops the handles stored for the sensor. *)
Lemma emit_destroyed_forgets (sensor : SensorPtr) (sp : SensorProperty) (cn : string)
    (w : World) :
  sensorHeap w !! sensor = Some sp →
  (1 ≤ listenerCount SigDestroyed sensor cn w)%nat →
  forgets sensor cn (emit SigDestroyed sensor w).
Proof.
  intros Hs Hl cl Hcl. rewrite (emit_client _ _ sp) in Hcl by done.
  destruct (m_clients w !! cn) as [c |]; [| done]. simpl in Hcl. injection Hcl as <-.
  destruct (listenerCount SigDestroyed sensor cn w) as [| n]; [lia |].
  simpl. apply lookup_delete_eq.
Qed.

Lemma destroySensor_released (w : World) (sensor : SensorPtr) :
  released sensor (destroySensor w sensor).
Proof.
  unfold destroySensor. split; simpl.
  - apply lookup_delete_eq.
  - apply Forall_forall. intros k Hk. by apply list_elem_of_filter in Hk as (Hk & _).
Qed.

Lemma destroySensor_keeps_released (w : World) (x sensor : SensorPtr) :
  released sensor w → released sensor (destroySensor w x).
Proof.
  intros (Hh & Ht).
  destruct (emit_frame SigDestroyed x w) as (_ & _ & Hheap & _ & Htab & _).
  unfold destroySensor. split; simpl.
  - rewrite Hheap. apply lookup_delete_None. by right.
  - rewrite Htab. apply Forall_forall. intros k Hk.
    apply list_elem_of_filter in Hk as (_ & Hk). rewrite Forall_forall in Ht. by apply Ht.
Qed.

Lemma destroySensor_keeps_forgets (w : World) (x sensor : SensorPtr) (cn : string) :
  forgets sensor cn w → forgets sensor cn (destroySensor w x).
Proof. intros H. exact (emit_forgets SigDestroyed x sensor cn w H). Qed.

Lemma listeners_of_other_sender (sig : Signal) (sensor x : SensorPtr) (cn : string)
    (l : list Connection) :
  x ≠ sensor →
  List.filter (λ k, listens sig sensor k && bool_decide (conn_receiver k = cn))
    (filter (λ k, conn_sender k ≠ x) l)
  = List.filter (λ k, listens sig sensor k && bool_decide (conn_receiver k = cn)) l.
Proof.
  intros Hne. induction l as [| k l IH]; [done |].
  destruct (decide (conn_sender k = x)) as [Hx | Hx].
  - rewrite filter_cons_False by (intros H; by apply H). rewrite IH. simpl.
    unfold listens. rewrite (bool_decide_eq_false_2 (conn_sender k = sensor)); [done |].
    congruence.
  - rewrite filter_cons_True by done. simpl. by rewrite IH.
Qed.

Lemma destroySensor_other (w : World) (x sensor : SensorPtr) (sp : SensorProperty)
    (cn : string) :
  x ≠ sensor →
  sensorHeap w !! sensor = Some sp →
  sensorHeap (destroySensor w x) !! sensor = Some sp
  ∧ listenerCount SigDestroyed sensor cn (destroySensor w x)
    = listenerCount SigDestroyed sensor cn w.
Proof.
  intros Hne Hs.
  destruct (emit_frame SigDestroyed x w) as (_ & _ & Hheap & _ & Htab & _).
  unfold destroySensor. split; simpl.
  - by rewrite Hheap, lookup_delete_ne.
  - unfold listenerCount. simpl. rewrite Htab. by rewrite listeners_of_other_sender.
Qed.

Lemma foldl_destroySensor_keeps (l : list SensorPtr) (w : World) (sensor : SensorPtr)
    (cn : string) :
  released sensor w → forgets sensor cn w →
  released sensor (foldl destroySensor w l) ∧ forgets sensor cn (foldl destroySensor w l).
Proof.
  revert w. induction l as [| x l IH]; intros w Hr Hf; [done |].
  simpl. apply IH; [by apply destroySensor_keeps_released
                   | by apply destroySensor_keeps_forgets].
Qed.

Lemma foldl_destroySensor_releases (l : list SensorPtr) (w : World) (sensor : SensorPtr)
    (sp : SensorProperty) (cn : string) :
  sensor ∈ l →
  sensorHeap w !! sensor = Some sp →
  (1 ≤ listenerCount SigDestroyed sensor cn w)%nat →
  released sensor (foldl destroySensor w l) ∧ forgets sensor cn (foldl destroySensor w l).
Proof.
  revert w. induction l as [| x l IH]; intros w Hin Hs Hl; [by apply elem_of_nil in Hin |].
  simpl. destruct (decide (x = sensor)) as [-> | Hne].
  - apply foldl_destroySensor_keeps; [apply destroySensor_released |].
    exact (emit_destroyed_forgets sensor sp cn w Hs Hl).
  - apply elem_of_cons in Hin as [-> | Hin]; [done |].
    destruct (destroySensor_other w x sensor sp cn Hne Hs) as (Hs' & Hl').
    apply IH; [done | done | by rewrite Hl'].
Qed.

Lemma onObjectRemoved_table (obj : SensorObject) (w : World) :
  connections (onObjectRemoved obj w) = connections w.
Proof.
  unfold onObjectRemoved. generalize (sensorsOf obj). intros l. revert w.
  induction l as [| s l IH]; intros w; [done |].
  simpl. rewrite IH. by destruct (sensorHeap w !! s).
Qed.

(** X16. When an object is removed, each of its sensors is released (out
    of the store, and sender of no connection any more), and through the
    [destroyed] listener every client that was connected to the sensor
    drops the connection handles it stored for it. *)
Theorem object_removal_releases_sensors
    (w : World) (cp : ContainerPtr) (c : SensorContainer) (oid : string)
    (obj : SensorObject) (sid : string) (s : SensorPtr) (sp : SensorProperty)
    (cn : string) :
  containerHeap w !! cp = Some c →
  sc_objects c !! oid = Some obj →
  so_sensors obj !! sid = Some s →
  sensorHeap w !! s = Some sp →
  (1 ≤ listenerCount SigDestroyed s cn w)%nat →
  let w' := SensorContainer_removeObject cp oid w in
  sensorHeap w' !! s = None
  ∧ (∀ k, k ∈ connections w' → conn_sender k ≠ s)
  ∧ (∀ cl, m_clients w' !! cn = Some cl → m_connections cl !! s = None).
Proof.
  intros Hc Hobj Hsid Hs Hl w'. unfold w', SensorContainer_removeObject.
  rewrite Hc, Hobj.
  set (w1 := set_containerHeap _ w).
  set (w2 := foldl (λ w _, onObjectRemoved obj w) w1 _).
  assert (H2 : sensorHeap w2 = sensorHeap w ∧ connections w2 = connections w).
  { unfold w2. generalize (List.filter (Nat.eqb cp) (containerSlots w1)). intros hs.
    assert (H1 : sensorHeap w1 = sensorHeap w ∧ connections w1 = connections w) by done.
    revert H1. generalize w1. induction hs as [| h hs IH]; intros w0 H0; [done |].
    simpl. apply IH.
    destruct (onObjectRemoved_frame obj w0) as (_ & _ & -> & _).
    by rewrite onObjectRemoved_table. }
  destruct H2 as (Hh2 & Ht2).
  destruct (foldl_destroySensor_releases (sensorsOf obj) w2 s sp cn) as ((R1 & R2) & F).
  - apply elem_of_values. by exists sid.
  - by rewrite Hh2.
  - unfold listenerCount. by rewrite Ht2.
  - split; [exact R1 |]. split; [| exact F].
    intros k Hk. rewrite Forall_forall in R2. by apply R2.
Qed.

Lemma object_removal_releases_sensors_witness :
  let w' := SensorContainer_removeObject 10%nat "cpu0" Example.subscribed in
  sensorHeap w' !! 1%nat = None
  ∧ (∀ k, k ∈ connections w' → conn_sender k ≠ 1%nat)
  ∧ (∀ cl, m_clients w' !! ":1.7" = Some cl → m_connections cl !! 1%nat = None).
Proof.
  apply (object_removal_releases_sensors Example.subscribed 10%nat Example.cpu "cpu0"
           Example.cpu0 "usage" 1%nat (set_subscribers (λ _, 1) Example.usage) ":1.7").
  - vm_compute. reflexivity.
  - vm_compute. reflexivity.
  - vm_compute. reflexivity.
  - vm_compute. reflexivity.
  - vm_compute. lia.
Defined.

(** ** CPU usage from tick counters *)

Lemma u64_small (z : Z) : 0 ≤ z < 2 ^ 64 → UsageComputer.u64 z = z.
Proof. intros H. unfold UsageComputer.u64. by apply Z.mod_small. Qed.

Lemma u64_range (z : Z) : 0 ≤ UsageComputer.u64 z < 2 ^ 64.
Proof. unfold UsageComputer.u64. apply Z.mod_pos_bound. lia. Qed.

(** X17. A sample that repeats the previous one reports no usage at all:
    after [setTicks] has seen some counters, a second call with the same
    counters sets the system, user, wait and total usage to zero. *)
Theorem setTicks_repeated_sample (system user wait idle : Z) (st : UsageComputer.State) :
  let st' := UsageComputer.setTicks system user wait idle
               (UsageComputer.setTicks system user wait idle st) in
  UsageComputer.systemUsage st' = UsageComputer.Zero
  ∧ UsageComputer.userUsage st' = UsageComputer.Zero
  ∧ UsageComputer.waitUsage st' = UsageComputer.Zero
  ∧ UsageComputer.totalUsage st' = UsageComputer.Zero.
Proof.
  intros st'. unfold st', UsageComputer.setTicks. simpl.
  rewrite !Z.sub_diag. change (UsageComputer.u64 0) with 0.
  change (Z.max 0 0) with 0. change (UsageComputer.u64 (0 + 0)) with 0.
  change (UsageComputer.u64 (0 + 0)) with 0.
  unfold UsageComputer.percentage. done.
Qed.

(** X18. The guard against counters that go backwards never applies: the
    differences are unsigned, so [std::max(.., 0ull)] returns them as they
    are.  When the system counter has decreased and the total has moved, the
    system usage is computed from the wrapped difference
    [2^64 - decrease] instead of being reported as zero. *)
Theorem setTicks_backwards_counter (system user wait idle : Z) (st : UsageComputer.State) :
  0 ≤ system < UsageComputer.m_systemTicks st →
  UsageComputer.m_systemTicks st < 2 ^ 64 →
  UsageComputer.totalOf system user wait idle ≠ UsageComputer.m_totalTicks st →
  0 ≤ UsageComputer.m_totalTicks st < 2 ^ 64 →
  UsageComputer.systemUsage (UsageComputer.setTicks system user wait idle st)
  = UsageComputer.Percent
      (2 ^ 64 - (UsageComputer.m_systemTicks st - system))
      (UsageComputer.u64
         (UsageComputer.totalOf system user wait idle - UsageComputer.m_totalTicks st)).
Proof.
  intros Hs Hm Hmoved Ht. unfold UsageComputer.setTicks. simpl.
  set (total := UsageComputer.totalOf system user wait idle) in *.
  assert (Htot : 0 ≤ total < 2 ^ 64) by apply u64_range.
  assert (Hd : UsageComputer.u64 (system - UsageComputer.m_systemTicks st)
               = 2 ^ 64 - (UsageComputer.m_systemTicks st - system)).
  { unfold UsageComputer.u64.
    replace (system - UsageComputer.m_systemTicks st)
      with ((2 ^ 64 - (UsageComputer.m_systemTicks st - system)) + (-1) * 2 ^ 64) by lia.
    rewrite Z.mod_add by lia. apply Z.mod_small. lia. }
  assert (Htd : 0 < UsageComputer.u64 (total - UsageComputer.m_totalTicks st)).
  { pose proof (u64_range (total - UsageComputer.m_totalTicks st)) as Hr.
    destruct (decide (UsageComputer.u64 (total - UsageComputer.m_totalTicks st) = 0))
      as [Hz | Hnz]; [| lia].
    exfalso. unfold UsageComputer.u64 in Hz.
    apply Z.mod_divide in Hz; [| lia]. destruct Hz as [q Hq].
    assert (q = 0) by nia. subst q. lia. }
  rewrite Hd. unfold UsageComputer.percentage.
  rewrite !Z.max_l by lia.
  replace (0 <? 2 ^ 64 - (UsageComputer.m_systemTicks st - system)) with true
    by (symmetry; lia).
  replace (0 <? UsageComputer.u64 (total - UsageComputer.m_totalTicks st)) with true
    by (symmetry; lia).
  done.
Qed.

Lemma setTicks_backwards_counter_witness :
  let st := UsageComputer.setTicks 100 50 10 1000
              (UsageComputer.mkState UsageComputer.Zero UsageComputer.Zero
                 UsageComputer.Zero UsageComputer.Zero 0 0 0 0) in
  UsageComputer.systemUsage (UsageComputer.setTicks 90 60 10 1100 st)
  = UsageComputer.Percent (2 ^ 64 - 10) 100.
Proof.
  intros st.
  etrans; [apply (setTicks_backwards_counter 90 60 10 1100 st) |].
  - vm_compute. split; [discriminate | reflexivity].
  - vm_compute. reflexivity.
  - vm_compute. discriminate.
  - vm_compute. split; [discriminate | reflexivity].
  - vm_compute. reflexivity.
Defined.

(** X19. With counters that only grow and whose sum fits 64 bits, no
    unsigned subtraction of [setTicks] wraps around: each of the system,
    user, wait and total figures is computed from the true differences of
    the counters, and when it is not zero its tick difference is positive
    and at most the difference of the totals.  (A statement about the
    integer operands of [100.0 * tickDiff / totalDiff], not about the
    rounded double.) *)
Theorem setTicks_monotone_counters
    (s0 u0 w0 i0 system user wait idle : Z) (st : UsageComputer.State) :
  0 ≤ s0 ≤ system → 0 ≤ u0 ≤ user → 0 ≤ w0 ≤ wait → 0 ≤ i0 ≤ idle →
  system + user + wait + idle < 2 ^ 64 →
  let st' := UsageComputer.setTicks system user wait idle
               (UsageComputer.setTicks s0 u0 w0 i0 st) in
  let totalDiff := system + user + wait + idle - (s0 + u0 + w0 + i0) in
  (UsageComputer.systemUsage st' = UsageComputer.percentage totalDiff (system - s0)
   ∧ UsageComputer.userUsage st' = UsageComputer.percentage totalDiff (user - u0)
   ∧ UsageComputer.waitUsage st' = UsageComputer.percentage totalDiff (wait - w0)
   ∧ UsageComputer.totalUsage st'
     = UsageComputer.percentage totalDiff (system - s0 + (user - u0) + (wait - w0)))
  ∧ UsageComputer.withinTotal (UsageComputer.systemUsage st')
  ∧ UsageComputer.withinTotal (UsageComputer.userUsage st')
  ∧ UsageComputer.withinTotal (UsageComputer.waitUsage st')
  ∧ UsageComputer.withinTotal (UsageComputer.totalUsage st').
Proof.
  intros Hs Hu Hw Hi Hsum st' totalDiff. unfold st', totalDiff, UsageComputer.setTicks.
  simpl. unfold UsageComputer.totalOf.
  rewrite !(u64_small (s0 + u0)) by lia.
  rewrite !(u64_small (s0 + u0 + w0)) by lia.
  rewrite !(u64_small (s0 + u0 + w0 + i0)) by lia.
  rewrite !(u64_small (system + user)) by lia.
  rewrite !(u64_small (system + user + wait)) by lia.
  rewrite !(u64_small (system + user + wait + idle)) by lia.
  rewrite !(u64_small (system - s0)) by lia.
  rewrite !(u64_small (user - u0)) by lia.
  rewrite !(u64_small (wait - w0)) by lia.
  rewrite !(u64_small (system + user + wait + idle - (s0 + u0 + w0 + i0))) by lia.
  rewrite !Z.max_l by lia.
  rewrite !(u64_small (system - s0 + (user - u0))) by lia.
  rewrite !(u64_small (system - s0 + (user - u0) + (wait - w0))) by lia.
  split; [done |].
  unfold UsageComputer.percentage, UsageComputer.withinTotal.
  repeat split;
    match goal with
    | |- context [if ?b then _ else _] => destruct b eqn:E; [lia | done]
    end.
Qed.

Lemma setTicks_monotone_counters_witness :
  let st' := UsageComputer.setTicks 130 70 10 1190
               (UsageComputer.setTicks 100 50 10 1000
                  (UsageComputer.mkState UsageComputer.Zero UsageComputer.Zero
                     UsageComputer.Zero UsageComputer.Zero 7 7 7 7)) in
  UsageComputer.systemUsage st' = UsageComputer.Percent 30 240
  ∧ UsageComputer.withinTotal (UsageComputer.totalUsage st').
Proof.
  intros st'.
  destruct (setTicks_monotone_counters 100 50 10 1000 130 70 10 1190
              (UsageComputer.mkState UsageComputer.Zero UsageComputer.Zero
                 UsageComputer.Zero UsageComputer.Zero 7 7 7 7))
    as ((H1 & _) & _ & _ & _ & H); try lia.
  split; [etrans; [exact H1 | reflexivity] | exact H].
Defined.

(** ** Intel GPU counters *)

Lemma split_from_length (s current : string) :
  length (LinuxIntelGpu.split_from LinuxIntelGpu.bar s current) = S (LinuxIntelGpu.bars s).
Proof.
  revert current. induction s as [| a s IH]; intros current; [done |].
  simpl. destruct (Ascii.eqb a LinuxIntelGpu.bar); simpl; by rewrite IH.
Qed.

Lemma readLine_malformed (toULong : string → Z) (line : string) (st : LinuxIntelGpu.State) :
  LinuxIntelGpu.bars line = 0%nat ∨ Nat.odd (LinuxIntelGpu.bars line) = true →
  LinuxIntelGpu.readLine toULong line st = Some (st, []).
Proof.
  intros H. unfold LinuxIntelGpu.readLine, LinuxIntelGpu.split.
  rewrite split_from_length.
  set (n := LinuxIntelGpu.bars line) in *.
  replace ((Z.of_nat (S n) <=? 1) || (Z.of_nat (S n) mod 2 =? 0)) with true; [done |].
  symmetry. apply orb_true_iff. destruct H as [-> | Hodd]; [by left |].
  right. apply Z.eqb_eq.
  apply Nat.odd_spec in Hodd as [m Hm]. rewrite Hm.
  replace (Z.of_nat (S (2 * m + 1))) with (2 * (Z.of_nat m + 1)) by lia.
  rewrite Z.mul_comm. apply Z.mod_mul. lia.
Qed.

Lemma readPerfData_app (toULong : string → Z) (l1 l2 : list string)
    (st : LinuxIntelGpu.State) :
  LinuxIntelGpu.readPerfData toULong (l1 ++ l2) st
  = match LinuxIntelGpu.readPerfData toULong l1 st with
    | Some (st', out) =>
        match LinuxIntelGpu.readPerfData toULong l2 st' with
        | Some (st'', out') => Some (st'', out ++ out')
        | None => None
        end
    | None => None
    end.
Proof.
  revert st. induction l1 as [| line l1 IH]; intros st; simpl.
  - by destruct (LinuxIntelGpu.readPerfData toULong l2 st) as [[st' out] |].
  - destruct (LinuxIntelGpu.readLine toULong line st) as [[st1 out1] |]; [| done].
    rewrite IH.
    destruct (LinuxIntelGpu.readPerfData toULong l1 st1) as [[st2 out2] |]; [| done].
    destruct (LinuxIntelGpu.readPerfData toULong l2 st2) as [[st3 out3] |]; [| done].
    by rewrite app_assoc.
Qed.

(** X20. [readPerfData] skips malformed lines: a line without any [|] or
    with an odd number of them (an even number of parts) publishes nothing
    and leaves the remembered counters alone, so taking such a line out of
    what the helper wrote does not change the outcome. *)
Theorem readPerfData_skips_malformed (toULong : string → Z) (line : string)
    (before after : list string) (st : LinuxIntelGpu.State) :
  LinuxIntelGpu.bars line = 0%nat ∨ Nat.odd (LinuxIntelGpu.bars line) = true →
  LinuxIntelGpu.readLine toULong line st = Some (st, [])
  ∧ LinuxIntelGpu.readPerfData toULong (before ++ line :: after) st
    = LinuxIntelGpu.readPerfData toULong (before ++ after) st.
Proof.
  intros H. split; [by apply readLine_malformed |].
  rewrite !readPerfData_app.
  destruct (LinuxIntelGpu.readPerfData toULong before st) as [[st1 out1] |]; [| done].
  simpl. rewrite readLine_malformed by done.
  by destruct (LinuxIntelGpu.readPerfData toULong after st1) as [[st2 out2] |].
Qed.

Lemma readPerfData_skips_malformed_witness :
  LinuxIntelGpu.readLine (λ _, 5) "17|Render" (LinuxIntelGpu.mkState 1 2 3)
    = Some (LinuxIntelGpu.mkState 1 2 3, [])
  ∧ LinuxIntelGpu.readPerfData (λ _, 5) (["garbage"] ++ "17|Render" :: ["x"])
      (LinuxIntelGpu.mkState 1 2 3)
    = LinuxIntelGpu.readPerfData (λ _, 5) (["garbage"] ++ ["x"])
        (LinuxIntelGpu.mkState 1 2 3).
Proof.
  apply (readPerfData_skips_malformed (λ _, 5) "17|Render" ["garbage"] ["x"]).
  right. reflexivity.
Defined.

Lemma gpu_u64_range (z : Z) : 0 ≤ LinuxIntelGpu.u64 z < 2 ^ 64.
Proof. unfold LinuxIntelGpu.u64. apply Z.mod_pos_bound. lia. Qed.

Lemma gpu_u64_idem (z : Z) : LinuxIntelGpu.u64 (LinuxIntelGpu.u64 z) = LinuxIntelGpu.u64 z.
Proof. unfold LinuxIntelGpu.u64. apply Z.mod_mod. lia. Qed.

Lemma gpu_u64_add (a b : Z) :
  LinuxIntelGpu.u64 (LinuxIntelGpu.u64 a + b) = LinuxIntelGpu.u64 (a + b).
Proof. unfold LinuxIntelGpu.u64. apply Zplus_mod_idemp_l. Qed.

Lemma well_formed_size (fields : list string) :
  fields ≠ [] → Nat.even (length fields) = true →
  (Z.of_nat (S (length fields)) <=? 1) || (Z.of_nat (S (length fields)) mod 2 =? 0) = false.
Proof.
  intros Hne Heven. apply orb_false_iff. split.
  - destruct fields; [done |]. simpl. lia.
  - apply Z.eqb_neq. apply Nat.even_spec in Heven as [m Hm]. rewrite Hm.
    replace (Z.of_nat (S (2 * m))) with (1 + Z.of_nat m * 2) by lia.
    rewrite Z.mod_add by lia. done.
Qed.

(** X21. A well-formed line that repeats the previous time stamp makes
    [readPerfData] divide by zero: the usage is computed by an integer
    division by the time difference, which is then [0]. *)
Theorem readLine_repeated_timestamp (toULong : string → Z) (line first : string)
    (fields : list string) (st : LinuxIntelGpu.State) :
  LinuxIntelGpu.split LinuxIntelGpu.bar line = first :: fields →
  fields ≠ [] → Nat.even (length fields) = true →
  LinuxIntelGpu.u64 (toULong first) = LinuxIntelGpu.lastTimeStamp st →
  LinuxIntelGpu.readLine toULong line st = None.
Proof.
  intros Hparts Hne Heven Hsame. unfold LinuxIntelGpu.readLine.
  rewrite Hparts. simpl length. rewrite well_formed_size by done.
  rewrite Hsame, Z.sub_diag. change (LinuxIntelGpu.u64 0) with 0.
  by destruct (LinuxIntelGpu.scan toULong 0 fields 0 _ []) as [[usage frequency] out].
Qed.

Lemma readLine_repeated_timestamp_witness :
  LinuxIntelGpu.readLine (λ s, if String.eqb s "1000" then 1000 else 7)
    "1000|Render|7" (LinuxIntelGpu.mkState 1000 0 0) = None.
Proof.
  apply (readLine_repeated_timestamp _ "1000|Render|7" "1000" ["Render"; "7"]);
    [reflexivity | discriminate | reflexivity | reflexivity].
Defined.

Lemma scan_usage (toULong : string → Z) (timediff : Z) (fields : list string)
    (usage lastFrequency : Z) (out : list LinuxIntelGpu.Published) :
  usage = LinuxIntelGpu.u64 usage →
  (LinuxIntelGpu.scan toULong timediff fields usage lastFrequency out).1.1
  = LinuxIntelGpu.u64 (usage + LinuxIntelGpu.engineTotal toULong fields).
Proof.
  assert (Hgen : ∀ n fields usage lastFrequency out,
            (length fields ≤ n)%nat → usage = LinuxIntelGpu.u64 usage →
            (LinuxIntelGpu.scan toULong timediff fields usage lastFrequency out).1.1
            = LinuxIntelGpu.u64 (usage + LinuxIntelGpu.engineTotal toULong fields)).
  { clear. induction n as [| n IH]; intros fields usage lastFrequency out Hlen Hu.
    - destruct fields; [| simpl in Hlen; lia]. simpl. by rewrite Z.add_0_r.
    - destruct fields as [| label [| value rest]]; simpl.
      + by rewrite Z.add_0_r.
      + by rewrite Z.add_0_r.
      + simpl in Hlen. destruct (String.eqb label "Frequency") eqn:Hf.
        * assert (He : LinuxIntelGpu.isEngine label = false).
          { apply String.eqb_eq in Hf. by subst label. }
          rewrite He. rewrite IH; [done | lia | done].
        * destruct (LinuxIntelGpu.isEngine label).
          -- rewrite IH; [| lia | by rewrite gpu_u64_idem].
             rewrite gpu_u64_add. f_equal. lia.
          -- rewrite IH; [done | lia | done]. }
  intros Hu. by apply (Hgen (length fields)).
Qed.

Lemma scan_published (toULong : string → Z) (timediff : Z) (fields : list string)
    (usage lastFrequency : Z) (out : list LinuxIntelGpu.Published) :
  ∃ more, (LinuxIntelGpu.scan toULong timediff fields usage lastFrequency out).2
          = out ++ more
          ∧ Forall isCoreFrequency more.
Proof.
  assert (Hgen : ∀ n fields usage lastFrequency out,
            (length fields ≤ n)%nat →
            ∃ more, (LinuxIntelGpu.scan toULong timediff fields usage lastFrequency out).2
                    = out ++ more
                    ∧ Forall isCoreFrequency more).
  { clear. induction n as [| n IH]; intros fields usage lastFrequency out Hlen.
    - destruct fields; [| simpl in Hlen; lia]. exists []. by rewrite app_nil_r.
    - destruct fields as [| label [| value rest]]; simpl.
      + exists []. by rewrite app_nil_r.
      + exists []. by rewrite app_nil_r.
      + simpl in Hlen. destruct (String.eqb label "Frequency").
        * edestruct (IH rest) as (more & -> & Hmore); [lia |].
          eexists (_ :: more). rewrite <- app_assoc. split; [done |].
          by apply Forall_cons.
        * destruct (LinuxIntelGpu.isEngine label); (apply IH; lia). }
  by apply (Hgen (length fields)).
Qed.

(** X22. For a well-formed line with a new time stamp, [readPerfData]
    remembers the time stamp and, as the usage counter, the sum of the
    values given for Render, Copy, Video and Enhance (modulo 2^64; other
    labels do not count), and publishes exactly one usage figure, last:
    the increase of that sum times 100, divided by the time difference. *)
Theorem readLine_usage (toULong : string → Z) (line first : string)
    (fields : list string) (st : LinuxIntelGpu.State) :
  LinuxIntelGpu.split LinuxIntelGpu.bar line = first :: fields →
  fields ≠ [] → Nat.even (length fields) = true →
  let timestamp := LinuxIntelGpu.u64 (toULong first) in
  let timediff := LinuxIntelGpu.u64 (timestamp - LinuxIntelGpu.lastTimeStamp st) in
  let usage := LinuxIntelGpu.u64 (LinuxIntelGpu.engineTotal toULong fields) in
  timediff ≠ 0 →
  ∃ st' frequencies,
    LinuxIntelGpu.readLine toULong line st
    = Some (st',
            frequencies
            ++ [LinuxIntelGpu.Usage
                  (LinuxIntelGpu.u64
                     (LinuxIntelGpu.u64 (usage - LinuxIntelGpu.lastUsages st) * 100)
                   / timediff)])
    ∧ Forall isCoreFrequency frequencies
    ∧ LinuxIntelGpu.lastTimeStamp st' = timestamp
    ∧ LinuxIntelGpu.lastUsages st' = usage.
Proof.
  intros Hparts Hne Heven timestamp timediff usage Hdiff.
  unfold LinuxIntelGpu.readLine. rewrite Hparts. simpl length.
  rewrite well_formed_size by done. fold timestamp timediff.
  pose proof (scan_usage toULong timediff fields 0 (LinuxIntelGpu.lastFrequencyCount st) []
                eq_refl) as Hu.
  destruct (scan_published toULong timediff fields 0 (LinuxIntelGpu.lastFrequencyCount st) [])
    as (more & Hout & Hmore).
  destruct (LinuxIntelGpu.scan toULong timediff fields 0 _ []) as [[u f] out].
  simpl in Hu, Hout. subst u out.
  replace (timediff =? 0) with false by (symmetry; by apply Z.eqb_neq).
  eexists _, more. split; [reflexivity |]. done.
Qed.

Lemma readLine_usage_witness :
  let toULong := λ s : string,
    if String.eqb s "2000" then 2000
    else if String.eqb s "300" then 300
    else if String.eqb s "200" then 200 else 9 in
  ∃ st' frequencies,
    LinuxIntelGpu.readLine toULong "2000|Interrupts|9|Render|300|Copy|200"
      (LinuxIntelGpu.mkState 1000 100 0)
    = Some (st', frequencies ++ [LinuxIntelGpu.Usage 40])
    ∧ Forall isCoreFrequency frequencies
    ∧ LinuxIntelGpu.lastTimeStamp st' = 2000
    ∧ LinuxIntelGpu.lastUsages st' = 500.
Proof.
  intros toULong.
  apply (readLine_usage toULong "2000|Interrupts|9|Render|300|Copy|200" "2000"
           ["Interrupts"; "9"; "Render"; "300"; "Copy"; "200"]
           (LinuxIntelGpu.mkState 1000 100 0)).
  - reflexivity.
  - discriminate.
  - reflexivity.
  - vm_compute. discriminate.
Defined.

(** ** Disk transfer rates *)

Lemma bytesReadPublished_app (out out' : list VolumeObject.Published) :
  VolumeObject.bytesReadPublished (out ++ out')
  = VolumeObject.bytesReadPublished out + VolumeObject.bytesReadPublished out'.
Proof.
  induction out as [| [d e | d e] out IH]; simpl; lia.
Qed.


